(** * Circular navigation: state store, display calculator and scene reconcilers

    A shallow embedding of the JavaScript sources of the circular navigation
    widget (StateManager, DisplayManager, NodeManager, PathManager,
    OuterElementManager, CircularNavManager) together with the properties
    that the design document states about them.

    Conventions of the embedding:
    - a JavaScript object used as a record of named fields is a finite map
      from property names to values ([gmap string Value]); an object literal
      whose key order is observable is an association list;
    - object identity ([===] on objects) is equality of references;
    - a method that suspends ([async]/[await]) is run to completion: the
      scheduler interleaves nothing else while a call is in flight, unless a
      definition says otherwise (the reconcilers expose the suspension point);
    - numbers are exact integers or rationals;
    - [Date.now()] reads a logical clock that only moves between calls. *)

From Stdlib Require Import ZArith QArith Qround Qminmax String Ascii List Bool Lia Lqa.
From stdpp Require Import base gmap strings list.

Open Scope Z_scope.

(* ===================================================================== *)
(** * Part I: definitions                                                 *)
(* ===================================================================== *)

(** ** JavaScript values *)

Module JS.

(** The values that reach the state store.  Objects (hierarchy nodes, data
    roots, dimension records, errors raised by collaborators, the
    [contentLoaded] set) are references; [VTypeError] is an error object
    raised by the runtime inside the modelled code (property access on
    [null], call of something that is not a function). *)
Inductive Value : Type :=
| VUndefined
| VNull
| VBool (b : bool)
| VNum (z : Z)
| VStr (s : string)
| VRef (a : nat)
| VTypeError (msg : string).

#[global] Instance Value_eq_dec : EqDecision Value.
Proof. solve_decision. Defined.

(** [a !== b] *)
Definition strict_ne (a b : Value) : bool := bool_decide (a ≠ b).

(** Conversion of a value to a boolean, as [if (v)] and [!v] do it. *)
Definition truthy (v : Value) : bool :=
  match v with
  | VUndefined | VNull => false
  | VBool b => b
  | VNum z => negb (z =? 0)
  | VStr s => negb (bool_decide (s = ""%string))
  | VRef _ | VTypeError _ => true
  end.

(** A plain object: property name to value.  Reading a property that is not
    there gives [undefined]. *)
Definition get (o : gmap string Value) (k : string) : Value :=
  default VUndefined (o !! k).

(** [{...o, ...p}] for an object literal [p] given as the list of its
    properties in source order: later properties win. *)
Definition assign (o : gmap string Value) (p : list (string * Value))
  : gmap string Value :=
  foldl (fun acc kv => <[kv.1 := kv.2]> acc) o p.

(** [Object.keys(p)]: each key once, in order of first appearance. *)
Definition keys (p : list (string * Value)) : list string :=
  remove_dups (p.*1).

(** [p[k]] for the object literal [p]. *)
Definition prop (p : list (string * Value)) (k : string) : Value :=
  get (assign ∅ p) k.

End JS.

(** ** Hierarchy nodes and link edges *)

Module Hierarchy.

(** A node of the laid-out hierarchy, as the predicates read it: its depth
    and its parent (another node, or [null]).  Nodes are heap objects named
    by their address; [===] on nodes is equality of addresses. *)
Record HNode : Type := mkHNode {
  depth : nat;
  parent : option nat
}.

Definition Heap : Type := nat -> HNode.

(** A link [{source, target}]. *)
Record Link : Type := mkLink {
  source : nat;
  target : nat
}.

#[global] Instance Link_eq_dec : EqDecision Link.
Proof. solve_decision. Defined.

(** [a === b] where [a] is a node and [b] a node or [null]. *)
Definition same (a : nat) (b : option nat) : bool :=
  match b with
  | Some b' => Nat.eqb a b'
  | None => false
  end.

(** [a === b] where both may be [null]. *)
Definition same_opt (a b : option nat) : bool :=
  match a, b with
  | Some a', Some b' => Nat.eqb a' b'
  | None, None => true
  | _, _ => false
  end.

(** [n.parent?.parent] *)
Definition grandparent (h : Heap) (n : nat) : option nat :=
  match parent (h n) with
  | Some p => parent (h p)
  | None => None
  end.

(** The design document's "active path": the sequence of edges from the
    root to the selected node, obtained by climbing [k] parent pointers. *)
Fixpoint pathEdges (h : Heap) (k : nat) (n : nat) : list Link :=
  match k with
  | O => []
  | S k' =>
      match parent (h n) with
      | None => []
      | Some p => pathEdges h k' p ++ [mkLink p n]
      end
  end.

(** The edges from the root to [s]: a node of depth [d] is [d] edges away
    from the root. *)
Definition activePath (h : Heap) (s : option nat) : list Link :=
  match s with
  | None => []
  | Some n => pathEdges h (depth (h n)) n
  end.

(** The design document's wording of "active": the link lies on the path
    from the root to the selection. *)
Definition onActivePath (h : Heap) (l : Link) (s : option nat) : Prop :=
  l ∈ activePath h s.

(** The design document's wording of "sibling": the link shares the source
    of an edge of the active path but leads to a different target. *)
Definition besideActivePath (h : Heap) (l : Link) (s : option nat) : Prop :=
  ∃ e, e ∈ activePath h s ∧ source l = source e ∧ target l ≠ target e.

(** The tree of the design document's example scenario, with one more
    leaf: root [R] (address 0) with children [A] (1) and [B] (2); [A] has
    children [C] (3) and [D] (4); [B] has child [E] (5). *)
Definition exampleTree : Heap := fun a =>
  match a with
  | 1%nat | 2%nat => mkHNode 1 (Some 0%nat)
  | 3%nat | 4%nat => mkHNode 2 (Some 1%nat)
  | 5%nat => mkHNode 2 (Some 2%nat)
  | _ => mkHNode 0 None
  end.

End Hierarchy.

(** ** The rendered scene: keyed elements and data joins *)

Module Scene.

(** A node of the hierarchy as the reconcilers read it: [data.id], [depth]
    and the id of its parent.  A tree is the list [data.descendants()];
    ids are unique within a tree. *)
Record Datum : Type := mkDatum {
  id : string;
  depth : nat;
  parentId : option string
}.

Definition Tree : Type := list Datum.

(** [data.links()]: one link per node that has a parent, keyed by
    [`${source.data.id}-${target.data.id}`]. *)
Definition linkKeys (tree : Tree) : list string :=
  flat_map
    (fun d =>
       match parentId d with
       | Some p => [p +:+ "-" +:+ id d]
       | None => []
       end)
    tree.

(** An element of the drawing surface: the key of the datum bound to it,
    the identity of the element, and whether an exit transition that ends
    with its removal is running on it. *)
Record Element : Type := mkElement {
  key : string;
  node : nat;
  leaving : bool
}.

(** A transition that was started: its kind and the key of its element. *)
Inductive Animation : Type :=
| Anim (kind : string) (key : string).

(** The elements of one kind ([g.node], [path.link], ...) in document
    order, and the identity the next created element gets. *)
Record Layer : Type := mkLayer {
  elements : list Element;
  fresh : nat
}.

Definition memb (k : string) (ks : list string) : bool := bool_decide (k ∈ ks).

(** The three parts of [selectAll(...).data(keys, key)]: the keys with no
    element (enter), the elements whose key is in the data (update), the
    elements whose key is not (exit). *)
Definition entering (l : Layer) (keys : list string) : list string :=
  List.filter (fun k => negb (memb k (map key (elements l)))) keys.

Definition updating (l : Layer) (keys : list string) : list string :=
  List.filter (fun k => memb k (map key (elements l))) keys.

Definition exiting (l : Layer) (keys : list string) : list string :=
  List.filter (fun k => negb (memb k keys)) (map key (elements l)).

(** [enter().append(...)]: one new element per entering key. *)
Definition appendAll (keys : list string) (l : Layer) : Layer :=
  mkLayer
    (elements l
       ++ map (fun kn => mkElement kn.1 kn.2 false)
            (zip keys (seq (fresh l) (length keys))))
    (fresh l + length keys).

(** [each(... map.set(key, element))] over the entering elements. *)
Definition registerAll (keys : list string) (first : nat)
    (m : gmap string nat) : gmap string nat :=
  foldl (fun acc kn => <[kn.1 := kn.2]> acc) m
    (zip keys (seq first (length keys))).

(** [each(d => map.delete(key))] over the exiting elements. *)
Definition unregisterAll (keys : list string) (m : gmap string nat)
  : gmap string nat :=
  foldl (fun acc k => delete k acc) m keys.

(** [exit().transition()...remove()]: the removal happens when the
    transition ends. *)
Definition markLeaving (keys : list string) (l : Layer) : Layer :=
  mkLayer
    (map (fun e => if memb (key e) keys then mkElement (key e) (node e) true else e)
       (elements l))
    (fresh l).

(** A new transition on an element interrupts the one that was running on
    it, so a pending removal is cancelled. *)
Definition interrupt (keys : list string) (l : Layer) : Layer :=
  mkLayer
    (map (fun e => if memb (key e) keys then mkElement (key e) (node e) false else e)
       (elements l))
    (fresh l).

(** The exit transitions end: the elements still leaving are removed. *)
Definition transitionsEnd (l : Layer) : Layer :=
  mkLayer (List.filter (fun e => negb (leaving e)) (elements l)) (fresh l).

(** [selection.remove()] *)
Definition removeAll (keys : list string) (l : Layer) : Layer :=
  mkLayer (List.filter (fun e => negb (memb (key e) keys)) (elements l)) (fresh l).

(** [classList.add(c)] and [classList.remove(c)] *)
Definition addClass (c : string) (cs : list string) : list string :=
  if memb c cs then cs else cs ++ [c].

Definition removeClass (c : string) (cs : list string) : list string :=
  List.filter (fun x => negb (bool_decide (x = c))) cs.

(** The tree of the design document's example scenario. *)
Definition exampleTree : Tree :=
  [mkDatum "R" 0 None; mkDatum "A1" 1 (Some "R"); mkDatum "A2" 1 (Some "R");
   mkDatum "B1" 2 (Some "A1"); mkDatum "B2" 2 (Some "A1")]%string.

(** The same tree without [A2] and with a new child of [A1]. *)
Definition exampleTree' : Tree :=
  [mkDatum "R" 0 None; mkDatum "A1" 1 (Some "R");
   mkDatum "B1" 2 (Some "A1"); mkDatum "B3" 2 (Some "A1")]%string.

End Scene.

(** ** PathManager: selection predicates on links *)

Module PathManager.
Import Hierarchy.

(** [isActivePath(link, selectedNode)]; the result is the truth value of
    the JavaScript expression. *)
Definition isActivePath (h : Heap) (link : option Link) (selectedNode : option nat)
  : bool :=
  match link, selectedNode with
  | None, _ | _, None => false
  | Some l, Some s =>
      if Nat.eqb (depth (h s)) 0 then true
      else if Nat.eqb (depth (h s)) 1 then
        (bool_decide (is_Some (parent (h s)))
           && same (source l) (parent (h s)) && Nat.eqb (target l) s)
        || Nat.eqb (source l) s
      else if Nat.eqb (depth (h s)) 2 then
        Nat.eqb (target l) s
        || (bool_decide (is_Some (parent (h s))) && same (source l) (parent (h s)))
        || (bool_decide (is_Some (grandparent h s))
              && same (source l) (grandparent h s)
              && same (target l) (parent (h s)))
      else false
  end.

(** [isSiblingPath(link, selectedNode)] *)
Definition isSiblingPath (h : Heap) (link : option Link) (selectedNode : option nat)
  : bool :=
  match link, selectedNode with
  | None, _ | _, None => false
  | Some l, Some s =>
      if Nat.eqb (depth (h s)) 1 then
        bool_decide (is_Some (parent (h s)))
          && same (source l) (parent (h s)) && negb (Nat.eqb (target l) s)
      else if Nat.eqb (depth (h s)) 2 then
        (bool_decide (is_Some (parent (h s)))
           && same (source l) (parent (h s)) && negb (Nat.eqb (target l) s))
        || (bool_decide (is_Some (grandparent h s))
              && negb (same (source l) (grandparent h s))
              && Nat.eqb (depth (h (target l))) 2
              && negb (Nat.eqb (target l) s))
      else false
  end.

(** *** The reconciler *)

Import Scene.

(** The manager: [links] (the bound selection, or [null]), the
    [pathElements] map, the [isUpdating] flag, the [path.link] elements of
    the surface, the classes the manager put on the container and the
    transitions it started. *)
Record Manager : Type := mkManager {
  links : option (list string);
  pathElements : gmap string nat;
  isUpdating : bool;
  layer : Layer;
  classes : list string;
  started : list Animation
}.

(** [updatePathStates(selectedNode)] up to its [await]; [None] when the
    guard returns at once. *)
Definition updatePathStates_begin (m : Manager) : option Manager :=
  if isUpdating m then None
  else
    Some (mkManager (links m) (pathElements m) true (layer m) (classes m)
            (started m ++ map (Anim "state") (default [] (links m)))).

(** The rest of [updatePathStates]: its [finally]. *)
Definition updatePathStates_resume (m : Manager) : Manager :=
  mkManager (links m) (pathElements m) false (layer m) (classes m) (started m).

(** [update(data)] up to its first [await]; [None] when the guard returns
    at once.  The entering paths are appended but not put in
    [pathElements]; the exiting ones are taken out of it at once. *)
Definition update_begin (data : option Tree) (m : Manager) : option Manager :=
  match data with
  | None => None
  | Some tree =>
      if isUpdating m then None
      else
        let keys := linkKeys tree in
        let enter := entering (layer m) keys in
        let exit := exiting (layer m) keys in
        let merged := enter ++ updating (layer m) keys in
        Some (mkManager (Some merged)
                (unregisterAll exit (pathElements m))
                true
                (interrupt merged (markLeaving exit (appendAll enter (layer m))))
                (addClass "updating-paths" (classes m))
                (started m ++ map (Anim "exit") exit
                   ++ map (Anim "enter") enter ++ map (Anim "path") merged))
  end.

(** The rest of [update(data)] once the awaited transitions have been
    handed over: the path states if a node is selected, then the
    [finally]. *)
Definition update_resume (selected : bool) (m : Manager) : Manager :=
  let m1 :=
    if selected then
      match updatePathStates_begin m with
      | Some m' => updatePathStates_resume m'
      | None => m
      end
    else m in
  mkManager (links m1) (pathElements m1) false (layer m1)
    (removeClass "updating-paths" (classes m1)) (started m1).

(** [update(data)] run without interruption: its result ([true], or
    [undefined] from the guard) and the manager afterwards. *)
Definition update (data : option Tree) (selected : bool) (m : Manager)
  : JS.Value * Manager :=
  match update_begin data m with
  | None => (JS.VUndefined, m)
  | Some m' => (JS.VBool true, update_resume selected m')
  end.

(** [destroy()] *)
Definition destroy (m : Manager) : Manager :=
  mkManager None ∅ false
    (match links m with
     | Some ks => removeAll ks (layer m)
     | None => layer m
     end)
    (classes m) (started m).

(** The drawing surface is removed as a whole (by the visualization
    manager): the manager keeps its selection and its map, but no element
    of its kind is on the surface any more. *)
Definition detach (m : Manager) : Manager :=
  mkManager (links m) (pathElements m) (isUpdating m)
    (mkLayer [] (fresh (layer m))) (classes m) (started m).

(** A manager whose surface and map hold the links of the example tree. *)
Definition exampleManager : Manager :=
  mkManager (Some (linkKeys exampleTree))
    (registerAll (linkKeys exampleTree) 0 ∅) false
    (appendAll (linkKeys exampleTree) (mkLayer [] 0)) [] [].

End PathManager.

(** ** NodeManager: selection predicates on nodes *)

Module NodeManager.
Import Hierarchy.

(** [isActiveNode(node, selectedNode)] *)
Definition isActiveNode (h : Heap) (node : nat) (selectedNode : option nat) : bool :=
  match selectedNode with
  | None => Nat.eqb (depth (h node)) 0
  | Some s =>
      Nat.eqb node s
      || (bool_decide (is_Some (parent (h s))) && same node (parent (h s)))
      || (Nat.eqb (depth (h node)) 0 && true)
  end.

(** [isSiblingNode(node, selectedNode)] *)
Definition isSiblingNode (h : Heap) (node : nat) (selectedNode : option nat) : bool :=
  match selectedNode with
  | None => false
  | Some s =>
      if Nat.eqb (depth (h node)) 0 then false
      else same_opt (parent (h node)) (parent (h s)) && negb (Nat.eqb node s)
  end.

(** *** The reconciler *)

Import Scene.

(** The manager: [nodes] (the bound selection, or [null]), the
    [nodeElements] map, the [isUpdating] flag, the [g.node] elements of the
    surface, the classes the manager put on the container and the
    transitions it started. *)
Record Manager : Type := mkManager {
  nodes : option (list string);
  nodeElements : gmap string nat;
  isUpdating : bool;
  layer : Layer;
  classes : list string;
  started : list Animation
}.

(** The keys of [data.descendants().filter(d => d.depth < 2)]. *)
Definition nodeKeys (tree : Tree) : list string :=
  map id (List.filter (fun d => Nat.ltb (Scene.depth d) 2) tree).

(** [update(data)] up to its [await]; [None] when the guard returns at
    once. *)
Definition update_begin (data : option Tree) (m : Manager) : option Manager :=
  match data with
  | None => None
  | Some tree =>
      if isUpdating m then None
      else
        let keys := nodeKeys tree in
        let enter := entering (layer m) keys in
        let exit := exiting (layer m) keys in
        let merged := enter ++ updating (layer m) keys in
        Some (mkManager (Some merged)
                (unregisterAll exit
                   (registerAll enter (fresh (layer m)) (nodeElements m)))
                true
                (interrupt merged (markLeaving exit (appendAll enter (layer m))))
                (addClass "updating-nodes" (classes m))
                (started m ++ map (Anim "exit") exit
                   ++ map (Anim "position") merged))
  end.

(** The rest of [update(data)]: the node states if a node is selected,
    then the [finally]. *)
Definition update_resume (selected : bool) (m : Manager) : Manager :=
  mkManager (nodes m) (nodeElements m) false (layer m)
    (removeClass "updating-nodes" (classes m))
    (if selected
     then started m ++ map (Anim "state") (default [] (nodes m))
     else started m).

(** [update(data)] run without interruption. *)
Definition update (data : option Tree) (selected : bool) (m : Manager)
  : JS.Value * Manager :=
  match update_begin data m with
  | None => (JS.VUndefined, m)
  | Some m' => (JS.VBool true, update_resume selected m')
  end.

(** [destroy()]: the elements are removed and [nodes] is dropped; the
    [nodeElements] map and the flag are left as they are. *)
Definition destroy (m : Manager) : Manager :=
  mkManager None (nodeElements m) (isUpdating m)
    (match nodes m with
     | Some ks => removeAll ks (layer m)
     | None => layer m
     end)
    (classes m) (started m).

(** The drawing surface is removed as a whole (by the visualization
    manager): the manager keeps its selection and its map, but no element
    of its kind is on the surface any more. *)
Definition detach (m : Manager) : Manager :=
  mkManager (nodes m) (nodeElements m) (isUpdating m)
    (mkLayer [] (fresh (layer m))) (classes m) (started m).

(** A manager whose surface and map hold the nodes of the example tree. *)
Definition exampleManager : Manager :=
  mkManager (Some (nodeKeys Scene.exampleTree))
    (registerAll (nodeKeys Scene.exampleTree) 0 ∅) false
    (appendAll (nodeKeys Scene.exampleTree) (mkLayer [] 0)) [] [].

End NodeManager.


(** ** OuterElementManager: label layout *)

Module OuterElementManager.

(** A JavaScript string is a sequence of UTF-16 code units: [s.length]
    counts them, and [split] and [join] cut and paste at them.  A character
    outside the Basic Multilingual Plane takes two code units. *)
Definition CodeUnit : Type := N.

Definition JSString : Type := list CodeUnit.

(** The string written as an ASCII literal: one code unit for each of its
    characters. *)
Definition ofAscii (s : string) : JSString :=
  map N_of_ascii (list_ascii_of_string s).

(** The code unit of the space character. *)
Definition space : CodeUnit := 32%N.

(** [s.split(sep)] for a one-character separator: the pieces between the
    separators, empty pieces included; the empty string gives one empty
    piece. *)
Fixpoint split (sep : CodeUnit) (s : JSString) : list JSString :=
  match s with
  | [] => [[]]
  | c :: r =>
      if N.eqb c sep then [] :: split sep r
      else
        match split sep r with
        | [] => [[c]]
        | w :: ws => (c :: w) :: ws
        end
  end.

(** [l.join(sep)] *)
Fixpoint join (sep : JSString) (l : list JSString) : JSString :=
  match l with
  | [] => []
  | w :: ws =>
      match ws with
      | [] => w
      | _ :: _ => w ++ sep ++ join sep ws
      end
  end.

(** Index normalisation of [Array.prototype.slice]: a negative index counts
    from the end, and the result is clamped to [0, len]. *)
Definition relIndex (len i : Z) : Z :=
  if i <? 0 then Z.max (len + i) 0 else Z.min i len.

(** [l.slice(s, e)] *)
Definition slice {A : Type} (l : list A) (s e : Z) : list A :=
  let len := Z.of_nat (length l) in
  let k := relIndex len s in
  let final := relIndex len e in
  take (Z.to_nat (final - k)) (drop (Z.to_nat k) l).

(** [l.slice(s)] *)
Definition sliceFrom {A : Type} (l : list A) (s : Z) : list A :=
  slice l s (Z.of_nat (length l)).

(** [a > b] on numbers *)
Definition Qgtb (a b : Q) : bool := negb (Qle_bool a b).

(** The configuration entries the label layout reads:
    [text.thresholds.longText], [text.spacing.base],
    [text.sizes.large.secondary] and [indicator.outer.radius]. *)
Record LabelConfig : Type := mkLabelConfig {
  longText : Q;
  spacingBase : Q;
  largeSecondary : Q;
  indicatorOuterRadius : Q
}.

(** An outer node as the layout reads it: [data.name], the angle [x] and
    the radius [y]. *)
Record OuterNode : Type := mkOuterNode {
  name : JSString;
  angle : Q;
  radius : Q
}.

(** The [layout] object: [{type: 'single', text, width, height}] or
    [{type: 'double', firstLine, secondLine, width, height}]. *)
Inductive Layout : Type :=
| Single (text : JSString) (width height : Q)
| Double (firstLine secondLine : JSString) (width height : Q).

Section LabelLayout.

(** [calculateTextPosition(angle, radius, layout)], which works with
    trigonometric functions; only its result [{x, y}] is carried along. *)
Variable calculateTextPosition : Q -> Q -> Layout -> Q * Q.

Variable config : LabelConfig.

(** [calculateLabelLayout(node)]: the layout and the position merged into
    it. *)
Definition calculateLabelLayout (node : OuterNode) : Layout * (Q * Q) :=
  let text := name node in
  let words := split space text in
  let totalLength := Z.of_nat (length text) in
  let wordCount := Z.of_nat (length words) in
  let layout :=
    if (1 <? wordCount)
       && (Qgtb (inject_Z totalLength) (longText config) || (2 <? wordCount))
    then
      let midpoint := Qceiling (inject_Z wordCount / 2) in
      let firstHalf := join [space] (slice words 0 midpoint) in
      let secondHalf := join [space] (sliceFrom words midpoint) in
      let midpoint :=
        if Qgtb (inject_Z (Z.of_nat (length firstHalf)))
                (inject_Z (Z.of_nat (length secondHalf)) * (3 # 2))
        then midpoint - 1 else midpoint in
      Double (join [space] (slice words 0 midpoint))
             (join [space] (sliceFrom words midpoint))
             (spacingBase config)
             (largeSecondary config * (5 # 2))
    else
      Single text (spacingBase config) (largeSecondary config * (3 # 2)) in
  let position :=
    calculateTextPosition (angle node)
      (radius node + indicatorOuterRadius config) layout in
  (layout, position).

End LabelLayout.

(** Sample configuration and a placeholder for the position computation,
    for the worked examples. *)
Definition exampleLabelConfig : LabelConfig := mkLabelConfig 15 80 14 5.

Definition examplePosition (a r : Q) (l : Layout) : Q * Q := (a, r).

(** *** The reconciler *)

Import Scene.

(** The manager: the two bound selections, the two element maps, the
    [isUpdating] flag, the indicator and label elements of the surface,
    the classes put on the container and the transitions started. *)
Record Manager : Type := mkManager {
  indicators : option (list string);
  labels : option (list string);
  indicatorElements : gmap string nat;
  labelElements : gmap string nat;
  isUpdating : bool;
  indicatorLayer : Layer;
  labelLayer : Layer;
  classes : list string;
  started : list Animation
}.

(** The keys of [data.descendants().filter(d => d.depth === 2)]. *)
Definition outerKeys (tree : Tree) : list string :=
  map id (List.filter (fun d => Nat.eqb (Scene.depth d) 2) tree).

(** Where an [update] in flight is suspended: at the [await] of
    [updateIndicators], at the [await] of [updateLabels], or at the
    [await] of [updateForSelection]. *)
Inductive Task : Type :=
| AwaitIndicators (keys : list string)
| AwaitLabels
| AwaitSelection.

(** [updateIndicators(nodes)] *)
Definition updateIndicators (keys : list string) (m : Manager) : Manager :=
  let enter := entering (indicatorLayer m) keys in
  let exit := exiting (indicatorLayer m) keys in
  let merged := enter ++ updating (indicatorLayer m) keys in
  mkManager (Some merged) (labels m)
    (unregisterAll exit
       (registerAll enter (fresh (indicatorLayer m)) (indicatorElements m)))
    (labelElements m) (isUpdating m)
    (markLeaving exit (appendAll enter (indicatorLayer m)))
    (labelLayer m) (classes m)
    (started m ++ map (Anim "exit") exit).

(** [updateLabels(nodes)] *)
Definition updateLabels (keys : list string) (m : Manager) : Manager :=
  let enter := entering (labelLayer m) keys in
  let exit := exiting (labelLayer m) keys in
  let merged := enter ++ updating (labelLayer m) keys in
  mkManager (indicators m) (Some merged) (indicatorElements m)
    (unregisterAll exit
       (registerAll enter (fresh (labelLayer m)) (labelElements m)))
    (isUpdating m) (indicatorLayer m)
    (interrupt merged (markLeaving exit (appendAll enter (labelLayer m))))
    (classes m)
    (started m ++ map (Anim "exit") exit ++ map (Anim "label") merged).

(** [updateForSelection(selectedNode)] up to its [await]; [None] when the
    guard returns at once. *)
Definition updateForSelection_begin (m : Manager) : option Manager :=
  if isUpdating m then None
  else
    Some (mkManager (indicators m) (labels m) (indicatorElements m)
            (labelElements m) true (indicatorLayer m) (labelLayer m)
            (classes m)
            (started m ++ map (Anim "indicator-state") (default [] (indicators m))
               ++ map (Anim "label-state") (default [] (labels m)))).

(** The rest of [updateForSelection]: its [finally]. *)
Definition updateForSelection_resume (m : Manager) : Manager :=
  mkManager (indicators m) (labels m) (indicatorElements m) (labelElements m)
    false (indicatorLayer m) (labelLayer m) (classes m) (started m).

(** The [finally] of [update]. *)
Definition update_finally (m : Manager) : Manager :=
  mkManager (indicators m) (labels m) (indicatorElements m) (labelElements m)
    false (indicatorLayer m) (labelLayer m)
    (removeClass "updating-outer-elements" (classes m)) (started m).

(** [update(data)] up to its first [await]; [None] when the guard returns
    at once. *)
Definition update_begin (data : option Tree) (m : Manager)
  : option (Task * Manager) :=
  match data with
  | None => None
  | Some tree =>
      if isUpdating m then None
      else
        let m1 :=
          mkManager (indicators m) (labels m) (indicatorElements m)
            (labelElements m) true (indicatorLayer m) (labelLayer m)
            (addClass "updating-outer-elements" (classes m)) (started m) in
        Some (AwaitIndicators (outerKeys tree),
              updateIndicators (outerKeys tree) m1)
  end.

(** One more stretch of an [update] in flight, up to its next [await] or
    to its end ([None]). *)
Definition update_step (selected : bool) (t : Task) (m : Manager)
  : option Task * Manager :=
  match t with
  | AwaitIndicators keys => (Some AwaitLabels, updateLabels keys m)
  | AwaitLabels =>
      if selected then
        match updateForSelection_begin m with
        | Some m' => (Some AwaitSelection, m')
        | None => (Some AwaitSelection, m)
        end
      else (None, update_finally m)
  | AwaitSelection => (None, update_finally m)
  end.

(** [update(data)] run without interruption. *)
Definition update (data : option Tree) (selected : bool) (m : Manager)
  : JS.Value * Manager :=
  match update_begin data m with
  | None => (JS.VUndefined, m)
  | Some (t, m1) =>
      let (t2, m2) := update_step selected t m1 in
      let (t3, m3) :=
        match t2 with
        | Some t' => update_step selected t' m2
        | None => (None, m2)
        end in
      let m4 :=
        match t3 with
        | Some t' => (update_step selected t' m3).2
        | None => m3
        end in
      (JS.VBool true, m4)
  end.

(** [destroy()] *)
Definition destroy (m : Manager) : Manager :=
  mkManager None None ∅ ∅ false
    (match indicators m with
     | Some ks => removeAll ks (indicatorLayer m)
     | None => indicatorLayer m
     end)
    (match labels m with
     | Some ks => removeAll ks (labelLayer m)
     | None => labelLayer m
     end)
    (classes m) (started m).

(** The drawing surface is removed as a whole (by the visualization
    manager): the manager keeps its selections and its maps, but no element
    of its kinds is on the surface any more. *)
Definition detach (m : Manager) : Manager :=
  mkManager (indicators m) (labels m) (indicatorElements m) (labelElements m)
    (isUpdating m) (mkLayer [] (fresh (indicatorLayer m)))
    (mkLayer [] (fresh (labelLayer m))) (classes m) (started m).

(** A manager whose surface and maps hold the outer nodes of the example
    tree. *)
Definition exampleManager : Manager :=
  mkManager (Some (outerKeys Scene.exampleTree)) (Some (outerKeys Scene.exampleTree))
    (registerAll (outerKeys Scene.exampleTree) 0 ∅)
    (registerAll (outerKeys Scene.exampleTree) 0 ∅) false
    (appendAll (outerKeys Scene.exampleTree) (mkLayer [] 0))
    (appendAll (outerKeys Scene.exampleTree) (mkLayer [] 0)) [] [].

End OuterElementManager.

(** ** DisplayManager: responsive profile and dimensions *)

Module DisplayManager.

Local Open Scope Q_scope.

(** The keys of [config.profiles]; a profile object is identified by the key
    under which the configuration holds it. *)
Inductive ProfileName : Type := mobile | tablet | desktop.

#[global] Instance ProfileName_eq_dec : EqDecision ProfileName.
Proof. solve_decision. Defined.

Record TextSizes : Type := mkTextSizes {
  central : Q;
  primary : Q;
  secondary : Q
}.

Record Box : Type := mkBox {
  width : Q;
  height : Q
}.

Record NodeSizes : Type := mkNodeSizes {
  nodeCentral : Box;
  nodePrimary : Box;
  nodeSecondary : Box
}.

(** A profile: [textSizes.{central,primary,secondary}],
    [nodeSizes.central] and [nodeSizes.{primary,secondary}.{width,height}]. *)
Record Profile : Type := mkProfile {
  textSizes : TextSizes;
  profCentral : Q;
  profPrimary : Box;
  profSecondary : Box
}.

(** The configuration entries the display manager reads.  The module that
    holds the default configuration is not part of these sources, so the
    configuration is a parameter of every function. *)
Record Config : Type := mkConfig {
  small : Q;
  medium : Q;
  large : Q;
  minSize : Box;
  profiles : ProfileName -> Profile;
  textLarge : TextSizes;
  centralMinSize : Q;
  indicatorInner : Q;
  indicatorOuter : Q
}.

(** [window.innerWidth] and [window.innerHeight] *)
Record Window : Type := mkWindow {
  innerWidth : Q;
  innerHeight : Q
}.

Record Indicators : Type := mkIndicators {
  inner : Q;
  outer : Q
}.

Record Dimensions : Type := mkDimensions {
  dimWidth : Q;
  dimHeight : Q;
  dimRadius : Q;
  dimText : TextSizes;
  dimNodes : NodeSizes;
  dimIndicators : Indicators
}.

(** The fields of the manager that these methods touch. *)
Record Display : Type := mkDisplay {
  currentProfile : option ProfileName;
  lastDimensions : option Dimensions
}.

(** [a < b] on numbers *)
Definition Qltb (a b : Q) : bool := negb (Qle_bool b a).

Section Display.

Variable config : Config.
Variable window : Window.

(** [getActiveProfile()] *)
Definition getActiveProfile : ProfileName :=
  let width := innerWidth window in
  if Qltb width (small config) then mobile
  else if Qltb width (medium config) then tablet
  else desktop.

(** [calculateWidth(rect, profile)] *)
Definition calculateWidth (rect : Box) (profile : Profile) : Q :=
  let containerWidth := Qmax (width rect) (width (minSize config)) in
  let maxWidth := innerWidth window * (9 # 10) in
  Qmin containerWidth maxWidth.

(** [calculateHeight(rect, profile)] *)
Definition calculateHeight (rect : Box) (profile : Profile) : Q :=
  let containerHeight := Qmax (height rect) (height (minSize config)) in
  let maxHeight := innerHeight window * (7 # 10) in
  Qmin containerHeight maxHeight.

(** [calculateRadius(rect, profile)] *)
Definition calculateRadius (rect : Box) (profile : Profile) : Q :=
  let minDimension := Qmin (width rect) (height rect) in
  let baseRadius := minDimension * (35 # 100) in
  Qmax (centralMinSize config * (3 # 2))
       (Qmin baseRadius (width rect * (4 # 10))).

(** The local [calculateFluidSize(minSize, maxSize)] of
    [calculateTextSizes] *)
Definition calculateFluidSize (w minS maxS : Q) : Q :=
  let slope := (maxS - minS) / (large config - small config) in
  let size := minS + slope * (w - small config) in
  Qmin maxS (Qmax minS size).

(** [calculateTextSizes(rect, profile)] *)
Definition calculateTextSizes (rect : Box) (profile : Profile) : TextSizes :=
  let w := width rect in
  mkTextSizes
    (calculateFluidSize w (central (textSizes profile)) (central (textLarge config)))
    (calculateFluidSize w (primary (textSizes profile)) (primary (textLarge config)))
    (calculateFluidSize w (secondary (textSizes profile))
       (secondary (textLarge config))).

(** [calculateNodeSizes(rect, profile)] *)
Definition calculateNodeSizes (rect : Box) (profile : Profile) : NodeSizes :=
  let minDimension := Qmin (width rect) (height rect) in
  mkNodeSizes
    (mkBox (Qmax (profCentral profile) (minDimension * (15 # 100)))
           (Qmax (profCentral profile) (minDimension * (15 # 100))))
    (mkBox (Qmax (width (profPrimary profile)) (minDimension * (10 # 100)))
           (Qmax (height (profPrimary profile)) (minDimension * (8 # 100))))
    (mkBox (Qmax (width (profSecondary profile)) (minDimension * (8 # 100)))
           (Qmax (height (profSecondary profile)) (minDimension * (6 # 100)))).

(** [calculateIndicatorSizes(rect, profile)] *)
Definition calculateIndicatorSizes (rect : Box) (profile : Profile) : Indicators :=
  let minDimension := Qmin (width rect) (height rect) in
  mkIndicators
    (Qmax (indicatorInner config) (minDimension * (1 # 100)))
    (Qmax (indicatorOuter config) (minDimension * (15 # 1000))).

(** [calculateDimensions()], with [rect] the bounding box of the
    container; the result is also stored in [lastDimensions]. *)
Definition calculateDimensions (rect : Box) (d : Display) : Dimensions * Display :=
  let profile := profiles config getActiveProfile in
  let dimensions :=
    mkDimensions
      (calculateWidth rect profile)
      (calculateHeight rect profile)
      (calculateRadius rect profile)
      (calculateTextSizes rect profile)
      (calculateNodeSizes rect profile)
      (calculateIndicatorSizes rect profile) in
  (dimensions, mkDisplay (currentProfile d) (Some dimensions)).

End Display.

(** [destroy()], as far as these fields go. *)
Definition destroy (d : Display) : Display := mkDisplay None None.

(** A configuration with the breakpoints of the design document's example
    scenario, [{small: 480, medium: 1024}]; the other entries are sample
    values. *)
Definition exampleConfig : Config :=
  mkConfig 480 1024 1440 (mkBox 300 300)
    (fun p =>
       match p with
       | mobile => mkProfile (mkTextSizes 12 10 8) 60 (mkBox 50 30) (mkBox 40 24)
       | tablet => mkProfile (mkTextSizes 14 12 10) 90 (mkBox 70 40) (mkBox 56 32)
       | desktop => mkProfile (mkTextSizes 16 14 12) 140 (mkBox 90 50) (mkBox 72 40)
       end)
    (mkTextSizes 24 18 14) 50 3 5.

End DisplayManager.

(** ** StateManager: the state store *)

Module StateManager.
Import JS.

(** The data passed to [emit]. *)
Inductive Payload : Type :=
| PNone
| PChange (oldValue newValue : Value) (timestamp : Z)
| PError (error : Value).

(** Calls that leave the store: to the content cache, to the
    visualization, to the host's error handler, and to the three change
    handlers that [handleStateChange] invokes on [this]. *)
Inductive ExtCall : Type :=
| CPreload (id : Value)
| CUpdateSelection (newNode oldNode : Value)
| CHostError (error : Value)
| CHandleDataChange (data : Value)
| CHandleTransitionChange (isTransitioning : Value)
| CHandleErrorChange (error : Value).

(** What the store calls but does not define.  [preload] is the content
    cache's method and [updateSelection] the visualization's; the class
    under [src/] that should hold [updateSelection] has no such method, and
    the StateManager class has no [handleDataChange],
    [handleTransitionChange] or [handleErrorChange] method.  Each is a
    parameter: [None] means the call returns (or its promise resolves),
    [Some e] that it throws (or rejects with) [e].  None of them touches the
    store.  [nodeId a] is the [id] property of the object at address [a]. *)
Class Collaborators : Type := mkCollaborators {
  nodeId : nat -> Value;
  preload : Value -> option Value;
  updateSelection : Value -> Value -> option Value;
  handleDataChange : Value -> option Value;
  handleTransitionChange : Value -> option Value;
  handleErrorChange : Value -> option Value
}.

(** The error of calling a method that the receiver does not have. *)
Definition notAFunction : Value := VTypeError "is not a function".

(** The error of reading or writing a property of [null]. *)
Definition nullAccess : Value := VTypeError "Cannot read properties of null".

(** The sources as they stand: the methods missing from their classes throw
    when called; preloading succeeds and nodes carry their address as id. *)
Definition asWritten : Collaborators :=
  mkCollaborators (fun a => VNum (Z.of_nat a)) (fun _ => None)
    (fun _ _ => Some notAFunction) (fun _ => Some notAFunction)
    (fun _ => Some notAFunction) (fun _ => Some notAFunction).

(** The sources completed with the missing methods as ones that return
    without doing anything. *)
Definition completed : Collaborators :=
  mkCollaborators (fun a => VNum (Z.of_nat a)) (fun _ => None)
    (fun _ _ => None) (fun _ => None) (fun _ => None) (fun _ => None).

(** The [Set] that the constructor stores under [contentLoaded] is the
    object at address 0; it is the only [Set] of the model. *)
Definition contentLoadedRef : Value := VRef 0.

(** The manager.  [this.state] is a reference (or [null] after [destroy])
    into a heap of state objects, because [handleStateChange] keeps
    using the object it was given after [this.state] has been replaced.
    [loaded] holds the elements of the [contentLoaded] set in insertion
    order.  [timers] are the pending [setTimeout] callbacks (all of them run
    [finalizeTransition]) with the time at which they are due.  [emitted]
    and [calls] record what the manager did to the outside. *)
Record Store : Type := mkStore {
  heap : gmap nat (gmap string Value);
  nextObj : nat;
  state : option nat;
  loaded : list Value;
  listeners : gmap string (list nat);
  transitionTimeout : option nat;
  timers : list (nat * Z);
  nextTimer : nat;
  clock : Z;
  emitted : list (string * Payload);
  calls : list ExtCall
}.

Definition set_heap (h : gmap nat (gmap string Value)) (w : Store) : Store :=
  mkStore h (nextObj w) (state w) (loaded w) (listeners w) (transitionTimeout w)
    (timers w) (nextTimer w) (clock w) (emitted w) (calls w).

Definition set_state (n : nat) (s : option nat) (w : Store) : Store :=
  mkStore (heap w) n s (loaded w) (listeners w) (transitionTimeout w)
    (timers w) (nextTimer w) (clock w) (emitted w) (calls w).

Definition set_loaded (l : list Value) (w : Store) : Store :=
  mkStore (heap w) (nextObj w) (state w) l (listeners w) (transitionTimeout w)
    (timers w) (nextTimer w) (clock w) (emitted w) (calls w).

Definition set_listeners (l : gmap string (list nat)) (w : Store) : Store :=
  mkStore (heap w) (nextObj w) (state w) (loaded w) l (transitionTimeout w)
    (timers w) (nextTimer w) (clock w) (emitted w) (calls w).

Definition set_timeout (t : option nat) (w : Store) : Store :=
  mkStore (heap w) (nextObj w) (state w) (loaded w) (listeners w) t
    (timers w) (nextTimer w) (clock w) (emitted w) (calls w).

Definition set_timers (n : nat) (t : list (nat * Z)) (w : Store) : Store :=
  mkStore (heap w) (nextObj w) (state w) (loaded w) (listeners w)
    (transitionTimeout w) t n (clock w) (emitted w) (calls w).

Definition set_clock (t : Z) (w : Store) : Store :=
  mkStore (heap w) (nextObj w) (state w) (loaded w) (listeners w)
    (transitionTimeout w) (timers w) (nextTimer w) t (emitted w) (calls w).

Definition set_emitted (e : list (string * Payload)) (w : Store) : Store :=
  mkStore (heap w) (nextObj w) (state w) (loaded w) (listeners w)
    (transitionTimeout w) (timers w) (nextTimer w) (clock w) e (calls w).

Definition set_calls (c : list ExtCall) (w : Store) : Store :=
  mkStore (heap w) (nextObj w) (state w) (loaded w) (listeners w)
    (transitionTimeout w) (timers w) (nextTimer w) (clock w) (emitted w) c.

(** The object at an address, and the object [this.state] refers to. *)
Definition objAt (w : Store) (a : nat) : gmap string Value :=
  default ∅ (heap w !! a).

Definition current (w : Store) : gmap string Value :=
  match state w with
  | Some a => objAt w a
  | None => ∅
  end.

(** *** Computations on the store *)

(** How a method ends: it returns, it throws, or the recursion budget of
    the model ran out. *)
Inductive Result (A : Type) : Type :=
| Ret (a : A)
| Throw (e : Value)
| OutOfFuel.

Arguments Ret {A} a.
Arguments Throw {A} e.
Arguments OutOfFuel {A}.

Definition M (A : Type) : Type := Store -> Result A * Store.

Definition ret {A : Type} (a : A) : M A := fun w => (Ret a, w).

Definition throw {A : Type} (e : Value) : M A := fun w => (Throw e, w).

Definition bind {A B : Type} (m : M A) (k : A -> M B) : M B := fun w =>
  match m w with
  | (Ret a, w') => k a w'
  | (Throw e, w') => (Throw e, w')
  | (OutOfFuel, w') => (OutOfFuel, w')
  end.

Declare Scope js_scope.
Delimit Scope js_scope with js.

Notation "x <- m ;; k" := (bind m (fun x => k))
  (at level 100, m at next level, right associativity) : js_scope.
Notation "m ;;; k" := (bind m (fun _ => k))
  (at level 100, right associativity) : js_scope.

Local Open Scope js_scope.

(** [try { m } catch (error) { h error }] *)
Definition tryCatch {A : Type} (m : M A) (h : Value -> M A) : M A := fun w =>
  match m w with
  | (Throw e, w') => h e w'
  | r => r
  end.

(** [try { m } finally { f }]: [f] runs however [m] ends; what [f] throws
    replaces the outcome of [m]. *)
Definition tryFinally {A : Type} (m : M A) (f : M unit) : M A := fun w =>
  match m w with
  | (OutOfFuel, w') => (OutOfFuel, w')
  | (r, w') =>
      match f w' with
      | (Ret _, w'') => (r, w'')
      | (Throw e, w'') => (Throw e, w'')
      | (OutOfFuel, w'') => (OutOfFuel, w'')
      end
  end.

(** [xs.forEach(f)] *)
Fixpoint forEach {A : Type} (f : A -> M unit) (xs : list A) : M unit :=
  match xs with
  | [] => ret tt
  | x :: xs' => f x ;;; forEach f xs'
  end.

Definition when (b : bool) (m : M unit) : M unit := if b then m else ret tt.

(** [this.state], as the receiver of a property access. *)
Definition thisState : M nat := fun w =>
  match state w with
  | Some a => (Ret a, w)
  | None => (Throw nullAccess, w)
  end.

(** [o.k] and [o.k = v] for a state object [o] held by reference. *)
Definition readAt (a : nat) (k : string) : M Value := fun w =>
  (Ret (get (objAt w a) k), w).

Definition writeAt (a : nat) (k : string) (v : Value) : M unit := fun w =>
  (Ret tt, set_heap (<[a := <[k := v]> (objAt w a)]> (heap w)) w).

(** [this.state.k] and [this.state.k = v] *)
Definition read (k : string) : M Value := a <- thisState ;; readAt a k.

Definition write (k : string) (v : Value) : M unit :=
  a <- thisState ;; writeAt a k v.

(** [Date.now()] *)
Definition now : M Z := fun w => (Ret (clock w), w).

(** [emit(event, data)]: the callbacks registered for the event are
    outside code; the model records the call. *)
Definition emit (event : string) (data : Payload) : M unit := fun w =>
  (Ret tt, set_emitted (emitted w ++ [(event, data)]) w).

(** A call that leaves the store, with its outcome. *)
Definition call (c : ExtCall) (outcome : option Value) : M unit := fun w =>
  let w' := set_calls (calls w ++ [c]) w in
  match outcome with
  | None => (Ret tt, w')
  | Some e => (Throw e, w')
  end.

(** [setTimeout(() => this.finalizeTransition(), delay)] *)
Definition setTimeout (delay : Z) : M nat := fun w =>
  (Ret (nextTimer w),
   set_timers (S (nextTimer w)) (timers w ++ [(nextTimer w, clock w + delay)]) w).

(** [clearTimeout(id)] *)
Definition clearTimeout (id : nat) : M unit := fun w =>
  (Ret tt,
   set_timers (nextTimer w)
     (List.filter (fun t => negb (Nat.eqb t.1 id)) (timers w)) w).

(** The numeric value of [v] in a subtraction; [None] is [NaN]. *)
Definition toNumber (v : Value) : option Z :=
  match v with
  | VNum z => Some z
  | VNull => Some 0
  | VBool b => Some (if b then 1 else 0)
  | _ => None
  end.

(** *** The methods of the class *)

(** The constructor, at time [t0]. *)
Definition initialState (t0 : Z) : gmap string Value :=
  assign ∅
    [("isInitialized", VBool false); ("isDestroying", VBool false);
     ("isTransitioning", VBool false); ("isUpdating", VBool false);
     ("isError", VBool false); ("error", VNull); ("data", VNull);
     ("selectedNode", VNull); ("previousNode", VNull); ("zoomLevel", VNum 1);
     ("dimensions", VNull); ("contentLoaded", contentLoadedRef);
     ("lastUpdate", VNum t0)]%string.

Definition constructor (t0 : Z) : Store :=
  mkStore {[ 0%nat := initialState t0 ]} 1 (Some 0%nat) [] ∅ None [] 1 t0 [] [].

(** [if (this.transitionTimeout) clearTimeout(this.transitionTimeout)];
    timer ids are positive, so a stored id is truthy. *)
Definition clearTransitionTimeout : M unit := fun w =>
  match transitionTimeout w with
  | Some id => clearTimeout id w
  | None => (Ret tt, w)
  end.

(** [this.transitionTimeout = t] *)
Definition setTransitionTimeout (t : option nat) : M unit := fun w =>
  (Ret tt, set_timeout t w).

(** [startTransition()] *)
Definition startTransition : M unit :=
  clearTransitionTimeout ;;;
  write "isTransitioning" (VBool true) ;;;
  emit "transition:start" PNone.

(** [finalizeTransition()] *)
Definition finalizeTransition : M unit :=
  write "isTransitioning" (VBool false) ;;;
  setTransitionTimeout None ;;;
  emit "transition:end" PNone.

(** [endTransition()] *)
Definition endTransition : M unit :=
  let minTransitionTime := 100 in
  t <- now ;;
  lastUpdate <- read "lastUpdate" ;;
  match toNumber lastUpdate with
  | Some l =>
      let elapsedTime := t - l in
      if elapsedTime <? minTransitionTime then
        id <- setTimeout (minTransitionTime - elapsedTime) ;;
        setTransitionTimeout (Some id)
      else finalizeTransition
  | None => finalizeTransition
  end.

(** [handleTransitionError(error)] *)
Definition handleTransitionError {A : Type} (error : Value) : M A :=
  write "isTransitioning" (VBool false) ;;;
  write "error" error ;;;
  write "isError" (VBool true) ;;;
  emit "transition:error" (PError error) ;;;
  throw error.

(** [v.id] *)
Definition idOf `{Collaborators} (v : Value) : Value :=
  match v with
  | VRef a => nodeId a
  | _ => VUndefined
  end.

(** [has] and [add] of the [Set] at address 0. *)
Definition loadedHas (id : Value) : M bool := fun w =>
  (Ret (bool_decide (id ∈ loaded w)), w).

Definition loadedAdd (id : Value) : M unit := fun w =>
  (Ret tt,
   if bool_decide (id ∈ loaded w) then w else set_loaded (loaded w ++ [id]) w).

(** [this.state.contentLoaded.has(id)]: a [TypeError] unless the property
    still holds the [Set]. *)
Definition contentLoadedHas (id : Value) : M bool :=
  c <- read "contentLoaded" ;;
  if bool_decide (c = contentLoadedRef) then loadedHas id
  else throw (if truthy c then notAFunction else nullAccess).

(** [this.state.contentLoaded.add(id)] *)
Definition contentLoadedAdd (id : Value) : M unit :=
  c <- read "contentLoaded" ;;
  if bool_decide (c = contentLoadedRef) then loadedAdd id
  else throw (if truthy c then notAFunction else nullAccess).

Section Methods.
Context `{Collaborators}.

(** [handleSelectionChange(newNode, oldNode)], with [updateState] the
    method it calls back. *)
Definition handleSelectionChange
    (updateState : list (string * Value) -> M Value)
    (newNode oldNode : Value) : M unit :=
  updateState [("isTransitioning", VBool true)]%string ;;;
  tryFinally
    (tryCatch
       (when (truthy newNode)
          (has <- contentLoadedHas (idOf newNode) ;;
           when (negb has)
             (call (CPreload (idOf newNode)) (preload (idOf newNode)) ;;;
              contentLoadedAdd (idOf newNode))) ;;;
        call (CUpdateSelection newNode oldNode) (updateSelection newNode oldNode))
       (fun error => call (CHostError error) None))
    (updateState [("isTransitioning", VBool false)]%string ;;; ret tt).

(** The second part of [handleStateChange(oldState, newState)]: the data,
    transition-flag and error-flag changes. *)
Definition handleOtherChanges
    (oldState : gmap string Value) (newState : nat) : M unit :=
  data <- readAt newState "data" ;;
  when (strict_ne data (get oldState "data"))
    (call (CHandleDataChange data) (handleDataChange data)) ;;;
  tr <- readAt newState "isTransitioning" ;;
  when (strict_ne tr (get oldState "isTransitioning"))
    (call (CHandleTransitionChange tr) (handleTransitionChange tr)) ;;;
  isErr <- readAt newState "isError" ;;
  when (strict_ne isErr (get oldState "isError"))
    (err <- readAt newState "error" ;;
     call (CHandleErrorChange err) (handleErrorChange err)).

(** [handleStateChange(oldState, newState)]: [oldState] is the snapshot,
    which nothing else refers to; [newState] is the reference that was in
    [this.state] when the call was made. *)
Definition handleStateChange
    (updateState : list (string * Value) -> M Value)
    (oldState : gmap string Value) (newState : nat) : M unit :=
  sel <- readAt newState "selectedNode" ;;
  when (strict_ne sel (get oldState "selectedNode"))
    (when (truthy (get oldState "selectedNode"))
       (writeAt newState "previousNode" (get oldState "selectedNode")) ;;;
     sel' <- readAt newState "selectedNode" ;;
     handleSelectionChange updateState sel' (get oldState "selectedNode")) ;;;
  handleOtherChanges oldState newState.

(** [oldState = {...this.state}] *)
Definition snapshot : M (gmap string Value) := fun w => (Ret (current w), w).

(** [this.state = {...this.state, ...newState}] *)
Definition replaceState (newState : list (string * Value)) : M unit := fun w =>
  (Ret tt,
   set_state (S (nextObj w)) (Some (nextObj w))
     (set_heap (<[nextObj w := assign (current w) newState]> (heap w)) w)).

(** The loop that emits the change events of [updateState]. *)
Definition emitChanges (newState : list (string * Value))
    (oldState : gmap string Value) : M unit :=
  forEach
    (fun key =>
       when (strict_ne (prop newState key) (get oldState key))
         (t <- now ;;
          emit (key +:+ "Change")
            (PChange (get oldState key) (prop newState key) t)))
    (keys newState).

(** The [try] block of [updateState], with [handleStateChange] the method
    it awaits. *)
Definition updateStateTry
    (handleStateChange : gmap string Value -> nat -> M unit)
    (newState : list (string * Value)) : M Value :=
  startTransition ;;;
  oldState <- snapshot ;;
  replaceState newState ;;;
  this_state <- thisState ;;
  handleStateChange oldState this_state ;;;
  emitChanges newState oldState ;;;
  t <- now ;;
  write "lastUpdate" (VNum t) ;;;
  endTransition ;;;
  ret (VBool true).

(** The body of [updateState(newState)]. *)
Definition updateStateBody
    (handleStateChange : gmap string Value -> nat -> M unit)
    (newState : list (string * Value)) : M Value :=
  isDestroying <- read "isDestroying" ;;
  if truthy isDestroying then ret (VBool false)
  else
    tryCatch (updateStateTry handleStateChange newState)
      (fun error => handleTransitionError error).

(** [updateState(newState)].  The method calls itself through
    [handleStateChange] and [handleSelectionChange]; [fuel] bounds the
    depth of these calls. *)
Fixpoint updateState (fuel : nat) (newState : list (string * Value)) : M Value :=
  match fuel with
  | O => fun w => (OutOfFuel, w)
  | S fuel' => updateStateBody (handleStateChange (updateState fuel')) newState
  end.

(** [startUpdate()] and [endUpdate()] *)
Definition startUpdate (fuel : nat) : M Value :=
  updateState fuel [("isUpdating", VBool true)]%string.

Definition endUpdate (fuel : nat) : M Value :=
  updateState fuel [("isUpdating", VBool false)]%string.

End Methods.

(** [on(event, callback)], [off(event, callback)]; a callback is named by
    a number. *)
Definition on (event : string) (callback : nat) : M unit := fun w =>
  let cbs := default [] (listeners w !! event) in
  (Ret tt,
   set_listeners
     (<[event := if bool_decide (callback ∈ cbs) then cbs else cbs ++ [callback]]>
        (listeners w)) w).

Definition off (event : string) (callback : nat) : M unit := fun w =>
  match listeners w !! event with
  | Some cbs =>
      (Ret tt,
       set_listeners
         (<[event := List.filter (fun c => negb (Nat.eqb c callback)) cbs]>
            (listeners w)) w)
  | None => (Ret tt, w)
  end.

(** [destroy()] *)
Definition destroy : M unit := fun w =>
  (Ret tt, set_state (nextObj w) None (set_listeners ∅ w)).

(** The getters. *)
Definition getSelectedNode : M Value := read "selectedNode".
Definition getPreviousNode : M Value := read "previousNode".
Definition getData : M Value := read "data".

(** *** Passing time *)

(** The callback of a timer: [finalizeTransition]; an error it raises ends
    the callback and goes nowhere. *)
Definition fire (w : Store) : Store := snd (finalizeTransition w).

(** [d] milliseconds pass with no call into the manager: the timers that
    become due run, oldest first. *)
Definition advance (d : Z) (w : Store) : Store :=
  let t := clock w + d in
  let due := List.filter (fun x => x.2 <=? t) (timers w) in
  let rest := List.filter (fun x => negb (x.2 <=? t)) (timers w) in
  set_clock t
    (foldl (fun acc _ => fire acc) (set_timers (nextTimer w) rest w) due).

(** The change events that a call owes to its argument: one for each key
    of [newState] whose value differs from the snapshot's. *)
Definition changeEvents (newState : list (string * Value))
    (oldState : gmap string Value) (t : Z) : list (string * Payload) :=
  flat_map
    (fun key =>
       if strict_ne (prop newState key) (get oldState key)
       then [(key +:+ "Change", PChange (get oldState key) (prop newState key) t)]
       else [])
    (keys newState).

(** The ids for which a preload was requested, in order. *)
Definition preloads (cs : list ExtCall) : list Value :=
  flat_map (fun c => match c with CPreload id => [id] | _ => [] end) cs.

(** A freshly constructed manager, and the same manager after node 1 has
    been selected (with the missing methods supplied). *)
Definition exampleStore : Store := constructor 1000.

Definition storeWithSelection : Store :=
  (@updateState completed 2 [("selectedNode"%string, VRef 1)] exampleStore).2.

End StateManager.

(** ** CircularNavManager: tearing the instance down *)

Module CircularNavManager.
Import JS.

(** What [destroy] calls but these sources do not define:
    [removeAllListeners] is called on the state manager, whose class has no
    such method; [clear] belongs to the cache manager and the two
    [destroy] methods to the settings panel and the controls, which are
    not part of these sources.  [None]: the call returns; [Some e]: it
    throws [e]. *)
Class Absent : Type := mkAbsent {
  removeAllListeners : option Value;
  cacheClear : option Value;
  settingsDestroy : option Value;
  controlsDestroy : option Value
}.

(** The sources as they stand: the missing method throws when called. *)
Definition asWritten : Absent :=
  mkAbsent (Some StateManager.notAFunction) None None None.

(** The sources completed with a [removeAllListeners] that returns. *)
Definition completed : Absent := mkAbsent None None None None.

(** The controller: its references to the managers ([null] once dropped),
    the three reconcilers, the pending operations, the classes of the
    container and the events dispatched on it. *)
Record Controller : Type := mkController {
  state : option StateManager.Store;
  display : option DisplayManager.Display;
  cache : bool;
  viz : bool;
  settings : bool;
  controls : bool;
  config : bool;
  pendingOperations : option nat;
  nodes : NodeManager.Manager;
  paths : PathManager.Manager;
  outer : OuterElementManager.Manager;
  containerClasses : list string;
  dispatched : list string
}.

Definition with_state (s : option StateManager.Store) (c : Controller) : Controller :=
  mkController s (display c) (cache c) (viz c) (settings c) (controls c)
    (config c) (pendingOperations c) (nodes c) (paths c) (outer c)
    (containerClasses c) (dispatched c).

Definition with_classes (cs : list string) (c : Controller) : Controller :=
  mkController (state c) (display c) (cache c) (viz c) (settings c) (controls c)
    (config c) (pendingOperations c) (nodes c) (paths c) (outer c)
    cs (dispatched c).

Definition with_display (d : option DisplayManager.Display) (c : Controller)
  : Controller :=
  mkController (state c) d (cache c) (viz c) (settings c) (controls c)
    (config c) (pendingOperations c) (nodes c) (paths c) (outer c)
    (containerClasses c) (dispatched c).

(** [this.viz.destroy()]: the visualization manager removes the drawing
    surface; it calls none of the reconcilers. *)
Definition vizDestroy (c : Controller) : Controller :=
  mkController (state c) (display c) (cache c) (viz c) (settings c) (controls c)
    (config c) (pendingOperations c)
    (NodeManager.detach (nodes c)) (PathManager.detach (paths c))
    (OuterElementManager.detach (outer c))
    (containerClasses c) (dispatched c).

(** The end of [destroy]: the classes are removed, the references are
    dropped and [destroyed] is dispatched.  The three reconcilers are not
    touched. *)
Definition clearReferences (c : Controller) : Controller :=
  mkController None None false false false false false None
    (nodes c) (paths c) (outer c)
    (foldr Scene.removeClass (containerClasses c)
       ["is-loading"; "is-initializing"; "has-error"; "has-fatal-error";
        "is-destroying"]%string)
    (dispatched c ++ ["destroyed"%string]).

Section Destroy.
Context `{StateManager.Collaborators} `{Absent}.

(** A call on a reference that may be [null]. *)
Definition callOn (present : bool) (outcome : option Value) : option Value :=
  if present then outcome else Some StateManager.nullAccess.

(** [destroy()].  Every step is inside the [try]; the [catch] logs the
    error and throws it again. *)
Definition destroy (c : Controller)
  : StateManager.Result unit * Controller :=
  match state c with
  | None => (StateManager.Throw StateManager.nullAccess, c)
  | Some s =>
      match StateManager.updateState 2 [("isDestroying"%string, VBool true)] s with
      | (StateManager.Throw e, s1) => (StateManager.Throw e, with_state (Some s1) c)
      | (StateManager.OutOfFuel, s1) =>
          (StateManager.OutOfFuel, with_state (Some s1) c)
      | (StateManager.Ret _, s1) =>
          let c1 :=
            with_classes (Scene.addClass "is-destroying" (containerClasses c))
              (with_state (Some s1) c) in
          match removeAllListeners with
          | Some e => (StateManager.Throw e, c1)
          | None =>
              let c2 := with_state (Some (StateManager.destroy s1).2) c1 in
              match callOn (cache c2) cacheClear with
              | Some e => (StateManager.Throw e, c2)
              | None =>
                  match display c2 with
                  | None => (StateManager.Throw StateManager.nullAccess, c2)
                  | Some d =>
                      let c3 := with_display (Some (DisplayManager.destroy d)) c2 in
                      match callOn (viz c3) None with
                      | Some e => (StateManager.Throw e, c3)
                      | None =>
                          let c4 := vizDestroy c3 in
                          match callOn (settings c4) settingsDestroy with
                          | Some e => (StateManager.Throw e, c4)
                          | None =>
                              match callOn (controls c4) controlsDestroy with
                              | Some e => (StateManager.Throw e, c4)
                              | None => (StateManager.Ret tt, clearReferences c4)
                              end
                          end
                      end
                  end
              end
          end
      end
  end.

End Destroy.

(** An initialized instance showing the example tree. *)
Definition exampleController : Controller :=
  mkController (Some StateManager.exampleStore)
    (Some (DisplayManager.mkDisplay (Some DisplayManager.desktop) None))
    true true true true true (Some 0%nat)
    NodeManager.exampleManager PathManager.exampleManager
    OuterElementManager.exampleManager ["is-loading"%string] [].

End CircularNavManager.

(** ** Relations and predicates used to reason about the store *)

Module StoreLogic.
Import JS StateManager.

(** [m] relates the store it starts from to the store it leaves, however
    it ends. *)
Definition preserves {A : Type} (R : relation Store) (m : M A) : Prop :=
  ∀ w r w', m w = (r, w') → R w w'.

(** [m] never exhausts the recursion budget. *)
Definition terminates {A : Type} (m : M A) : Prop :=
  ∀ w, (m w).1 ≠ OutOfFuel.

(** [this.state] stays an object. *)
Definition alive : relation Store := fun w w' =>
  is_Some (state w) → is_Some (state w').

(** The clock stands still and the events emitted all satisfy [P]. *)
Definition logOnly (P : string * Payload -> Prop) : relation Store := fun w w' =>
  clock w' = clock w
  ∧ ∃ l, emitted w' = emitted w ++ l ∧ Forall P l.

(** The fields of the current state object outside [S] keep their value. *)
Definition keeps (S : list string) : relation Store := fun w w' =>
  is_Some (state w) →
  is_Some (state w') ∧ ∀ k, k ∉ S → get (current w') k = get (current w) k.

(** No preload is requested and the set of loaded ids stays as it is. *)
Definition quietCache : relation Store := fun w w' =>
  preloads (calls w') = preloads (calls w) ∧ loaded w' = loaded w.

(** Nothing changes but the records of emitted events and outside calls. *)
Definition frame : relation Store := fun w w' =>
  heap w' = heap w ∧ nextObj w' = nextObj w ∧ state w' = state w
  ∧ loaded w' = loaded w ∧ listeners w' = listeners w
  ∧ transitionTimeout w' = transitionTimeout w ∧ timers w' = timers w
  ∧ nextTimer w' = nextTimer w ∧ clock w' = clock w.

(** The names of the events that a nested [updateState({isTransitioning})]
    can emit. *)
Definition transitionEvent (ev : string * Payload) : Prop :=
  ev.1 ∈ ["transition:start"; "transition:end"; "transition:error";
          "isTransitioningChange"]%string.

(** The fields that a nested [updateState({isTransitioning})] and the
    selection handler can write. *)
Definition transitionFields : list string :=
  ["isTransitioning"; "previousNode"; "lastUpdate"; "error"; "isError"]%string.

End StoreLogic.
(* ===================================================================== *)
(** * Part I, continued: the rest of the sources                          *)
(* ===================================================================== *)

From Stdlib Require Qabs Reals.

(** ** Numbers: arithmetic on doubles *)

(** The numbers of the program are doubles.  A double that is a finite
    number is taken as the rational it denotes, and an arithmetic
    operation gives the exact result rounded to a double.  Which double
    that is, is left to the parameter [fl]: [fl q] is the double for the
    exact result [q], or [None] when the rounded result is not a finite
    number (overflow).  A division by zero gives an infinity or NaN, which
    is [None] as well.  A computation that meets [None] is not followed
    further: the functions below return [None] for it, whatever the
    program goes on to make of the infinity or NaN.  Comparisons,
    [Math.min] and [Math.max] are exact. *)

Module Doubles.

Local Open Scope Q_scope.

Class Rounding : Type := mkRounding {
  fl : Q -> option Q
}.

Section Operations.
Context `{Rounding}.

(** [a + b], [a - b], [a * b], [a / b] *)
Definition add (a b : Q) : option Q := fl (a + b).

Definition sub (a b : Q) : option Q := fl (a - b).

Definition mul (a b : Q) : option Q := fl (a * b).

Definition div (a b : Q) : option Q :=
  if Qeq_bool b 0 then None else fl (a / b).

(** A rational that is a double: rounding leaves it as it is. *)
Definition isDouble (q : Q) : Prop := exists a, fl q = Some a /\ a == q.

End Operations.

(** What the rounding of the doubles is known to do: it keeps the order,
    and zero is a double. *)
Class Monotone (R : Rounding) : Prop := mkMonotone {
  fl_mono : forall x y a b, x <= y -> fl x = Some a -> fl y = Some b -> a <= b;
  fl_zero : fl 0 = Some 0
}.

(** Arithmetic without rounding. *)
Definition exact : Rounding := mkRounding Some.

(** A coarse rounding for the worked examples: to the nearest multiple of
    [1/k], halves upwards, with no overflow. *)
Definition nearest (k : positive) : Rounding :=
  mkRounding (fun q => Some (Qred (Qfloor (q * inject_Z (Zpos k) + (1 # 2)) # k))).

End Doubles.

(** ** DisplayManager: text sizes in the arithmetic of doubles *)

Module Typography.
Import DisplayManager Doubles.

Local Open Scope Q_scope.

Section Typography.
Context `{Rounding}.

Variable config : Config.

(** The local [calculateFluidSize(minSize, maxSize)] of
    [calculateTextSizes], for a container [width] wide. *)
Definition calculateFluidSize (width minSize maxSize : Q) : option Q :=
  rise ← sub maxSize minSize;
  run ← sub (large config) (small config);
  slope ← div rise run;
  over ← sub width (small config);
  grown ← mul slope over;
  size ← add minSize grown;
  Some (Qmin maxSize (Qmax minSize size)).

(** [calculateTextSizes(rect, profile)] *)
Definition calculateTextSizes (rect : Box) (profile : Profile) : option TextSizes :=
  let w := DisplayManager.width rect in
  c ← calculateFluidSize w (central (textSizes profile)) (central (textLarge config));
  p ← calculateFluidSize w (primary (textSizes profile)) (primary (textLarge config));
  s ← calculateFluidSize w (secondary (textSizes profile))
        (secondary (textLarge config));
  Some (mkTextSizes c p s).

End Typography.

End Typography.

(** ** PathManager: style calculations *)

Module PathStyles.
Import Hierarchy PathManager.

Local Open Scope Q_scope.

(** The configuration entries the style calculations read:
    [colors.path.{active,inactive,default}] and [node.linkWidth]. *)
Record PathConfig : Type := mkPathConfig {
  pathActive : string;
  pathInactive : string;
  pathDefault : string;
  linkWidth : Q
}.

(** [getInitialOpacity(link)] *)
Definition getInitialOpacity (h : Heap) (link : Link) : Q :=
  if Nat.eqb (depth (h (source link))) 0 then 1
  else if Nat.eqb (depth (h (source link))) 1
          && Nat.eqb (depth (h (target link))) 2 then 0
  else 1.

(** [getPathColor(link, selectedNode)] *)
Definition getPathColor (config : PathConfig) (h : Heap) (link : Link)
    (selectedNode : option nat) : string :=
  if isActivePath h (Some link) selectedNode then pathActive config
  else if isSiblingPath h (Some link) selectedNode then pathInactive config
  else pathDefault config.

(** [getPathWidth(link, selectedNode)] *)
Definition getPathWidth (config : PathConfig) (h : Heap) (link : Link)
    (selectedNode : option nat) : Q :=
  if isActivePath h (Some link) selectedNode
  then linkWidth config * (15 # 10)
  else linkWidth config.

(** [getPathOpacity(link, selectedNode)]; [selectedNode?.depth] is
    [undefined] when nothing is selected, so no comparison succeeds. *)
Definition getPathOpacity (h : Heap) (link : Link) (selectedNode : option nat) : Q :=
  if Nat.eqb (depth (h (source link))) 1 && Nat.eqb (depth (h (target link))) 2
  then
    match selectedNode with
    | None => 0
    | Some s =>
        if Nat.eqb (depth (h s)) 0 then 1
        else if Nat.eqb (depth (h s)) 1 then
          if Nat.eqb (source link) s then 1 else 0
        else if Nat.eqb (depth (h s)) 2 && bool_decide (is_Some (parent (h s))) then
          if same (source link) (parent (h s)) then 1 else 0
        else 0
    end
  else 1.

(** The [stroke-dasharray] that [updatePathStates] sets: ['5,5'] on a
    sibling path, [null] otherwise. *)
Definition strokeDasharray (h : Heap) (link : Link) (selectedNode : option nat)
  : option string :=
  if isSiblingPath h (Some link) selectedNode then Some "5,5"%string else None.

(** Every node lies one level below its parent. *)
Definition levelled (h : Heap) : Prop :=
  ∀ n p, parent (h n) = Some p → depth (h n) = S (depth (h p)).

End PathStyles.

(** ** NodeManager: style calculations *)

Module NodeStyles.
Import Hierarchy NodeManager.

(** The configuration entries the style calculations read:
    [colors.node.{central,active,default}] and
    [colors.text.{active,default}]. *)
Record NodeColors : Type := mkNodeColors {
  nodeCentral : string;
  nodeActive : string;
  nodeDefault : string;
  textActive : string;
  textDefault : string
}.

(** [getNodeColor(node, selectedNode)] *)
Definition getNodeColor (config : NodeColors) (h : Heap) (node : nat)
    (selectedNode : option nat) : string :=
  if Nat.eqb (depth (h node)) 0 then nodeCentral config
  else if isActiveNode h node selectedNode then nodeActive config
  else if isSiblingNode h node selectedNode then nodeDefault config
  else nodeDefault config.

(** [getNodeTextColor(node, selectedNode)] *)
Definition getNodeTextColor (config : NodeColors) (h : Heap) (node : nat)
    (selectedNode : option nat) : string :=
  if Nat.eqb (depth (h node)) 0 then textActive config
  else if isActiveNode h node selectedNode then textActive config
  else textDefault config.

(** [getNodeBorderColor(node, selectedNode)] *)
Definition getNodeBorderColor (config : NodeColors) (h : Heap) (node : nat)
    (selectedNode : option nat) : string :=
  if Nat.eqb (depth (h node)) 0 then "none"%string
  else if isActiveNode h node selectedNode then nodeActive config
  else if isSiblingNode h node selectedNode then nodeDefault config
  else nodeDefault config.

End NodeStyles.

(** ** OuterElementManager: indicator and label states, keyboard navigation *)

Module OuterStates.
Import Hierarchy.

Local Open Scope Q_scope.

(** [isActiveIndicator(node, selectedNode)] *)
Definition isActiveIndicator (h : Heap) (node : nat) (selectedNode : option nat)
  : bool :=
  match selectedNode with
  | None => false
  | Some s =>
      Nat.eqb node s || (Nat.eqb (depth (h s)) 1 && same s (parent (h node)))
  end.

(** [shouldPulse(node, selectedNode)]; with nothing selected the first
    comparison already fails. *)
Definition shouldPulse (h : Heap) (node : nat) (selectedNode : option nat) : bool :=
  match selectedNode with
  | None => false
  | Some s => Nat.eqb node s && Nat.eqb (depth (h s)) 2
  end.

(** [isActiveLabel(node, selectedNode)] *)
Definition isActiveLabel (h : Heap) (node : nat) (selectedNode : option nat) : bool :=
  isActiveIndicator h node selectedNode.

(** [isFadedLabel(node, selectedNode)] *)
Definition isFadedLabel (h : Heap) (node : nat) (selectedNode : option nat) : bool :=
  match selectedNode with
  | None => false
  | Some s =>
      if Nat.eqb (depth (h s)) 0 then false
      else if Nat.eqb (depth (h s)) 1 then negb (same s (parent (h node)))
      else negb (Nat.eqb node s)
           && negb (same_opt (parent (h node)) (parent (h s)))
  end.

(** [getIndicatorColor(node, selectedNode)], with
    [colors.indicator.{active,default}] *)
Definition getIndicatorColor (active default : string) (h : Heap) (node : nat)
    (selectedNode : option nat) : string :=
  if isActiveIndicator h node selectedNode then active else default.

(** [getLabelOpacity(node, selectedNode)] *)
Definition getLabelOpacity (h : Heap) (node : nat) (selectedNode : option nat) : Q :=
  if isFadedLabel h node selectedNode then 5 # 10 else 1.

End OuterStates.

(** ** OuterElementManager: keyboard navigation between indicators *)

Module OuterNavigation.
Import JS Scene OuterElementManager.

(** [event.key], as far as the handler tells keys apart. *)
Inductive Key : Type := ArrowRight | ArrowLeft | OtherKey.

(** How the handler ends: it returns, having called [preventDefault] or
    not and having focused an element or none; or it throws. *)
Inductive Outcome : Type :=
| Returned (prevented : bool) (focused : option nat)
| Thrown (e : Value).

(** [xs.indexOf(x)]: the first position of [x], or -1. *)
Fixpoint indexOf (x : string) (xs : list string) : Z :=
  match xs with
  | [] => -1
  | y :: ys =>
      if bool_decide (y = x) then 0
      else let i := indexOf x ys in if i <? 0 then -1 else i + 1
  end.

(** [a % n] on integers; [None] is [NaN]. *)
Definition remainder (a n : Z) : option Z :=
  if n =? 0 then None else Some (Z.rem a n).

(** [xs[i]] for a number [i]; [None] is [undefined]. *)
Definition at_index (xs : list string) (i : option Z) : option string :=
  match i with
  | Some z => if z <? 0 then None else xs !! Z.to_nat z
  | None => None
  end.

(** The error of reading a property of [undefined]. *)
Definition undefinedAccess : Value := VTypeError "Cannot read properties of undefined".

(** [handleKeyboardNavigation(event, node)]; a node is named by its id. *)
Definition handleKeyboardNavigation (key : Key) (node : string) (m : Manager)
  : Outcome :=
  match indicators m with
  | None => Thrown StateManager.nullAccess
  | Some nodes =>
      let currentIndex := indexOf node nodes in
      let len := Z.of_nat (length nodes) in
      let step (nextIndex : option Z) :=
        match at_index nodes nextIndex with
        | None => Thrown undefinedAccess
        | Some next => Returned true (indicatorElements m !! next)
        end in
      match key with
      | ArrowRight => step (remainder (currentIndex + 1) len)
      | ArrowLeft => step (remainder (currentIndex - 1 + len) len)
      | OtherKey => Returned false None
      end
  end.

End OuterNavigation.

(** ** CircularNavManager: reacting to a click on a node *)

Module NodeClick.
Import JS StateManager.

(** The methods of the StateManager class, in source order. *)
Definition methods : list string :=
  ["initialize"; "fetchInitialData"; "validateAndProcessData"; "handleFetchError";
   "updateState"; "startTransition"; "endTransition"; "finalizeTransition";
   "handleTransitionError"; "handleStateChange"; "handleSelectionChange";
   "on"; "off"; "emit"; "destroy"; "startUpdate"; "endUpdate";
   "getSelectedNode"; "getPreviousNode"; "getData"; "isTransitioning"]%string.

(** Whether [manager[name]] is truthy for a state manager [manager]: a
    method is a function; [parent], [listeners] and [pendingTransitions]
    are objects and [eventNamespace] is the non-empty namespace string;
    [state] and [transitionTimeout] are [null] or an object, respectively
    a positive timer id; any other name is [undefined].  The flags
    [isTransitioning], [isDestroying], ... are properties of
    [manager.state], not of the manager. *)
Definition memberTruthy (name : string) (w : Store) : bool :=
  if bool_decide (name ∈ methods) then true
  else if bool_decide
            (name ∈ ["parent"; "eventNamespace"; "listeners";
                     "pendingTransitions"]%string) then true
  else if bool_decide (name = "state"%string) then bool_decide (is_Some (state w))
  else if bool_decide (name = "transitionTimeout"%string)
       then bool_decide (is_Some (transitionTimeout w))
  else false.

Section Handler.
Context `{Collaborators}.

(** [handleNodeClick(event)] of the controller, with [node] the value of
    [event.detail.node].  The promise of [updateState] is not awaited:
    the handler returns whatever becomes of the update. *)
Definition handleNodeClick (node : Value) (c : CircularNavManager.Controller)
  : Result unit * CircularNavManager.Controller :=
  if negb (truthy node) then (Ret tt, c)
  else
    match CircularNavManager.state c with
    | None => (Throw nullAccess, c)
    | Some s =>
        if memberTruthy "isTransitioning" s then (Ret tt, c)
        else
          let s' :=
            (updateState 2
               [("selectedNode", node); ("isTransitioning", VBool true)]%string
               s).2 in
          (Ret tt, CircularNavManager.with_state (Some s') c)
    end.

End Handler.

End NodeClick.

(** ** OuterElementManager: presence of the elements *)

Module OuterValidation.
Import OuterElementManager.


(** [getElementsById(id)]: [{indicator, label}], each [undefined] when
    the id is not tracked. *)
Definition getElementsById (id : string) (m : Manager) : option nat * option nat :=
  (indicatorElements m !! id, labelElements m !! id).

End OuterValidation.

(** ** ZoomManager: the zoom scale of a node *)

Module ZoomManager.

Local Open Scope Q_scope.

(** [config.zoom.{min,max}] *)
Record ZoomConfig : Type := mkZoomConfig {
  zoomMin : Q;
  zoomMax : Q
}.

(** [calculateNodeZoomScale(node)], which reads [node.depth]. *)
Definition calculateNodeZoomScale (config : ZoomConfig) (depth : nat) : Q :=
  let baseScale := Qmax 1 (1 + inject_Z (Z.of_nat depth) * (5 # 10)) in
  Qmin (Qmax baseScale (zoomMin config)) (zoomMax config).

End ZoomManager.

(** ** DisplayManager: reacting to a resize *)

Module DisplayHandlers.
Import Qabs JS DisplayManager.

Local Open Scope Q_scope.

(** What the handlers send out: the [profile:change] event with its
    detail, the call [viz.update(null, dimensions)], and the call
    [parent.handleError(error)]. *)
Inductive Outgoing : Type :=
| ProfileChange (profile : ProfileName) (dimensions : option Dimensions)
| VizUpdate (dimensions : Dimensions)
| HostError (error : Value).

(** The manager with what its handlers touch: the fields of [Display],
    [isResizing] and [pixelRatio] (both [undefined] until first written),
    the class list of the container, and what was sent out. *)
Record Resizer : Type := mkResizer {
  display : Display;
  isResizing : option bool;
  pixelRatio : option Q;
  classes : list string;
  sent : list Outgoing
}.

(** The surroundings of a call: the window, the bounding box of the
    container, and whether [parent.state] and [parent.viz] still refer to
    their managers. *)
Record Host : Type := mkHost {
  window : Window;
  rect : Box;
  hasState : bool;
  hasViz : bool
}.

(** [hasSignificantChanges(newDims)].  Neither the dimension records nor
    the observer's [{width, height}] carry [devicePixelRatio] or
    [orientation], so the last two comparisons are between [undefined]
    and [undefined]. *)
Definition hasSignificantChanges (newWidth newHeight : Q) (d : Display) : bool :=
  match lastDimensions d with
  | None => true
  | Some last =>
      let threshold := 1 # 100 in
      OuterElementManager.Qgtb (Qabs (newWidth - dimWidth last))
        (dimWidth last * threshold)
      || OuterElementManager.Qgtb (Qabs (newHeight - dimHeight last))
           (dimHeight last * threshold)
      || strict_ne VUndefined VUndefined
      || strict_ne VUndefined VUndefined
  end.

(** [classList.toggle(c, force)] *)
Definition toggleClass (c : string) (force : bool) (cs : list string) : list string :=
  if force then Scene.addClass c cs else Scene.removeClass c cs.

(** [updateResponsiveClasses()]; [this.pixelRatio > 1] is false while
    [pixelRatio] is [undefined]. *)
Definition updateResponsiveClasses (config : Config) (host : Host) (r : Resizer)
  : Resizer :=
  let w := width (rect host) in
  let cleared :=
    Scene.removeClass "size-large"
      (Scene.removeClass "size-medium"
         (Scene.removeClass "size-small" (classes r))) in
  let sized :=
    if Qltb w (small config) then Scene.addClass "size-small" cleared
    else if Qltb w (medium config) then Scene.addClass "size-medium" cleared
    else Scene.addClass "size-large" cleared in
  let dpi :=
    match pixelRatio r with
    | Some p => OuterElementManager.Qgtb p 1
    | None => false
    end in
  mkResizer (display r) (isResizing r) (pixelRatio r)
    (toggleClass "high-dpi" dpi sized) (sent r).

(** [handleProfileChange(newProfile)] *)
Definition handleProfileChange (newProfile : ProfileName) (r : Resizer) : Resizer :=
  mkResizer (mkDisplay (Some newProfile) (lastDimensions (display r)))
    (isResizing r) (pixelRatio r) (classes r)
    (sent r ++ [ProfileChange newProfile (lastDimensions (display r))]).

(** The [try] block of [handleResize]: the manager it leaves and the
    error it throws, if any.  The only step that can throw is the call on
    [parent.viz]. *)
Definition handleResizeTry (config : Config) (host : Host) (r : Resizer)
  : option Value * Resizer :=
  let r1 :=
    mkResizer (display r) (Some true) (pixelRatio r)
      (Scene.addClass "is-resizing" (classes r)) (sent r) in
  let (newDimensions, d2) :=
    calculateDimensions config (window host) (rect host) (display r1) in
  let r2 := mkResizer d2 (isResizing r1) (pixelRatio r1) (classes r1) (sent r1) in
  let newProfile := getActiveProfile config (window host) in
  let profileChanged :=
    bool_decide (Some newProfile ≠ currentProfile (display r2)) in
  let r3 := if profileChanged then handleProfileChange newProfile r2 else r2 in
  if profileChanged
     || hasSignificantChanges (dimWidth newDimensions) (dimHeight newDimensions)
          (display r3)
  then
    if hasViz host then
      (None,
       updateResponsiveClasses config host
         (mkResizer (display r3) (isResizing r3) (pixelRatio r3) (classes r3)
            (sent r3 ++ [VizUpdate newDimensions])))
    else (Some StateManager.nullAccess, r3)
  else (None, updateResponsiveClasses config host r3).

(** [handleResize()].  [this.parent.state] is the state manager, an
    object of the StateManager class, which keeps its flags in its own
    [state] property and has no [isDestroying] property: the guard reads
    [undefined] and never returns.  When [parent.state] is [null] the
    guard itself throws, outside the [try]. *)
Definition handleResize (config : Config) (host : Host) (r : Resizer)
  : option Value * Resizer :=
  if negb (hasState host) then (Some StateManager.nullAccess, r)
  else if truthy VUndefined then (None, r)
  else
    let (error, r1) := handleResizeTry config host r in
    let r2 :=
      match error with
      | Some e =>
          mkResizer (display r1) (isResizing r1) (pixelRatio r1) (classes r1)
            (sent r1 ++ [HostError e])
      | None => r1
      end in
    (None,
     mkResizer (display r2) (Some false) (pixelRatio r2)
       (Scene.removeClass "is-resizing" (classes r2)) (sent r2)).

(** A window and a container for the worked examples. *)
Definition exampleHost : Host :=
  mkHost (mkWindow 1280 800) (mkBox 800 600) true true.

Definition exampleResizer : Resizer :=
  mkResizer (mkDisplay (Some desktop) None) None None [] [].

End DisplayHandlers.

(** ** Where nodes, link ends and indicators are placed *)

(** The layout gives every node an angle [x] and a radius [y]; the three
    managers turn them into coordinates with [Math.cos] and [Math.sin],
    which are modelled by the cosine and sine of the real numbers. *)

Module Placement.
Import Reals.

Local Open Scope R_scope.

(** A laid-out node as the position calculations read it. *)
Record Placed : Type := mkPlaced {
  x : R;
  y : R;
  depth : nat
}.

(** [calculateNodePosition(node)] of the node manager *)
Definition calculateNodePosition (node : Placed) : R * R :=
  if Nat.eqb (depth node) 0 then (0, 0)
  else
    let angle := x node - PI / 2 in
    let radius := y node in
    (radius * cos angle, radius * sin angle).

(** [calculateEndPoint(node)] of the path manager *)
Definition calculateEndPoint (node : Placed) : R * R :=
  let angle := x node - PI / 2 in
  let radius := y node in
  (radius * cos angle, radius * sin angle).

(** [calculateIndicatorPosition(node)] of the outer element manager: the
    two numbers of the [translate(x,y)] it returns. *)
Definition calculateIndicatorPosition (node : Placed) : R * R :=
  let angle := x node in
  let radius := y node in
  (radius * cos angle, radius * sin angle).

End Placement.

(** ** Performance utilities: debounce, throttle, rafThrottle *)

(** The three wrappers close over a local variable and hand callbacks to
    the host ([setTimeout], [requestAnimationFrame]).  Each model holds
    the closure's variable, the host's pending callbacks of that closure,
    and a record of the calls of the wrapped function [fn].  A history is
    a list of events: calls of the wrapper and stretches of time (or
    animation frames) in which the host runs the callbacks that are due.
    [fn] does not call the wrapper back. *)

Module Debounce.
Section Debounce.

Context {Args : Type}.

(** The [wait] argument; the host treats a negative delay as 0. *)
Variable wait : Z.

(** [timeout]: the closure's variable ([None] is [undefined]); [timers]:
    the pending [later] callbacks with their id, the time they are due and
    the arguments they captured; [invoked]: the arguments of the calls of
    [fn], oldest first. *)
Record State : Type := mkState {
  timeout : option nat;
  timers : list (nat * (Z * Args));
  nextTimer : nat;
  clock : Z;
  invoked : list Args
}.

(** [debounce(fn, wait)], called at time [t0]. *)
Definition debounce (t0 : Z) : State := mkState None [] 1 t0 [].

(** [clearTimeout(id)] on the pending callbacks. *)
Definition clearTimeout (id : option nat) (ts : list (nat * (Z * Args)))
  : list (nat * (Z * Args)) :=
  match id with
  | Some i => List.filter (fun t => negb (Nat.eqb t.1 i)) ts
  | None => ts
  end.

(** [executedFunction(...args)] *)
Definition executedFunction (args : Args) (s : State) : State :=
  mkState (Some (nextTimer s))
    (clearTimeout (timeout s) (timers s)
       ++ [(nextTimer s, (clock s + Z.max 0 wait, args))])
    (S (nextTimer s)) (clock s) (invoked s).

(** [later()], for the callback that captured [args]. *)
Definition later (args : Args) (s : State) : State :=
  mkState (timeout s) (clearTimeout (timeout s) (timers s)) (nextTimer s)
    (clock s) (invoked s ++ [args]).

(** The host runs the callbacks that are due, one after the other; a
    callback leaves the pending list when it starts.  All delays are the
    same, so the pending list is in the order in which they become due. *)
Fixpoint runTimers (n : nat) (s : State) : State :=
  match n with
  | O => s
  | S n' =>
      match List.find (fun t => t.2.1 <=? clock s) (timers s) with
      | None => s
      | Some t =>
          runTimers n'
            (later t.2.2
               (mkState (timeout s) (clearTimeout (Some t.1) (timers s))
                  (nextTimer s) (clock s) (invoked s)))
      end
  end.

(** [d] milliseconds pass. *)
Definition elapse (d : nat) (s : State) : State :=
  runTimers (length (timers s))
    (mkState (timeout s) (timers s) (nextTimer s) (clock s + Z.of_nat d)
       (invoked s)).

Inductive Event : Type :=
| Call (args : Args)
| Wait (d : nat).

Definition step (s : State) (e : Event) : State :=
  match e with
  | Call args => executedFunction args s
  | Wait d => elapse d s
  end.

Definition run (es : list Event) (s : State) : State := foldl step s es.

(** A burst: a call followed by further calls, each after a pause. *)
Definition burst (first : Args) (rest : list (nat * Args)) : list Event :=
  Call first :: flat_map (fun x => [Wait x.1; Call x.2]) rest.

End Debounce.
End Debounce.

Module Throttle.
Section Throttle.
Import JS.

Context {Args : Type}.

(** The wrapped function, as far as the wrapper can tell: [None] when the
    call returns, [Some e] when it throws [e]. *)
Variable fn : Args -> option Value.

Variable limit : Z.

(** [inThrottle]: the closure's variable ([undefined] at first, which
    [!inThrottle] treats like [false]); [timers]: the times at which the
    pending reset callbacks are due; [invoked]: the calls of [fn] with the
    time of each. *)
Record State : Type := mkState {
  inThrottle : bool;
  timers : list Z;
  clock : Z;
  invoked : list (Z * Args)
}.

(** [throttle(fn, limit)], called at time [t0]. *)
Definition throttle (t0 : Z) : State := mkState false [] t0 [].

(** [executedFunction(...args)]: what it throws, if anything, and the
    state it leaves.  When [fn] throws, the two statements after the call
    are not reached. *)
Definition executedFunction (args : Args) (s : State) : option Value * State :=
  if negb (inThrottle s) then
    match fn args with
    | Some e =>
        (Some e,
         mkState (inThrottle s) (timers s) (clock s)
           (invoked s ++ [(clock s, args)]))
    | None =>
        (None,
         mkState true (timers s ++ [clock s + Z.max 0 limit]) (clock s)
           (invoked s ++ [(clock s, args)]))
    end
  else (None, s).

(** [d] milliseconds pass: every reset callback that is due runs
    [inThrottle = false]. *)
Definition elapse (d : nat) (s : State) : State :=
  let now := clock s + Z.of_nat d in
  mkState
    (if existsb (fun due => due <=? now) (timers s) then false else inThrottle s)
    (List.filter (fun due => negb (due <=? now)) (timers s))
    now (invoked s).

Inductive Event : Type :=
| Call (args : Args)
| Wait (d : nat).

(** An exception of the wrapper is the caller's affair; the history goes
    on. *)
Definition step (s : State) (e : Event) : State :=
  match e with
  | Call args => (executedFunction args s).2
  | Wait d => elapse d s
  end.

Definition run (es : list Event) (s : State) : State := foldl step s es.

(** The calls made by a history that starts at time [t], each with its
    time. *)
Fixpoint calls (t : Z) (es : list Event) : list (Z * Args) :=
  match es with
  | [] => []
  | Call args :: es' => (t, args) :: calls t es'
  | Wait d :: es' => calls (t + Z.of_nat d) es'
  end.

(** Successive times are at least [gap] apart. *)
Fixpoint spaced (gap : Z) (ts : list Z) : Prop :=
  match ts with
  | t :: ((t' :: _) as rest) => t + gap ≤ t' ∧ spaced gap rest
  | _ => True
  end.

End Throttle.
End Throttle.

Module RafThrottle.
Section RafThrottle.
Import JS.

Context {Args : Type}.

Variable fn : Args -> option Value.

(** [rafId]: the closure's variable; [frames]: the pending animation-frame
    callbacks with the arguments they captured; [invoked]: the arguments
    of the calls of [fn], oldest first.  The host's request ids are
    positive, so a stored id is truthy. *)
Record State : Type := mkState {
  rafId : option nat;
  frames : list (nat * Args);
  nextFrame : nat;
  invoked : list Args
}.

(** [rafThrottle(fn)] *)
Definition rafThrottle : State := mkState None [] 1 [].

(** [executedFunction(...args)] *)
Definition executedFunction (args : Args) (s : State) : State :=
  match rafId s with
  | Some _ => s
  | None =>
      mkState (Some (nextFrame s)) (frames s ++ [(nextFrame s, args)])
        (S (nextFrame s)) (invoked s)
  end.

(** The callback handed to [requestAnimationFrame]: [rafId = null] is
    reached only if [fn] returns. *)
Definition callback (args : Args) (s : State) : State :=
  mkState
    (match fn args with
     | None => None
     | Some _ => rafId s
     end)
    (frames s) (nextFrame s) (invoked s ++ [args]).

(** An animation frame: the host runs the callbacks requested so far. *)
Definition frame (s : State) : State :=
  foldl (fun acc cb => callback cb.2 acc)
    (mkState (rafId s) [] (nextFrame s) (invoked s)) (frames s).

Inductive Event : Type :=
| Call (args : Args)
| Frame.

Definition step (s : State) (e : Event) : State :=
  match e with
  | Call args => executedFunction args s
  | Frame => frame s
  end.

Definition run (es : list Event) (s : State) : State := foldl step s es.

End RafThrottle.
End RafThrottle.

(** ** PerformanceMonitor: bounded histories and their summaries *)

Module PerformanceMonitor.

(** An entry of [metrics.fps]: [{timestamp, value}]. *)
Record FpsSample : Type := mkFpsSample {
  fpsTimestamp : Z;
  fpsValue : Z
}.

(** An entry of a list of [metrics.marks]: [{timestamp, duration}]. *)
Record Timing : Type := mkTiming {
  timestamp : Q;
  duration : Q
}.

(** An entry of a list of [metrics.events]: [{timestamp, duration, type}]. *)
Record EventTiming : Type := mkEventTiming {
  eventTimestamp : Q;
  eventDuration : Q;
  eventType : string
}.

(** A performance entry as the observer's callback reads it. *)
Record Entry : Type := mkEntry {
  entryType : string;
  name : string;
  startTime : Q;
  entryDuration : Q
}.

(** The monitor: [metrics.{fps,events,marks}], [isMonitoring],
    [frameCount], [lastFrameTime], the observer ([None] is [null]; the
    flag tells whether it is connected) and [rafId] ([None] is
    [undefined]).  [metrics.memory] is left out: it is filled from a
    browser-specific API and read by [getMemoryUsage] alone. *)
Record Monitor : Type := mkMonitor {
  fps : list FpsSample;
  events : gmap string (list EventTiming);
  marks : gmap string (list Timing);
  isMonitoring : bool;
  frameCount : Z;
  lastFrameTime : Z;
  observer : option bool;
  rafId : option nat;
  nextRaf : nat
}.

(** The constructor, at time [t0]. *)
Definition constructor (t0 : Z) : Monitor :=
  mkMonitor [] ∅ ∅ false 0 t0 None None 1.

(** [l.push(x); if (l.length > n) l.shift()] *)
Definition pushCapped {A : Type} (n : nat) (x : A) (l : list A) : list A :=
  let l' := l ++ [x] in
  if Nat.ltb n (length l') then tail l' else l'.

(** [Math.round(q)]: the nearest integer, halves rounded up. *)
Definition round (q : Q) : Z := Qfloor (q + (1 # 2)).

(** [recordMeasure(entry)] *)
Definition recordMeasure (entry : Entry) (m : Monitor) : Monitor :=
  let measurements := default [] (marks m !! name entry) in
  let measurements :=
    pushCapped 100 (mkTiming (startTime entry) (entryDuration entry)) measurements in
  mkMonitor (fps m) (events m) (<[name entry := measurements]> (marks m))
    (isMonitoring m) (frameCount m) (lastFrameTime m) (observer m) (rafId m)
    (nextRaf m).

(** [recordEvent(entry)] *)
Definition recordEvent (entry : Entry) (m : Monitor) : Monitor :=
  let evs := default [] (events m !! name entry) in
  let evs :=
    pushCapped 100
      (mkEventTiming (startTime entry) (entryDuration entry) (name entry)) evs in
  mkMonitor (fps m) (<[name entry := evs]> (events m)) (marks m)
    (isMonitoring m) (frameCount m) (lastFrameTime m) (observer m) (rafId m)
    (nextRaf m).

(** The callback that [setupObserver] gives to the observer, applied to
    the entries of one notification. *)
Definition observe (entries : list Entry) (m : Monitor) : Monitor :=
  foldl
    (fun acc entry =>
       if String.eqb (entryType entry) "measure" then recordMeasure entry acc
       else if String.eqb (entryType entry) "event" then recordEvent entry acc
       else acc)
    m entries.

(** One run of [measureFPS], the frame callback of [monitorFPS], at time
    [currentTime]. *)
Definition measureFPS (currentTime : Z) (m : Monitor) : Monitor :=
  if negb (isMonitoring m) then m
  else
    let frameCount := (frameCount m + 1)%Z in
    let elapsed := (currentTime - lastFrameTime m)%Z in
    let requested := Some (nextRaf m) in
    if (1000 <=? elapsed)%Z then
      let value := (inject_Z (frameCount * 1000) / inject_Z elapsed)%Q in
      mkMonitor (pushCapped 60 (mkFpsSample currentTime (round value)) (fps m))
        (events m) (marks m) (isMonitoring m) 0 currentTime (observer m)
        requested (S (nextRaf m))
    else
      mkMonitor (fps m) (events m) (marks m) (isMonitoring m) frameCount
        (lastFrameTime m) (observer m) requested (S (nextRaf m)).

(** [start()], at time [now]; [observers] tells whether the host provides
    [PerformanceObserver] (its [observe] call is taken to succeed).  The
    first run of [measureFPS] happens inside the call. *)
Definition start (observers : bool) (now : Z) (m : Monitor) : Monitor :=
  if isMonitoring m then m
  else
    let m1 :=
      measureFPS now
        (mkMonitor (fps m) (events m) (marks m) true (frameCount m)
           (lastFrameTime m) (observer m) (rafId m) (nextRaf m)) in
    if observers then
      mkMonitor (fps m1) (events m1) (marks m1) (isMonitoring m1) (frameCount m1)
        (lastFrameTime m1) (Some true) (rafId m1) (nextRaf m1)
    else m1.

(** [stop()]: the observer is disconnected and the requested frame is
    cancelled; both references stay. *)
Definition stop (m : Monitor) : Monitor :=
  mkMonitor (fps m) (events m) (marks m) false (frameCount m) (lastFrameTime m)
    (match observer m with Some _ => Some false | None => None end)
    (rafId m) (nextRaf m).

(** [cleanup()] *)
Definition cleanup (m : Monitor) : Monitor :=
  let m1 := stop m in
  mkMonitor [] ∅ ∅ (isMonitoring m1) (frameCount m1) (lastFrameTime m1)
    (observer m1) (rafId m1) (nextRaf m1).

(** [getAverageFPS()] *)
Definition getAverageFPS (m : Monitor) : Z :=
  if Nat.eqb (length (fps m)) 0 then 0%Z
  else
    let sum := foldl (fun acc curr => (acc + fpsValue curr)%Z) 0%Z (fps m) in
    round (inject_Z sum / inject_Z (Z.of_nat (length (fps m)))).

(** The summary of one event type.  The average is computed in the
    arithmetic of doubles; it is [None] when the sum or the quotient is not
    a finite number. *)
Record EventMetrics : Type := mkEventMetrics {
  count : nat;
  averageDuration : option Q;
  maxDuration : Q;
  minDuration : Q
}.

Section Summaries.
Context `{Doubles.Rounding}.

(** [durations.reduce((a, b) => a + b, 0)] *)
Definition total (durations : list Q) : option Q :=
  foldl (fun a b => a ← a; Doubles.add a b) (Some 0%Q) durations.

(** The body of the loop of [getEventMetrics], for a list that is not
    empty; for the empty list the source computes [0 / 0] and the maximum
    and minimum of nothing, which have no counterpart here ([None]). *)
Definition summarize (evs : list EventTiming) : option EventMetrics :=
  match map eventDuration evs with
  | [] => None
  | d :: ds =>
      Some (mkEventMetrics (length evs)
              (sum ← total (d :: ds);
               Doubles.div sum (inject_Z (Z.of_nat (length evs))))
              (foldl Qmax d ds)
              (foldl Qmin d ds))
  end.

(** [getEventMetrics()] *)
Definition getEventMetrics (m : Monitor) : gmap string (option EventMetrics) :=
  summarize <$> events m.

End Summaries.

(** The last [n] elements of a list. *)
Definition lastN {A : Type} (n : nat) (l : list A) : list A :=
  drop (length l - n) l.

(** The timings of the entries of type [ty] named [n], oldest first. *)
Definition timingsOf (ty n : string) (entries : list Entry) : list Entry :=
  List.filter
    (fun e => String.eqb (entryType e) ty && String.eqb (name e) n) entries.

End PerformanceMonitor.

(** ** CircularNavigation: the registry of instances *)

Module CircularNavigation.
Import JS.

(** What a registry call throws: the error of [createInstance] for an id
    that is taken, or whatever the manager's constructor or [destroy]
    threw. *)
Inductive Error : Type :=
| AlreadyExists (containerId : string)
| Raised (e : Value).

(** How a registry call ends; [Unfinished] is the model's recursion budget
    running out inside the manager. *)
Inductive Outcome (A : Type) : Type :=
| Returned (a : A)
| Failed (e : Error)
| Unfinished.

Arguments Returned {A} a.
Arguments Failed {A} e.
Arguments Unfinished {A}.

(** An entry of [instances]: [{instance, performanceMonitor, created}].
    The [performanceMonitor] field refers to the object that
    [performanceMonitors] holds under the same id and is never read, so
    it is not repeated here; the manager is held by the registry alone. *)
Record InstanceData : Type := mkInstanceData {
  instance : CircularNavManager.Controller;
  created : Z
}.

(** The two static maps, and the errors passed to [handleError]. *)
Record Registry : Type := mkRegistry {
  instances : gmap string InstanceData;
  performanceMonitors : gmap string PerformanceMonitor.Monitor;
  reported : list (string * Value)
}.

Definition empty : Registry := mkRegistry ∅ ∅ [].

(** The object [getMetrics()] returns, without its [memory] entry. *)
Record Metrics : Type := mkMetrics {
  metricsFps : Z;
  metricsEvents : gmap string (option PerformanceMonitor.EventMetrics);
  metricsMarks : gmap string (list PerformanceMonitor.Timing)
}.

(** [getMetrics()] of a monitor *)
Definition getMetrics `{Doubles.Rounding} (m : PerformanceMonitor.Monitor) : Metrics :=
  mkMetrics (PerformanceMonitor.getAverageFPS m)
    (PerformanceMonitor.getEventMetrics m) (PerformanceMonitor.marks m).

Section Registry.

Context {Config : Type}.
Context `{StateManager.Collaborators} `{CircularNavManager.Absent}.

(** [new CircularNavManager(containerId, postType, {...})]: the manager,
    or the error the constructor throws.  The constructor reads the
    document and builds managers whose classes are not all part of these
    sources, so it is a parameter. *)
Variable newCircularNavManager :
  string -> string -> Config -> CircularNavManager.Controller + Value.

(** Whether the host provides [PerformanceObserver]. *)
Variable observers : bool.

(** [createInstance(containerId, postType, config)], at time [now]. *)
Definition createInstance (containerId postType : string) (config : Config)
    (now : Z) (r : Registry)
  : Outcome CircularNavManager.Controller * Registry :=
  if bool_decide (is_Some (instances r !! containerId)) then
    (Failed (AlreadyExists containerId), r)
  else
    let performanceMonitor :=
      PerformanceMonitor.start observers now (PerformanceMonitor.constructor now) in
    let r1 :=
      mkRegistry (instances r)
        (<[containerId := performanceMonitor]> (performanceMonitors r))
        (reported r) in
    match newCircularNavManager containerId postType config with
    | inl manager =>
        (Returned manager,
         mkRegistry
           (<[containerId := mkInstanceData manager now]> (instances r1))
           (performanceMonitors r1) (reported r1))
    | inr error =>
        (Failed (Raised error),
         mkRegistry (instances r1)
           (delete containerId (performanceMonitors r1))
           (reported r1 ++ [(containerId, error)]))
    end.

(** [getInstance(containerId)]; [None] is [undefined]. *)
Definition getInstance (containerId : string) (r : Registry)
  : option CircularNavManager.Controller :=
  instance <$> instances r !! containerId.

(** [destroyInstance(id)], awaited.  The metrics read before the monitor
    is stopped are only logged. *)
Definition destroyInstance (id : string) (r : Registry) : Outcome bool * Registry :=
  match instances r !! id with
  | None => (Returned false, r)
  | Some instanceData =>
      let r1 :=
        match performanceMonitors r !! id with
        | Some _ =>
            mkRegistry (instances r) (delete id (performanceMonitors r)) (reported r)
        | None => r
        end in
      match CircularNavManager.destroy (instance instanceData) with
      | (StateManager.Ret _, _) =>
          (Returned true,
           mkRegistry (delete id (instances r1)) (performanceMonitors r1)
             (reported r1))
      | (StateManager.Throw e, manager) =>
          (Failed (Raised e),
           mkRegistry
             (<[id := mkInstanceData manager (created instanceData)]> (instances r1))
             (performanceMonitors r1) (reported r1))
      | (StateManager.OutOfFuel, manager) =>
          (Unfinished,
           mkRegistry
             (<[id := mkInstanceData manager (created instanceData)]> (instances r1))
             (performanceMonitors r1) (reported r1))
      end
  end.

(** [getInstanceMetrics(id)]; [None] is [null]. *)
Definition getInstanceMetrics `{Doubles.Rounding} (id : string) (r : Registry)
  : option Metrics :=
  getMetrics <$> performanceMonitors r !! id.

End Registry.

End CircularNavigation.

(** ** StateManager: listeners *)

Module Listeners.
Import JS StateManager.


(** A registration call: [on(event, callback)] or [off(event, callback)]. *)
Inductive Registration : Type :=
| On (event : string) (callback : nat)
| Off (event : string) (callback : nat).

Definition register (w : Store) (r : Registration) : Store :=
  match r with
  | On event callback => (on event callback w).2
  | Off event callback => (off event callback w).2
  end.


End Listeners.

(** ** StateManager: what can follow a call *)

Module Lifecycle.
Import JS StateManager Listeners.

(** The manager is being destroyed: its state object holds
    [isDestroying: true]. *)
Definition destroying (w : Store) : Prop :=
  is_Some (state w) ∧ get (current w) "isDestroying" = VBool true.

Section Lifecycle.
Context `{Collaborators}.

(** What happens to a manager that is not dropped: a call of
    [updateState] (also through [startUpdate] and [endUpdate]; [fuel] is
    the recursion budget of the call), time that passes with the due
    timers running, and a registration. *)
Inductive Later : Type :=
| Update (fuel : nat) (newState : list (string * Value))
| Elapse (d : Z)
| Register (r : Registration).

Definition later (w : Store) (l : Later) : Store :=
  match l with
  | Update fuel newState => (updateState fuel newState w).2
  | Elapse d => advance d w
  | Register r => register w r
  end.

End Lifecycle.

End Lifecycle.

(* ===================================================================== *)
(** * Part II: properties                                                 *)
(* ===================================================================== *)

(** ** Selection predicates on links and nodes *)

Section LinkPredicates.
Import Hierarchy PathManager NodeManager.

Lemma same_true (a : nat) (b : option nat) : same a b = true ↔ b = Some a.
Proof.
  destruct b as [b|]; simpl.
  - rewrite Nat.eqb_eq. split; [intros ->; reflexivity | intros [= ->]; reflexivity].
  - split; discriminate.
Qed.

Lemma same_opt_true (a b : option nat) : same_opt a b = true ↔ a = b.
Proof.
  destruct a as [a|], b as [b|]; simpl; try (split; (discriminate || reflexivity)).
  rewrite Nat.eqb_eq. split; [intros ->; reflexivity | intros [= ->]; reflexivity].
Qed.

Lemma pathEdges_0 (h : Heap) (n : nat) : pathEdges h 0 n = [].
Proof. reflexivity. Qed.

Lemma pathEdges_1 (h : Heap) (n : nat) :
  pathEdges h 1 n =
  match parent (h n) with Some p => [mkLink p n] | None => [] end.
Proof. simpl. destruct (parent (h n)); reflexivity. Qed.

Lemma pathEdges_2 (h : Heap) (n : nat) :
  pathEdges h 2 n =
  match parent (h n) with
  | Some p =>
      match parent (h p) with
      | Some g => [mkLink g p; mkLink p n]
      | None => [mkLink p n]
      end
  | None => []
  end.
Proof.
  change (pathEdges h 2 n) with
    (match parent (h n) with
     | None => []
     | Some p => pathEdges h 1 p ++ [mkLink p n]
     end).
  destruct (parent (h n)) as [p|]; [|reflexivity].
  rewrite pathEdges_1. destruct (parent (h p)); reflexivity.
Qed.

Lemma link_eta (l : Link) : l = mkLink (source l) (target l).
Proof. destruct l; reflexivity. Qed.

(** C6, as stated, fails.  With [D] selected in the example tree the edge
    [A -> C] is classified active although it is not on the path
    [R -> A -> D]; and the edge [B -> E] is classified sibling although its
    source [B] is the source of no edge of that path. *)
Lemma isActivePath_not_only_path :
  isActivePath exampleTree (Some (mkLink 1 3)) (Some 4%nat) = true
  ∧ ¬ onActivePath exampleTree (mkLink 1 3) (Some 4%nat)
  ∧ isSiblingPath exampleTree (Some (mkLink 2 5)) (Some 4%nat) = true
  ∧ ¬ besideActivePath exampleTree (mkLink 2 5) (Some 4%nat).
Proof.
  split; [reflexivity|]. split.
  - unfold onActivePath. simpl. intros H.
    apply list_elem_of_In in H. simpl in H.
    destruct H as [H|[H|[]]]; discriminate H.
  - split; [reflexivity|].
    intros (e & He & Hs & _). simpl in He.
    apply list_elem_of_In in He. simpl in He.
    destruct He as [<-|[<-|[]]]; discriminate Hs.
Qed.

(** C6 (amended).  For a tree of depth at most 2 and a link that is an edge
    of the tree: the link is active exactly when it lies on the path from
    the root to the selection, or the root is selected, or it leaves a
    selected depth-1 node, or it leaves the parent of a selected depth-2
    node; it is sibling exactly when it leaves the parent of the selection
    (at depth 1 or 2) toward another target, or the selection is at depth 2
    and the link leads to another depth-2 node from a source that is not
    the selection's grandparent.  Both predicates return false when the
    selection or the link is null. *)
Theorem link_classification (h : Heap) (l : Link) (s : option nat) :
  (∀ n, s = Some n → (depth (h n) ≤ 2)%nat) →
  parent (h (target l)) = Some (source l) →
  (isActivePath h (Some l) s = true ↔
     onActivePath h l s
     ∨ ∃ n, s = Some n
          ∧ (depth (h n) = 0%nat
             ∨ (depth (h n) = 1%nat ∧ source l = n)
             ∨ (depth (h n) = 2%nat ∧ parent (h n) = Some (source l))))
  ∧ (isSiblingPath h (Some l) s = true ↔
       ∃ n, s = Some n
          ∧ (((depth (h n) = 1%nat ∨ depth (h n) = 2%nat)
              ∧ parent (h n) = Some (source l) ∧ target l ≠ n)
             ∨ (depth (h n) = 2%nat
                ∧ (∃ g, grandparent h n = Some g ∧ source l ≠ g)
                ∧ depth (h (target l)) = 2%nat ∧ target l ≠ n)))
  ∧ isActivePath h (Some l) None = false
  ∧ isSiblingPath h (Some l) None = false
  ∧ isActivePath h None s = false
  ∧ isSiblingPath h None s = false.
Proof.
  intros Hdepth Hedge.
  split; [|split; [|repeat split; destruct s; reflexivity]].
  - (* active *)
    destruct s as [n|]; simpl.
    2:{ split; [discriminate|]. intros [H|(n & Hn & _)]; [|discriminate].
        unfold onActivePath in H. simpl in H. inversion H. }
    specialize (Hdepth n eq_refl).
    unfold onActivePath, activePath.
    destruct (depth (h n)) as [|[|[|d]]] eqn:Hd; [| | |lia]; simpl Nat.eqb; cbv iota.
    + split; [|reflexivity]. intros _. right. exists n. auto.
    + rewrite pathEdges_1.
      rewrite !orb_true_iff, !andb_true_iff, bool_decide_eq_true, same_true,
        !Nat.eqb_eq.
      split.
      * intros [[[_ Hp] Ht]|Hs].
        -- left. rewrite Hp. rewrite <- Ht. rewrite (link_eta l) at 1.
           apply list_elem_of_singleton. reflexivity.
        -- right. exists n. split; [reflexivity|]. right. left. auto.
      * intros [Hin|(n' & [= <-] & [Hc|[[_ Hs]|[Hc _]]])]; try congruence.
        -- destruct (parent (h n)) as [p|] eqn:Hp; [|inversion Hin].
           apply list_elem_of_singleton in Hin. subst l. simpl.
           left. split; [split|]; eauto.
        -- right. exact Hs.
    + rewrite pathEdges_2.
      rewrite !orb_true_iff, !andb_true_iff, !bool_decide_eq_true, !same_true,
        !Nat.eqb_eq.
      split.
      * intros [[Ht|[_ Hp]]|[[_ Hg] Hp]].
        -- left. subst n. rewrite Hedge.
           rewrite (link_eta l) at 1.
           destruct (parent (h (source l))); set_solver.
        -- right. exists n. split; [reflexivity|]. right. right. auto.
        -- left. unfold grandparent in Hg. rewrite Hp in Hg |- *. rewrite Hg.
           rewrite (link_eta l) at 1. set_solver.
      * intros [Hin|(n' & [= <-] & [Hc|[[Hc _]|[_ Hp]]])]; try congruence.
        -- unfold grandparent.
           destruct (parent (h n)) as [p|] eqn:Hp; [|inversion Hin].
           destruct (parent (h p)) as [g|] eqn:Hg.
           ++ apply list_elem_of_In in Hin. simpl in Hin.
              destruct Hin as [<-|[<-|[]]]; simpl.
              ** right. split; [split|]; eauto.
              ** left. left. reflexivity.
           ++ apply list_elem_of_singleton in Hin. subst l. simpl.
              left. left. reflexivity.
        -- left. right. split; [eauto|exact Hp].
  - (* sibling *)
    destruct s as [n|]; simpl.
    2:{ split; [discriminate|]. intros (n & Hn & _). discriminate. }
    specialize (Hdepth n eq_refl).
    destruct (depth (h n)) as [|[|[|d]]] eqn:Hd; [| | |lia]; simpl Nat.eqb; cbv iota.
    + split; [discriminate|].
      intros (n' & [= <-] & [[[Hc|Hc] _]|[Hc _]]); congruence.
    + rewrite !andb_true_iff, bool_decide_eq_true, same_true, negb_true_iff,
        Nat.eqb_neq.
      split.
      * intros [[_ Hp] Ht]. exists n. split; [reflexivity|]. left. auto.
      * intros (n' & [= <-] & [[_ [Hp Ht]]|[Hc _]]); [|congruence].
        split; [split|]; eauto.
    + rewrite !orb_true_iff, !andb_true_iff, !bool_decide_eq_true, !same_true,
        !negb_true_iff, !Nat.eqb_neq, Nat.eqb_eq.
      split.
      * intros [[[_ Hp] Ht]|[[[[g Hg] Hs] Hdt] Ht]];
          (exists n; split; [reflexivity|]).
        -- left. auto.
        -- right. repeat split; try assumption.
           exists g. split; [assumption|].
           intros Heq. apply not_true_iff_false in Hs. apply Hs.
           apply same_true. rewrite Hg, Heq. reflexivity.
      * intros (n' & [= <-] & [[_ [Hp Ht]]|(_ & (g & Hg & Hs) & Hdt & Ht)]).
        -- left. split; [split|]; eauto.
        -- right. repeat split; eauto.
           apply not_true_iff_false. rewrite same_true, Hg. congruence.
Qed.

(** The amended C6 on the example tree: edge [A -> D] with [D] selected. *)
Lemma link_classification_example :
  isActivePath exampleTree (Some (mkLink 1 4)) (Some 4%nat) = true ↔
  onActivePath exampleTree (mkLink 1 4) (Some 4%nat)
  ∨ ∃ n, Some 4%nat = Some n
       ∧ (depth (exampleTree n) = 0%nat
          ∨ (depth (exampleTree n) = 1%nat ∧ source (mkLink 1 4) = n)
          ∨ (depth (exampleTree n) = 2%nat
             ∧ parent (exampleTree n) = Some (source (mkLink 1 4)))).
Proof.
  refine (proj1 (link_classification exampleTree (mkLink 1 4) (Some 4%nat) _ _)).
  - intros n [= <-]. simpl. lia.
  - reflexivity.
Defined.

(** C10.  In a tree where the candidate node is not its own parent, a node
    is never classified both active and sibling, whatever the selection. *)
Theorem active_sibling_exclusive (h : Heap) (n : nat) (s : option nat) :
  parent (h n) ≠ Some n →
  isActiveNode h n s && isSiblingNode h n s = false.
Proof.
  intros Hself.
  destruct s as [s|]; simpl; [|apply andb_false_r].
  destruct (Nat.eqb (depth (h n)) 0) eqn:Hd; [apply andb_false_r|].
  rewrite andb_false_l, orb_false_r.
  apply not_true_iff_false.
  rewrite !andb_true_iff, orb_true_iff, andb_true_iff, same_opt_true,
    negb_true_iff, Nat.eqb_neq, Nat.eqb_eq, same_true.
  intros [[Heq|[_ Hp]] [Hpp Hne]]; [congruence|].
  apply Hself. rewrite Hpp. exact Hp.
Qed.

(** C10 on the example tree: candidate [A], selection [C]. *)
Lemma active_sibling_exclusive_example :
  isActiveNode exampleTree 1 (Some 3%nat)
    && isSiblingNode exampleTree 1 (Some 3%nat) = false.
Proof.
  apply (active_sibling_exclusive exampleTree 1 (Some 3%nat)).
  simpl. discriminate.
Defined.

End LinkPredicates.

(** ** Label layout of the outer ring *)

Section LabelLayoutProps.
Import OuterElementManager.

Lemma relIndex_nonneg (len i : Z) : 0 ≤ i → relIndex len i = Z.min i len.
Proof. intros H. unfold relIndex. destruct (Z.ltb_spec i 0); [lia|reflexivity]. Qed.

Lemma slice_0 {A : Type} (l : list A) (m : nat) :
  slice l 0 (Z.of_nat m) = take m l.
Proof.
  unfold slice. rewrite !relIndex_nonneg by lia.
  replace (Z.to_nat (Z.min 0 (Z.of_nat (length l)))) with 0%nat by lia.
  rewrite drop_0.
  destruct (Nat.le_gt_cases m (length l)) as [Hle|Hgt].
  - f_equal. lia.
  - replace (Z.to_nat _) with (length l) by lia.
    rewrite !take_ge by lia. reflexivity.
Qed.

Lemma sliceFrom_drop {A : Type} (l : list A) (m : nat) :
  sliceFrom l (Z.of_nat m) = drop m l.
Proof.
  unfold sliceFrom, slice. rewrite !relIndex_nonneg by lia.
  destruct (Nat.le_gt_cases m (length l)) as [Hle|Hgt].
  - replace (Z.to_nat (Z.min (Z.of_nat m) _)) with m by lia.
    apply take_ge. rewrite length_drop. lia.
  - replace (Z.to_nat (Z.min (Z.of_nat m) _)) with (length l) by lia.
    rewrite !drop_ge by lia. apply take_nil.
Qed.

Lemma Qgtb_lt (a b : Q) : Qgtb a b = true ↔ (b < a)%Q.
Proof.
  unfold Qgtb. rewrite negb_true_iff, <- not_true_iff_false, Qle_bool_iff.
  split; [apply Qnot_le_lt | apply Qlt_not_le].
Qed.

Lemma Qgtb_lengths (a b : nat) :
  Qgtb (inject_Z (Z.of_nat a)) (inject_Z (Z.of_nat b) * (3 # 2)) = true
  ↔ (3 * b < 2 * a)%nat.
Proof.
  rewrite Qgtb_lt. unfold Qlt. simpl. lia.
Qed.

Lemma Qceiling_half (n : nat) :
  Qceiling (inject_Z (Z.of_nat n) / 2) = Z.of_nat (Nat.div2 (S n)).
Proof.
  rewrite Nat.div2_div, Nat2Z.inj_div.
  unfold Qceiling, Qfloor, Qdiv, Qmult, Qinv, Qopp, inject_Z. simpl.
  change (Z.of_nat 2) with 2. rewrite Nat2Z.inj_succ.
  generalize (Z.of_nat n). intros z.
  rewrite Z.mul_1_r. change (Z.pos (1 * 2)) with 2.
  pose proof (Z.div_mod (- z) 2 ltac:(lia)) as H1.
  pose proof (Z.mod_pos_bound (- z) 2 ltac:(lia)) as H2.
  pose proof (Z.div_mod (Z.succ z) 2 ltac:(lia)) as H3.
  pose proof (Z.mod_pos_bound (Z.succ z) 2 ltac:(lia)) as H4.
  lia.
Qed.

Lemma div2_succ_bounds (n : nat) :
  (2 ≤ n)%nat → (1 ≤ Nat.div2 (S n) < n)%nat.
Proof.
  intros H. rewrite Nat.div2_div.
  pose proof (Nat.div_mod_eq (S n) 2) as H1.
  pose proof (Nat.mod_upper_bound (S n) 2 ltac:(lia)) as H2.
  lia.
Qed.

(** Joining the pieces of a split gives the string back. *)
Lemma split_nonempty (sep : CodeUnit) (s : JSString) : split sep s ≠ [].
Proof.
  destruct s as [|c r]; simpl; [discriminate|].
  destruct (N.eqb c sep); [discriminate|].
  destruct (split sep r); discriminate.
Qed.

Lemma concat_split (sep : CodeUnit) (s : JSString) :
  join [sep] (split sep s) = s.
Proof.
  induction s as [|c r IH]; [reflexivity|].
  pose proof (split_nonempty sep r) as Hr.
  simpl split. destruct (N.eqb_spec c sep) as [->|Hne].
  - destruct (split sep r) as [|w ws] eqn:E; [contradiction|].
    change (join [sep] ([] :: w :: ws)) with (sep :: join [sep] (w :: ws)).
    rewrite IH. reflexivity.
  - destruct (split sep r) as [|w ws] eqn:E; [contradiction|].
    destruct ws as [|w' ws'].
    + simpl in *. rewrite IH. reflexivity.
    + change (join [sep] ((c :: w) :: w' :: ws'))
        with (c :: (w ++ [sep] ++ join [sep] (w' :: ws'))).
      change (join [sep] (w :: w' :: ws'))
        with (w ++ [sep] ++ join [sep] (w' :: ws')) in IH.
      rewrite IH. reflexivity.
Qed.

(** C9.  With [n] the number of words of the label text: when [n > 1] and
    the text is longer than the long-text threshold or [n > 2], the layout
    is a double one whose lines are the first [m] words and the remaining
    words, where [m] is [ceil(n/2)], lowered by one when the first
    [ceil(n/2)] words joined are longer than 1.5 times the rest joined; the
    two word lists concatenate to the original words.  Otherwise the layout
    is a single line holding the text.  Lengths are counted in UTF-16 code
    units, as [text.length] counts them. *)
Theorem label_layout_split
    (pos : Q -> Q -> Layout -> Q * Q) (cfg : LabelConfig) (node : OuterNode) :
  let text := name node in
  let words := split space text in
  let n := length words in
  let mid := Nat.div2 (S n) in
  let firstHalf := join [space] (take mid words) in
  let secondHalf := join [space] (drop mid words) in
  let m :=
    if decide (3 * length secondHalf < 2 * length firstHalf)%nat
    then Nat.pred mid else mid in
  let long := (1 < n)%nat
              ∧ ((longText cfg < inject_Z (Z.of_nat (length text)))%Q
                 ∨ (2 < n)%nat) in
  (long →
     fst (calculateLabelLayout pos cfg node)
       = Double (join [space] (take m words))
                (join [space] (drop m words))
                (spacingBase cfg) (largeSecondary cfg * (5 # 2))%Q
     ∧ take m words ++ drop m words = words
     ∧ (m < n)%nat)
  ∧ (¬ long →
     fst (calculateLabelLayout pos cfg node)
       = Single text (spacingBase cfg) (largeSecondary cfg * (3 # 2))%Q).
Proof.
  intros text words n mid firstHalf secondHalf m long.
  assert (Hcond :
    (1 <? Z.of_nat n)
      && (Qgtb (inject_Z (Z.of_nat (length text))) (longText cfg)
          || (2 <? Z.of_nat n)) = true ↔ long).
  { unfold long.
    rewrite andb_true_iff, orb_true_iff, Qgtb_lt, !Z.ltb_lt.
    split; (intros [H1 [H2|H2]]; (split; [lia | (left; exact H2) || (right; lia)])). }
  unfold calculateLabelLayout. cbn zeta. fold text. fold words. fold n.
  split.
  - intros Hlong. apply Hcond in Hlong as Hb. simpl fst. rewrite Hb.
    assert (Hn : (2 ≤ n)%nat) by (destruct Hlong as [H1 _]; clear -H1; lia).
    pose proof (div2_succ_bounds n Hn) as Hmid. fold mid in Hmid.
    rewrite Qceiling_half. fold mid.
    rewrite slice_0, sliceFrom_drop. fold firstHalf. fold secondHalf.
    assert (Hm : (if Qgtb (inject_Z (Z.of_nat (length firstHalf)))
                       (inject_Z (Z.of_nat (length secondHalf)) * (3 # 2))
                  then Z.of_nat mid - 1 else Z.of_nat mid) = Z.of_nat m).
    { unfold m. destruct (decide _) as [Hd|Hd].
      - apply Qgtb_lengths in Hd. rewrite Hd. lia.
      - rewrite <- Qgtb_lengths in Hd. apply not_true_is_false in Hd.
        rewrite Hd. reflexivity. }
    rewrite Hm, slice_0, sliceFrom_drop.
    split; [reflexivity|]. split; [apply take_drop|].
    unfold m. destruct (decide _); lia.
  - intros Hshort. rewrite <- Hcond in Hshort.
    apply not_true_is_false in Hshort. simpl fst. rewrite Hshort. reflexivity.
Qed.

(** C9 on a three-word label: the median split "Getting started" / "guide"
    is unbalanced (15 characters against 5), so the split moves one word
    earlier. *)
Lemma label_layout_split_example :
  fst (calculateLabelLayout examplePosition exampleLabelConfig
         (mkOuterNode (ofAscii "Getting started guide") 0 0))
  = Double (ofAscii "Getting") (ofAscii "started guide") 80 (14 * (5 # 2))%Q.
Proof.
  pose proof (label_layout_split examplePosition exampleLabelConfig
                (mkOuterNode (ofAscii "Getting started guide") 0 0)) as H.
  cbv zeta in H. destruct H as [H _].
  destruct H as [H _].
  - split; [simpl; lia|]. right. simpl. lia.
  - exact H.
Defined.

(** A short two-word label stays on one line. *)
Lemma label_layout_single_example :
  fst (calculateLabelLayout examplePosition exampleLabelConfig
         (mkOuterNode (ofAscii "Hello world") 0 0))
  = Single (ofAscii "Hello world") 80 (14 * (3 # 2))%Q.
Proof. reflexivity. Qed.

(** So does a two-word label of 13 characters outside ASCII, whose bytes
    in UTF-8 would number 18, above the threshold of 15: the code units
    are U+00DC n U+00EF c U+00F6 d U+00E9, a space, and w U+00F6 r l d. *)
Lemma label_layout_code_units :
  let text := [220; 110; 239; 99; 246; 100; 233; 32; 119; 246; 114; 108; 100]%N in
  fst (calculateLabelLayout examplePosition exampleLabelConfig
         (mkOuterNode text 0 0))
  = Single text 80 (14 * (3 # 2))%Q.
Proof. reflexivity. Qed.

(** When the label has two words and the first is much longer, the moved
    split leaves the first line empty. *)
Lemma label_layout_empty_first_line :
  fst (calculateLabelLayout examplePosition exampleLabelConfig
         (mkOuterNode (ofAscii "Supercalifragilistic go") 0 0))
  = Double [] (ofAscii "Supercalifragilistic go") 80 (14 * (5 # 2))%Q.
Proof. reflexivity. Qed.

End LabelLayoutProps.

(** ** Responsive profile *)

Section DisplayProps.
Import DisplayManager.

Lemma Qltb_lt (a b : Q) : Qltb a b = true ↔ (a < b)%Q.
Proof.
  unfold Qltb. rewrite negb_true_iff, <- not_true_iff_false, Qle_bool_iff.
  split; [apply Qnot_le_lt | apply Qlt_not_le].
Qed.

Lemma Qltb_ge (a b : Q) : Qltb a b = false ↔ (b <= a)%Q.
Proof.
  unfold Qltb. rewrite negb_false_iff. apply Qle_bool_iff.
Qed.

(** C7, as stated, fails: the breakpoints are applied to the width of the
    window, not to the size of the container.  An 800x600 container in a
    window 800 wide gets the tablet profile with breakpoints
    [{small: 480, medium: 1024}], and a 300x300 container in a window 1280
    wide gets the desktop profile although 300 is below [small]. *)
Lemma profile_of_800_container_not_desktop :
  getActiveProfile exampleConfig (mkWindow 800 600) = tablet
  ∧ dimNodes (fst (calculateDimensions exampleConfig (mkWindow 800 600)
                     (mkBox 800 600) (mkDisplay None None)))
    = calculateNodeSizes (mkBox 800 600) (profiles exampleConfig tablet)
  ∧ getActiveProfile exampleConfig (mkWindow 1280 720) = desktop
  ∧ dimNodes (fst (calculateDimensions exampleConfig (mkWindow 1280 720)
                     (mkBox 300 300) (mkDisplay None None)))
    = calculateNodeSizes (mkBox 300 300) (profiles exampleConfig desktop).
Proof. repeat split; reflexivity. Qed.

(** C7 (amended).  The profile is selected by the breakpoints applied to
    the inner width of the window: mobile below [small], tablet from
    [small] up to [medium], desktop from [medium] on (for
    [small <= medium]); [calculateDimensions] sizes the text, the nodes and
    the indicators from that profile whatever the container's box is. *)
Theorem profile_by_window_width (cfg : Config) (win : Window) :
  (small cfg <= medium cfg)%Q →
  (getActiveProfile cfg win = mobile ↔ (innerWidth win < small cfg)%Q)
  ∧ (getActiveProfile cfg win = tablet
     ↔ (small cfg <= innerWidth win)%Q ∧ (innerWidth win < medium cfg)%Q)
  ∧ (getActiveProfile cfg win = desktop ↔ (medium cfg <= innerWidth win)%Q)
  ∧ ∀ (rect : Box) (d : Display),
      let dims := fst (calculateDimensions cfg win rect d) in
      let profile := profiles cfg (getActiveProfile cfg win) in
      dimText dims = calculateTextSizes cfg rect profile
      ∧ dimNodes dims = calculateNodeSizes rect profile
      ∧ lastDimensions (snd (calculateDimensions cfg win rect d)) = Some dims.
Proof.
  intros Hbp.
  assert (Hdims : ∀ (rect : Box) (d : Display),
      let dims := fst (calculateDimensions cfg win rect d) in
      let profile := profiles cfg (getActiveProfile cfg win) in
      dimText dims = calculateTextSizes cfg rect profile
      ∧ dimNodes dims = calculateNodeSizes rect profile
      ∧ lastDimensions (snd (calculateDimensions cfg win rect d)) = Some dims)
    by (intros; repeat split; reflexivity).
  revert Hdims. generalize (calculateDimensions cfg win). intros cd Hdims.
  unfold getActiveProfile in *.
  destruct (Qltb (innerWidth win) (small cfg)) eqn:Hs;
    [apply Qltb_lt in Hs
    |apply Qltb_ge in Hs;
     destruct (Qltb (innerWidth win) (medium cfg)) eqn:Hm;
       [apply Qltb_lt in Hm | apply Qltb_ge in Hm]];
    (split; [|split; [|split; [|exact Hdims]]]);
    (split; intros H;
       [try discriminate H
       |try reflexivity; exfalso;
        match type of H with _ ∧ _ => destruct H | _ => idtac end];
       try split; lra).
Qed.

(** The amended C7 at the breakpoints of the example scenario: in a window
    800 wide the profile is desktop only if [1024 <= 800]. *)
Lemma profile_by_window_width_example :
  getActiveProfile exampleConfig (mkWindow 800 600) = desktop ↔ (1024 <= 800)%Q.
Proof.
  refine (proj1 (proj2 (proj2
    (profile_by_window_width exampleConfig (mkWindow 800 600) _)))).
  unfold Qle. simpl. lia.
Defined.

End DisplayProps.

(** ** The state store *)

Section StoreProps.
Import JS StateManager StoreLogic.
Local Open Scope js_scope.
Context `{Collaborators}.

(** *** Object literals *)

Lemma assign_snoc (o : gmap string Value) (p : list (string * Value)) (kv : string * Value) :
  assign o (p ++ [kv]) = <[kv.1 := kv.2]> (assign o p).
Proof. unfold assign. rewrite foldl_app. reflexivity. Qed.

Lemma assign_lookup_notin (o : gmap string Value) (p : list (string * Value)) (k : string) :
  k ∉ p.*1 → assign o p !! k = o !! k.
Proof.
  revert o. induction p as [|[k' v] p IH]; intros o Hk; [reflexivity|].
  simpl in Hk. apply not_elem_of_cons in Hk as [Hne Hk].
  change (assign o ((k', v) :: p)) with (assign (<[k' := v]> o) p).
  rewrite IH by assumption. apply lookup_insert_ne. congruence.
Qed.

Lemma assign_lookup_in (o o' : gmap string Value) (p : list (string * Value)) (k : string) :
  k ∈ p.*1 → assign o p !! k = assign o' p !! k.
Proof.
  induction p as [|[k' v] p IH] using rev_ind; intros Hk.
  - inversion Hk.
  - rewrite !assign_snoc. simpl.
    destruct (decide (k' = k)) as [->|Hne].
    + rewrite !lookup_insert_eq. reflexivity.
    + rewrite !lookup_insert_ne by assumption.
      apply IH. rewrite fmap_app in Hk. simpl in Hk.
      apply elem_of_app in Hk as [Hk|Hk]; [assumption|].
      apply list_elem_of_singleton in Hk. congruence.
Qed.

Lemma get_assign_notin (o : gmap string Value) (p : list (string * Value)) (k : string) :
  k ∉ p.*1 → get (assign o p) k = get o k.
Proof. intros Hk. unfold get. rewrite assign_lookup_notin by assumption. reflexivity. Qed.

Lemma get_assign_in (o : gmap string Value) (p : list (string * Value)) (k : string) :
  k ∈ p.*1 → get (assign o p) k = prop p k.
Proof.
  intros Hk. unfold prop, get.
  rewrite (assign_lookup_in o ∅) by assumption. reflexivity.
Qed.

Lemma elem_of_keys (p : list (string * Value)) (k : string) :
  k ∈ keys p ↔ k ∈ p.*1.
Proof. apply elem_of_remove_dups. Qed.

Lemma get_insert_eq (o : gmap string Value) (k : string) (v : Value) :
  get (<[k := v]> o) k = v.
Proof. unfold get. rewrite lookup_insert_eq. reflexivity. Qed.

Lemma get_insert_ne (o : gmap string Value) (k k' : string) (v : Value) :
  k ≠ k' → get (<[k := v]> o) k' = get o k'.
Proof. intros Hne. unfold get. rewrite lookup_insert_ne by assumption. reflexivity. Qed.

(** *** Reasoning about computations *)

Lemma bind_inv {A B : Type} (m : M A) (k : A -> M B) (w : Store)
    (r : Result B) (w' : Store) :
  bind m k w = (r, w') →
  (∃ a w1, m w = (Ret a, w1) ∧ k a w1 = (r, w'))
  ∨ (∃ e, m w = (Throw e, w') ∧ r = Throw e)
  ∨ (m w = (OutOfFuel, w') ∧ r = OutOfFuel).
Proof.
  unfold bind. destruct (m w) as [[a|e|] w1]; intros Heq.
  - left. eauto.
  - right. left. inversion Heq. eauto.
  - right. right. inversion Heq. eauto.
Qed.

Lemma bind_ret_inv {A B : Type} (m : M A) (k : A -> M B) (w : Store)
    (b : B) (w' : Store) :
  bind m k w = (Ret b, w') →
  ∃ a w1, m w = (Ret a, w1) ∧ k a w1 = (Ret b, w').
Proof.
  intros Heq. apply bind_inv in Heq as [Hr|[(e & _ & He)|[_ He]]];
    [assumption|discriminate|discriminate].
Qed.

Section Preserves.
Variable R : relation Store.
Context {HR : PreOrder R}.

Lemma preserves_pure {A : Type} (m : M A) :
  (∀ w, (m w).2 = w) → preserves R m.
Proof.
  intros Hm w r w' Heq. specialize (Hm w). rewrite Heq in Hm. simpl in Hm.
  subst w'. reflexivity.
Qed.

Lemma preserves_ret {A : Type} (a : A) : preserves R (ret a).
Proof. apply preserves_pure. reflexivity. Qed.

Lemma preserves_throw {A : Type} (e : Value) : preserves R (@throw A e).
Proof. apply preserves_pure. reflexivity. Qed.

Lemma preserves_bind {A B : Type} (m : M A) (k : A -> M B) :
  preserves R m → (∀ a, preserves R (k a)) → preserves R (bind m k).
Proof.
  intros Hm Hk w r w' Heq.
  apply bind_inv in Heq as [(a & w1 & H1 & H2)|[(e & H1 & _)|[H1 _]]].
  - transitivity w1; [exact (Hm _ _ _ H1) | exact (Hk _ _ _ _ H2)].
  - exact (Hm _ _ _ H1).
  - exact (Hm _ _ _ H1).
Qed.

Lemma preserves_tryCatch {A : Type} (m : M A) (h : Value -> M A) :
  preserves R m → (∀ e, preserves R (h e)) → preserves R (tryCatch m h).
Proof.
  intros Hm Hh w r w' Heq. unfold tryCatch in Heq.
  destruct (m w) as [[a|e|] w1] eqn:E.
  - inversion Heq; subst. exact (Hm _ _ _ E).
  - transitivity w1; [exact (Hm _ _ _ E) | exact (Hh _ _ _ _ Heq)].
  - inversion Heq; subst. exact (Hm _ _ _ E).
Qed.

Lemma preserves_tryFinally {A : Type} (m : M A) (f : M unit) :
  preserves R m → preserves R f → preserves R (tryFinally m f).
Proof.
  intros Hm Hf w r w' Heq. unfold tryFinally in Heq.
  destruct (m w) as [[a|e|] w1] eqn:E.
  - destruct (f w1) as [[[]|e'|] w2] eqn:E2; inversion Heq; subst;
      (transitivity w1; [exact (Hm _ _ _ E) | exact (Hf _ _ _ E2)]).
  - destruct (f w1) as [[[]|e'|] w2] eqn:E2; inversion Heq; subst;
      (transitivity w1; [exact (Hm _ _ _ E) | exact (Hf _ _ _ E2)]).
  - inversion Heq; subst. exact (Hm _ _ _ E).
Qed.

Lemma preserves_when (b : bool) (m : M unit) :
  preserves R m → preserves R (when b m).
Proof. intros Hm. destruct b; [exact Hm | apply preserves_ret]. Qed.

Lemma preserves_forEach {A : Type} (f : A -> M unit) (xs : list A) :
  (∀ x, x ∈ xs → preserves R (f x)) → preserves R (forEach f xs).
Proof.
  induction xs as [|x xs IH]; intros Hf; simpl.
  - apply preserves_ret.
  - apply preserves_bind; [apply Hf; left | intros _; apply IH].
    intros y Hy. apply Hf. right. exact Hy.
Qed.

Lemma preserves_thisState : preserves R thisState.
Proof.
  apply preserves_pure. intros w. unfold thisState. destruct (state w); reflexivity.
Qed.

Lemma preserves_readAt (a : nat) (k : string) : preserves R (readAt a k).
Proof. apply preserves_pure. reflexivity. Qed.

Lemma preserves_read (k : string) : preserves R (read k).
Proof.
  apply preserves_bind; [apply preserves_thisState | intros a; apply preserves_readAt].
Qed.

Lemma preserves_now : preserves R now.
Proof. apply preserves_pure. reflexivity. Qed.

Lemma preserves_snapshot : preserves R snapshot.
Proof. apply preserves_pure. reflexivity. Qed.

Lemma preserves_loadedHas (id : Value) : preserves R (loadedHas id).
Proof. apply preserves_pure. reflexivity. Qed.

End Preserves.

(** *** The relations are preorders *)

#[local] Instance alive_preorder : PreOrder alive.
Proof. split; unfold alive; [intros w; auto | intros w1 w2 w3; auto]. Qed.

#[local] Instance logOnly_preorder (P : string * Payload -> Prop) : PreOrder (logOnly P).
Proof.
  split.
  - intros w. split; [reflexivity|]. exists []. rewrite app_nil_r. auto.
  - intros w1 w2 w3 [Hc1 (l1 & He1 & Hl1)] [Hc2 (l2 & He2 & Hl2)].
    split; [congruence|]. exists (l1 ++ l2).
    rewrite He2, He1, app_assoc. split; [reflexivity|].
    apply Forall_app; auto.
Qed.

#[local] Instance keeps_preorder (S : list string) : PreOrder (keeps S).
Proof.
  split.
  - intros w Hs. auto.
  - intros w1 w2 w3 H12 H23 Hs.
    destruct (H12 Hs) as [Hs2 Hk2]. destruct (H23 Hs2) as [Hs3 Hk3].
    split; [assumption|]. intros k Hk. rewrite Hk3, Hk2 by assumption. reflexivity.
Qed.

#[local] Instance quietCache_preorder : PreOrder quietCache.
Proof.
  split.
  - intros w. split; reflexivity.
  - intros w1 w2 w3 [H1 H2] [H3 H4]. split; congruence.
Qed.

#[local] Instance frame_preorder : PreOrder frame.
Proof.
  split.
  - intros w. repeat split; reflexivity.
  - intros w1 w2 w3 H12 H23. unfold frame in *.
    destruct H12 as (?&?&?&?&?&?&?&?&?), H23 as (?&?&?&?&?&?&?&?&?).
    repeat split; congruence.
Qed.

(** *** What the elementary operations preserve *)

Lemma alive_of_state {A : Type} (m : M A) :
  (∀ w, state (m w).2 = state w) → preserves alive m.
Proof.
  intros Hm w r w' Heq Hs. specialize (Hm w). rewrite Heq in Hm. simpl in Hm.
  rewrite Hm. exact Hs.
Qed.

Lemma alive_writeAt (a : nat) (k : string) (v : Value) : preserves alive (writeAt a k v).
Proof. apply alive_of_state. reflexivity. Qed.

Lemma alive_emit (n : string) (d : Payload) : preserves alive (emit n d).
Proof. apply alive_of_state. reflexivity. Qed.

Lemma alive_call (c : ExtCall) (o : option Value) : preserves alive (call c o).
Proof. apply alive_of_state. intros w. unfold call. destruct o; reflexivity. Qed.

Lemma alive_setTimeout (d : Z) : preserves alive (setTimeout d).
Proof. apply alive_of_state. reflexivity. Qed.

Lemma alive_clearTransitionTimeout : preserves alive clearTransitionTimeout.
Proof.
  apply alive_of_state. intros w. unfold clearTransitionTimeout.
  destruct (transitionTimeout w); reflexivity.
Qed.

Lemma alive_setTransitionTimeout (t : option nat) :
  preserves alive (setTransitionTimeout t).
Proof. apply alive_of_state. reflexivity. Qed.

Lemma alive_loadedAdd (id : Value) : preserves alive (loadedAdd id).
Proof.
  apply alive_of_state. intros w. unfold loadedAdd. simpl.
  destruct (bool_decide _); reflexivity.
Qed.

Lemma alive_replaceState (p : list (string * Value)) : preserves alive (replaceState p).
Proof. intros w r w' [= <- <-] _. simpl. eauto. Qed.

Lemma logOnly_of_emitted (P : string * Payload -> Prop) {A : Type} (m : M A) :
  (∀ w, clock (m w).2 = clock w ∧ emitted (m w).2 = emitted w) →
  preserves (logOnly P) m.
Proof.
  intros Hm w r w' Heq. specialize (Hm w). rewrite Heq in Hm. simpl in Hm.
  destruct Hm as [Hc He]. split; [assumption|].
  exists []. rewrite app_nil_r. auto.
Qed.

Lemma logOnly_writeAt P (a : nat) (k : string) (v : Value) :
  preserves (logOnly P) (writeAt a k v).
Proof. apply logOnly_of_emitted. intros w; split; reflexivity. Qed.

Lemma logOnly_emit (P : string * Payload -> Prop) (n : string) (d : Payload) :
  P (n, d) → preserves (logOnly P) (emit n d).
Proof.
  intros HP w r w' [= <- <-]. split; [reflexivity|].
  exists [(n, d)]. simpl. auto.
Qed.

Lemma logOnly_call P (c : ExtCall) (o : option Value) : preserves (logOnly P) (call c o).
Proof.
  apply logOnly_of_emitted. intros w. unfold call. destruct o; split; reflexivity.
Qed.

Lemma logOnly_setTimeout P (d : Z) : preserves (logOnly P) (setTimeout d).
Proof. apply logOnly_of_emitted. intros w; split; reflexivity. Qed.

Lemma logOnly_clearTransitionTimeout P : preserves (logOnly P) clearTransitionTimeout.
Proof.
  apply logOnly_of_emitted. intros w. unfold clearTransitionTimeout.
  destruct (transitionTimeout w); split; reflexivity.
Qed.

Lemma logOnly_setTransitionTimeout P (t : option nat) :
  preserves (logOnly P) (setTransitionTimeout t).
Proof. apply logOnly_of_emitted. intros w; split; reflexivity. Qed.

Lemma logOnly_loadedAdd P (id : Value) : preserves (logOnly P) (loadedAdd id).
Proof.
  apply logOnly_of_emitted. intros w. unfold loadedAdd. simpl.
  destruct (bool_decide _); split; reflexivity.
Qed.

Lemma logOnly_replaceState P (p : list (string * Value)) :
  preserves (logOnly P) (replaceState p).
Proof. apply logOnly_of_emitted. intros w; split; reflexivity. Qed.

(** *** Composite methods *)

Ltac tc := typeclasses eauto.

Ltac pres_struct :=
  first
    [ apply preserves_ret; tc | apply preserves_throw; tc
    | apply preserves_thisState; tc | apply preserves_readAt; tc
    | apply preserves_read; tc | apply preserves_now; tc
    | apply preserves_snapshot; tc | apply preserves_loadedHas; tc
    | apply preserves_when; [tc |]
    | apply preserves_tryCatch; [tc | | intros ?]
    | apply preserves_tryFinally; [tc | |]
    | apply preserves_bind; [tc | | intros ?]
    | match goal with
      | |- preserves _ (match ?x with _ => _ end) => destruct x
      end ].

Ltac pres prim := repeat first [ assumption | solve [auto 2] | prim | pres_struct ].

Ltac alive_prim :=
  first
    [ apply alive_writeAt | apply alive_emit | apply alive_call
    | apply alive_setTimeout | apply alive_clearTransitionTimeout
    | apply alive_setTransitionTimeout | apply alive_loadedAdd
    | apply alive_replaceState ].

Lemma alive_emitChanges (p : list (string * Value)) (old : gmap string Value) :
  preserves alive (emitChanges p old).
Proof. apply preserves_forEach; [tc|]. intros k _. pres alive_prim. Qed.

Lemma alive_handleTransitionError {A : Type} (e : Value) :
  preserves alive (@handleTransitionError A e).
Proof. unfold handleTransitionError. pres alive_prim. Qed.

Lemma alive_endTransition : preserves alive endTransition.
Proof. unfold endTransition, finalizeTransition. pres alive_prim. Qed.

Lemma alive_handleStateChange (rec : list (string * Value) -> M Value)
    (old : gmap string Value) (s : nat) :
  (∀ p, preserves alive (rec p)) →
  preserves alive (handleStateChange rec old s).
Proof.
  intros Hrec.
  unfold handleStateChange, handleOtherChanges, handleSelectionChange,
    contentLoadedHas, contentLoadedAdd.
  pres alive_prim.
Qed.

Lemma alive_updateStateBody (hsc : gmap string Value -> nat -> M unit)
    (p : list (string * Value)) :
  (∀ old s, preserves alive (hsc old s)) →
  preserves alive (updateStateBody hsc p).
Proof.
  intros Hh. unfold updateStateBody, updateStateTry, startTransition.
  pres ltac:(first [ alive_prim | apply alive_emitChanges
                   | apply alive_handleTransitionError
                   | apply alive_endTransition ]).
Qed.

Lemma alive_updateState (fuel : nat) (p : list (string * Value)) :
  preserves alive (updateState fuel p).
Proof.
  revert p. induction fuel as [|f IH]; intros p.
  - apply preserves_pure; [tc | reflexivity].
  - simpl. apply alive_updateStateBody. intros old s.
    apply alive_handleStateChange. exact IH.
Qed.

(** *** Reading and writing the current state object *)


Lemma read_spec (w : Store) (k : string) :
  is_Some (state w) → read k w = (Ret (get (current w) k), w).
Proof.
  intros [a Ha]. unfold read, bind, thisState, readAt, current.
  rewrite Ha. reflexivity.
Qed.

(** [this.state.k = v] as a store transformer. *)
Lemma write_spec (w : Store) (k : string) (v : Value) :
  is_Some (state w) →
  ∃ w', write k v w = (Ret tt, w')
      ∧ state w' = state w
      ∧ current w' = <[k := v]> (current w)
      ∧ emitted w' = emitted w ∧ calls w' = calls w ∧ loaded w' = loaded w
      ∧ timers w' = timers w ∧ transitionTimeout w' = transitionTimeout w
      ∧ nextTimer w' = nextTimer w ∧ clock w' = clock w.
Proof.
  intros [a Ha]. unfold write, bind, thisState, writeAt. rewrite Ha.
  eexists. split; [reflexivity|]. simpl.
  split; [congruence|]. split; [|repeat split].
  unfold current, objAt. simpl. rewrite Ha, lookup_insert_eq. reflexivity.
Qed.

Lemma emit_spec (w : Store) (n : string) (d : Payload) :
  emit n d w = (Ret tt, set_emitted (emitted w ++ [(n, d)]) w).
Proof. reflexivity. Qed.

Lemma handleTransitionError_spec {A : Type} (e : Value) (w : Store) :
  is_Some (state w) →
  ∃ w', @handleTransitionError A e w = (Throw e, w')
      ∧ is_Some (state w')
      ∧ get (current w') "error" = e
      ∧ get (current w') "isError" = VBool true
      ∧ get (current w') "isTransitioning" = VBool false
      ∧ emitted w' = emitted w ++ [("transition:error", PError e)].
Proof.
  intros Hs. unfold handleTransitionError.
  destruct (write_spec w "isTransitioning" (VBool false) Hs)
    as (w1 & E1 & Hs1 & Hc1 & He1 & _).
  assert (Hs1' : is_Some (state w1)) by (rewrite Hs1; exact Hs).
  destruct (write_spec w1 "error" e Hs1') as (w2 & E2 & Hs2 & Hc2 & He2 & _).
  assert (Hs2' : is_Some (state w2)) by (rewrite Hs2; exact Hs1').
  destruct (write_spec w2 "isError" (VBool true) Hs2')
    as (w3 & E3 & Hs3 & Hc3 & He3 & _).
  exists (set_emitted (emitted w3 ++ [("transition:error", PError e)]) w3).
  split.
  { unfold bind. rewrite E1, E2, E3. reflexivity. }
  split; [simpl; rewrite Hs3; exact Hs2'|].
  assert (Hcur : current (set_emitted
                   (emitted w3 ++ [("transition:error", PError e)]) w3)
                 = current w3) by reflexivity.
  rewrite Hcur, Hc3, Hc2, Hc1.
  repeat split.
  - rewrite get_insert_ne by discriminate. apply get_insert_eq.
  - apply get_insert_eq.
  - rewrite !get_insert_ne by discriminate. apply get_insert_eq.
  - simpl. congruence.
Qed.

(** C3.  When the [try] block of [updateState] (the merge, the change
    handlers, the emission of the change events) throws [e], the call
    throws [e] to its caller, and it leaves [e] in [state.error], [isError]
    set and [isTransitioning] cleared, after emitting
    [transition:error]. *)
Theorem updateState_error_propagates (fuel : nat) (p : list (string * Value))
    (w : Store) (e : Value) :
  is_Some (state w) →
  truthy (get (current w) "isDestroying") = false →
  (updateStateTry (handleStateChange (updateState fuel)) p w).1 = Throw e →
  (updateState (S fuel) p w).1 = Throw e
  ∧ get (current (updateState (S fuel) p w).2) "error" = e
  ∧ get (current (updateState (S fuel) p w).2) "isError" = VBool true
  ∧ get (current (updateState (S fuel) p w).2) "isTransitioning" = VBool false
  ∧ last (emitted (updateState (S fuel) p w).2)
    = Some ("transition:error", PError e).
Proof.
  intros Hs Hd Hthrow.
  change (updateState (S fuel) p)
    with (updateStateBody (handleStateChange (updateState fuel)) p).
  unfold updateStateBody, bind. rewrite (read_spec w _ Hs), Hd.
  unfold tryCatch.
  destruct (updateStateTry (handleStateChange (updateState fuel)) p w)
    as [r1 w1] eqn:E.
  simpl in Hthrow. subst r1.
  assert (Hs1 : is_Some (state w1)).
  { assert (Hp : preserves alive
                   (updateStateTry (handleStateChange (updateState fuel)) p)).
    { unfold updateStateTry, startTransition.
      pres ltac:(first [ alive_prim | apply alive_emitChanges
                       | apply alive_endTransition
                       | apply alive_handleStateChange;
                         intros; apply alive_updateState ]). }
    exact (Hp _ _ _ E Hs). }
  destruct (@handleTransitionError_spec Value e w1 Hs1)
    as (w2 & E2 & _ & Herr & HisErr & Htr & Hem).
  rewrite E2. simpl. repeat split; try assumption.
  rewrite Hem. apply last_snoc.
Qed.

(** *** The events of a nested transition update *)

Ltac event_name :=
  unfold transitionEvent; simpl; apply list_elem_of_In; simpl; tauto.

Ltac logOnly_prim :=
  first
    [ apply logOnly_writeAt | apply logOnly_emit; event_name | apply logOnly_call
    | apply logOnly_setTimeout | apply logOnly_clearTransitionTimeout
    | apply logOnly_setTransitionTimeout | apply logOnly_loadedAdd
    | apply logOnly_replaceState ].

Lemma keys_isTransitioning (b : bool) :
  keys [("isTransitioning"%string, VBool b)] = ["isTransitioning"%string].
Proof. reflexivity. Qed.

Lemma logOnly_emitChanges_nested (b : bool) (old : gmap string Value) :
  preserves (logOnly transitionEvent)
    (emitChanges [("isTransitioning"%string, VBool b)] old).
Proof.
  unfold emitChanges. rewrite keys_isTransitioning.
  apply preserves_forEach; [tc|]. intros k Hk.
  apply list_elem_of_singleton in Hk. subst k.
  pres logOnly_prim.
Qed.

Lemma logOnly_endTransition : preserves (logOnly transitionEvent) endTransition.
Proof. unfold endTransition, finalizeTransition. pres logOnly_prim. Qed.

Lemma logOnly_handleTransitionError {A : Type} (e : Value) :
  preserves (logOnly transitionEvent) (@handleTransitionError A e).
Proof. unfold handleTransitionError. pres logOnly_prim. Qed.

Lemma logOnly_handleStateChange (rec : list (string * Value) -> M Value)
    (old : gmap string Value) (s : nat) :
  (∀ b, preserves (logOnly transitionEvent)
          (rec [("isTransitioning"%string, VBool b)])) →
  preserves (logOnly transitionEvent) (handleStateChange rec old s).
Proof.
  intros Hrec.
  unfold handleStateChange, handleOtherChanges, handleSelectionChange,
    contentLoadedHas, contentLoadedAdd.
  pres logOnly_prim.
Qed.

Lemma logOnly_nested (fuel : nat) (b : bool) :
  preserves (logOnly transitionEvent)
    (updateState fuel [("isTransitioning"%string, VBool b)]).
Proof.
  revert b. induction fuel as [|f IH]; intros b.
  - apply logOnly_of_emitted. intros w; split; reflexivity.
  - simpl. unfold updateStateBody, updateStateTry, startTransition.
    pres ltac:(first [ logOnly_prim | apply logOnly_emitChanges_nested
                     | apply logOnly_endTransition
                     | apply logOnly_handleTransitionError
                     | apply logOnly_handleStateChange; exact IH ]).
Qed.

(** *** The fields a nested transition update can change *)

Lemma keeps_of_current (S : list string) {A : Type} (m : M A) :
  (∀ w, state (m w).2 = state w ∧ heap (m w).2 = heap w) →
  preserves (keeps S) m.
Proof.
  intros Hm w r w' Heq Hs. specialize (Hm w). rewrite Heq in Hm. simpl in Hm.
  destruct Hm as [Hst Hh]. split; [rewrite Hst; exact Hs|].
  intros k _. unfold current, objAt. rewrite Hst, Hh. reflexivity.
Qed.

Lemma keeps_writeAt (S : list string) (a : nat) (k : string) (v : Value) :
  k ∈ S → preserves (keeps S) (writeAt a k v).
Proof.
  intros Hk w r w' [= <- <-] [st Hst]. simpl. split; [eauto|].
  intros k' Hk'. unfold current, objAt. simpl. rewrite Hst.
  destruct (decide (a = st)) as [->|Hne].
  - rewrite lookup_insert_eq. simpl. apply get_insert_ne. congruence.
  - rewrite lookup_insert_ne by assumption. reflexivity.
Qed.

Lemma keeps_emit S (n : string) (d : Payload) : preserves (keeps S) (emit n d).
Proof. apply keeps_of_current. intros w; split; reflexivity. Qed.

Lemma keeps_call S (c : ExtCall) (o : option Value) : preserves (keeps S) (call c o).
Proof.
  apply keeps_of_current. intros w. unfold call. destruct o; split; reflexivity.
Qed.

Lemma keeps_setTimeout S (d : Z) : preserves (keeps S) (setTimeout d).
Proof. apply keeps_of_current. intros w; split; reflexivity. Qed.

Lemma keeps_clearTransitionTimeout S : preserves (keeps S) clearTransitionTimeout.
Proof.
  apply keeps_of_current. intros w. unfold clearTransitionTimeout.
  destruct (transitionTimeout w); split; reflexivity.
Qed.

Lemma keeps_setTransitionTimeout S (t : option nat) :
  preserves (keeps S) (setTransitionTimeout t).
Proof. apply keeps_of_current. intros w; split; reflexivity. Qed.

Lemma keeps_loadedAdd S (id : Value) : preserves (keeps S) (loadedAdd id).
Proof.
  apply keeps_of_current. intros w. unfold loadedAdd. simpl.
  destruct (bool_decide _); split; reflexivity.
Qed.

Lemma current_replaceState (p : list (string * Value)) (w : Store) :
  current (replaceState p w).2 = assign (current w) p.
Proof.
  unfold current at 1, objAt. simpl. rewrite lookup_insert_eq. reflexivity.
Qed.

Lemma keeps_replaceState (S : list string) (p : list (string * Value)) :
  (∀ k, k ∈ p.*1 → k ∈ S) → preserves (keeps S) (replaceState p).
Proof.
  intros Hp w r w' Heq _.
  assert (Hw : w' = (replaceState p w).2) by (rewrite Heq; reflexivity).
  subst w'. split; [simpl; eauto|].
  intros k Hk. rewrite current_replaceState. apply get_assign_notin.
  intros Hin. apply Hk, Hp, Hin.
Qed.

Ltac field_name :=
  unfold transitionFields; apply list_elem_of_In; simpl; tauto.

Ltac keeps_prim :=
  first
    [ apply keeps_writeAt; field_name | apply keeps_emit | apply keeps_call
    | apply keeps_setTimeout | apply keeps_clearTransitionTimeout
    | apply keeps_setTransitionTimeout | apply keeps_loadedAdd ].

Lemma keeps_emitChanges (p : list (string * Value)) (old : gmap string Value) :
  preserves (keeps transitionFields) (emitChanges p old).
Proof. apply preserves_forEach; [tc|]. intros k _. pres keeps_prim. Qed.

Lemma keeps_endTransition : preserves (keeps transitionFields) endTransition.
Proof. unfold endTransition, finalizeTransition. pres keeps_prim. Qed.

Lemma keeps_handleTransitionError {A : Type} (e : Value) :
  preserves (keeps transitionFields) (@handleTransitionError A e).
Proof. unfold handleTransitionError. pres keeps_prim. Qed.

Lemma keeps_handleStateChange (rec : list (string * Value) -> M Value)
    (old : gmap string Value) (s : nat) :
  (∀ b, preserves (keeps transitionFields)
          (rec [("isTransitioning"%string, VBool b)])) →
  preserves (keeps transitionFields) (handleStateChange rec old s).
Proof.
  intros Hrec.
  unfold handleStateChange, handleOtherChanges, handleSelectionChange,
    contentLoadedHas, contentLoadedAdd.
  pres keeps_prim.
Qed.

Lemma keeps_nested (fuel : nat) (b : bool) :
  preserves (keeps transitionFields)
    (updateState fuel [("isTransitioning"%string, VBool b)]).
Proof.
  revert b. induction fuel as [|f IH]; intros b.
  - apply keeps_of_current. intros w; split; reflexivity.
  - simpl. unfold updateStateBody, updateStateTry, startTransition.
    pres ltac:(first [ keeps_prim | apply keeps_emitChanges
                     | apply keeps_endTransition
                     | apply keeps_handleTransitionError
                     | apply keeps_handleStateChange; exact IH
                     | apply keeps_replaceState; intros k Hk;
                       apply list_elem_of_singleton in Hk; subst k; field_name ]).
Qed.

(** *** Step-by-step specifications *)

Lemma set_emitted_eta (w : Store) : set_emitted (emitted w) w = w.
Proof. destruct w; reflexivity. Qed.

Lemma emitChanges_spec (p : list (string * Value)) (old : gmap string Value)
    (w : Store) :
  emitChanges p old w
  = (Ret tt, set_emitted (emitted w ++ changeEvents p old (clock w)) w).
Proof.
  unfold emitChanges, changeEvents. generalize (keys p). intros ks.
  revert w. induction ks as [|k ks IH]; intros w; simpl.
  - unfold ret. rewrite app_nil_r, set_emitted_eta. reflexivity.
  - unfold bind at 1.
    destruct (strict_ne (prop p k) (get old k)); simpl.
    + unfold bind at 1. simpl. rewrite IH. simpl.
      rewrite <- app_assoc. reflexivity.
    + rewrite IH. reflexivity.
Qed.

Lemma startTransition_spec (w : Store) :
  is_Some (state w) →
  ∃ w', startTransition w = (Ret tt, w')
      ∧ state w' = state w
      ∧ current w' = <["isTransitioning"%string := VBool true]> (current w)
      ∧ emitted w' = emitted w ++ [("transition:start"%string, PNone)]
      ∧ clock w' = clock w
      ∧ timers w'
        = match transitionTimeout w with
          | Some id => List.filter (fun t => negb (Nat.eqb t.1 id)) (timers w)
          | None => timers w
          end
      ∧ nextTimer w' = nextTimer w
      ∧ calls w' = calls w ∧ loaded w' = loaded w.
Proof.
  intros Hs. unfold startTransition.
  destruct (clearTransitionTimeout w) as [r0 w0] eqn:E0.
  assert (H0 : r0 = Ret tt ∧ state w0 = state w ∧ current w0 = current w
               ∧ emitted w0 = emitted w ∧ clock w0 = clock w
               ∧ timers w0
                 = match transitionTimeout w with
                   | Some id => List.filter (fun t => negb (Nat.eqb t.1 id)) (timers w)
                   | None => timers w
                   end
               ∧ nextTimer w0 = nextTimer w
               ∧ calls w0 = calls w ∧ loaded w0 = loaded w).
  { unfold clearTransitionTimeout in E0.
    destruct (transitionTimeout w); inversion E0; subst; repeat split. }
  destruct H0 as (-> & Hs0 & Hc0 & He0 & Hk0 & Ht0 & Hn0 & Hcl0 & Hl0).
  assert (Hs0' : is_Some (state w0)) by (rewrite Hs0; exact Hs).
  destruct (write_spec w0 "isTransitioning" (VBool true) Hs0')
    as (w1 & E1 & Hs1 & Hc1 & He1 & Hcl1 & Hl1 & Ht1 & _ & Hn1 & Hk1).
  exists (set_emitted (emitted w1 ++ [("transition:start"%string, PNone)]) w1).
  split; [unfold bind; rewrite E0, E1; reflexivity|].
  simpl. repeat split; try congruence.
  change (current (set_emitted _ w1)) with (current w1). congruence.
Qed.

(** Stamping [lastUpdate] and ending the transition: the stamp is fresh, so
    the end is always deferred by the whole minimum time. *)
Lemma stamp_and_end_spec (w : Store) :
  is_Some (state w) →
  ∃ w', (t <- now ;; write "lastUpdate" (VNum t) ;;; endTransition ;;;
         ret (VBool true)) w = (Ret (VBool true), w')
      ∧ state w' = state w
      ∧ current w' = <["lastUpdate"%string := VNum (clock w)]> (current w)
      ∧ emitted w' = emitted w
      ∧ clock w' = clock w
      ∧ timers w' = timers w ++ [(nextTimer w, clock w + 100)]
      ∧ transitionTimeout w' = Some (nextTimer w)
      ∧ calls w' = calls w ∧ loaded w' = loaded w.
Proof.
  intros Hs.
  destruct (write_spec w "lastUpdate" (VNum (clock w)) Hs)
    as (w1 & E1 & Hs1 & Hc1 & He1 & Hcl1 & Hl1 & Ht1 & Hto1 & Hn1 & Hk1).
  assert (Hs1' : is_Some (state w1)) by (rewrite Hs1; exact Hs).
  eexists. split.
  { unfold bind at 1. unfold now at 1. unfold bind at 1. rewrite E1.
    unfold bind at 1. unfold endTransition, bind, now.
    rewrite (read_spec w1 _ Hs1'), Hc1, get_insert_eq.
    change (toNumber (VNum (clock w))) with (Some (clock w)). cbv iota beta.
    rewrite Hk1, Z.sub_diag. simpl. reflexivity. }
  simpl. repeat split; try congruence.
  - change (current (set_timeout _ (set_timers _ _ w1))) with (current w1).
    congruence.
  - rewrite Ht1, Hn1, Hk1. reflexivity.
Qed.

Lemma read_ret_inv (k : string) (w : Store) (v : Value) (w' : Store) :
  read k w = (Ret v, w') →
  is_Some (state w) ∧ v = get (current w) k ∧ w' = w.
Proof.
  unfold read, bind, thisState, readAt, current.
  destruct (state w) as [a|]; intros Heq; inversion Heq; eauto.
Qed.

Lemma tryCatch_ret_inv {A : Type} (m : M A) (h : Value -> M A) (w : Store)
    (a : A) (w' : Store) :
  tryCatch m h w = (Ret a, w') →
  m w = (Ret a, w') ∨ ∃ e w1, m w = (Throw e, w1) ∧ h e w1 = (Ret a, w').
Proof.
  unfold tryCatch. destruct (m w) as [[a'|e|] w1]; intros Heq.
  - left. exact Heq.
  - right. eauto.
  - discriminate.
Qed.

Lemma handleTransitionError_not_ret {A : Type} (e : Value) (w : Store)
    (a : A) (w' : Store) :
  @handleTransitionError A e w ≠ (Ret a, w').
Proof.
  unfold handleTransitionError. intros Heq.
  apply bind_ret_inv in Heq as (? & ? & _ & Heq).
  apply bind_ret_inv in Heq as (? & ? & _ & Heq).
  apply bind_ret_inv in Heq as (? & ? & _ & Heq).
  apply bind_ret_inv in Heq as (? & ? & _ & Heq).
  discriminate Heq.
Qed.

(** The steps of a call that returned [true]. *)
Lemma updateStateBody_true_inv (hsc : gmap string Value -> nat -> M unit)
    (p : list (string * Value)) (w w' : Store) :
  updateStateBody hsc p w = (Ret (VBool true), w') →
  is_Some (state w)
  ∧ truthy (get (current w) "isDestroying") = false
  ∧ ∃ w1 w3,
      startTransition w = (Ret tt, w1)
      ∧ hsc (current w1) (nextObj w1) (replaceState p w1).2 = (Ret tt, w3)
      ∧ (t <- now ;; write "lastUpdate" (VNum t) ;;; endTransition ;;;
         ret (VBool true))
          (set_emitted (emitted w3 ++ changeEvents p (current w1) (clock w3)) w3)
        = (Ret (VBool true), w').
Proof.
  unfold updateStateBody. intros E.
  apply bind_ret_inv in E as (d & w0 & Eread & E).
  apply read_ret_inv in Eread as (Hs & -> & ->).
  destruct (truthy (get (current w) "isDestroying")) eqn:Hd; [discriminate E|].
  split; [exact Hs|]. split; [reflexivity|].
  apply tryCatch_ret_inv in E as [E|(e & w1 & _ & E)];
    [|exfalso; exact (handleTransitionError_not_ret _ _ _ _ E)].
  unfold updateStateTry in E.
  apply bind_ret_inv in E as ([] & w1 & E1 & E).
  apply bind_ret_inv in E as (old & w1' & Esnap & E).
  inversion Esnap; subst old w1'; clear Esnap.
  apply bind_ret_inv in E as ([] & w2 & Erep & E).
  inversion Erep as [Hw2]; clear Erep.
  apply bind_ret_inv in E as (s & w2' & Ethis & E).
  assert (Hthis : s = nextObj w1 ∧ w2' = w2).
  { subst w2. unfold thisState in Ethis. simpl in Ethis.
    inversion Ethis. auto. }
  destruct Hthis as [-> ->]. clear Ethis.
  apply bind_ret_inv in E as ([] & w3 & Ehsc & E).
  apply bind_ret_inv in E as ([] & w4 & Eemit & E).
  rewrite emitChanges_spec in Eemit. inversion Eemit as [Hw4]; clear Eemit.
  exists w1, w3. split; [exact E1|]. subst w2 w4. split; [exact Ehsc | exact E].
Qed.

(** C1 (amended).  A call of [updateState] that returns [true] emits,
    after [transition:start] and the events of the nested transition
    updates of the selection handler, exactly one [<key>Change] event for
    each key of its argument whose value there differs from the value in
    the snapshot; the event carries the snapshot's value as old value and
    the argument's value as new value.  The snapshot is the state before
    the call with [isTransitioning] set.  Fields that change without being
    named in the argument get no event of their own.  A key of the
    argument outside the fields that the transition machinery writes holds
    the argument's value when the call returns. *)
Theorem updateState_change_events (fuel : nat) (p : list (string * Value))
    (w : Store) :
  (updateState fuel p w).1 = Ret (VBool true) →
  let old := <["isTransitioning"%string := VBool true]> (current w) in
  let w' := (updateState fuel p w).2 in
  (∃ mid,
     emitted w'
     = emitted w ++ [("transition:start"%string, PNone)] ++ mid
         ++ changeEvents p old (clock w)
     ∧ Forall transitionEvent mid)
  ∧ (∀ k, k ≠ "isTransitioning"%string → get old k = get (current w) k)
  ∧ (∀ k, k ∈ keys p → k ∉ transitionFields → get (current w') k = prop p k).
Proof.
  intros Hret old w'. subst w'.
  destruct fuel as [|f]; [discriminate Hret|].
  change (updateState (S f) p)
    with (updateStateBody (handleStateChange (updateState f)) p) in *.
  destruct (updateStateBody (handleStateChange (updateState f)) p w)
    as [r w'] eqn:E.
  simpl in Hret. subst r. simpl.
  apply updateStateBody_true_inv in E
    as (Hs & Hd & w1 & w3 & E1 & Ehsc & Eend).
  destruct (startTransition_spec w Hs)
    as (w1' & E1' & Hs1 & Hc1 & He1 & Hk1 & _).
  rewrite E1 in E1'. inversion E1'; subst w1'; clear E1'.
  set (w2 := (replaceState p w1).2) in *.
  assert (Hs2 : is_Some (state w2)) by (simpl; eauto).
  pose proof (logOnly_handleStateChange (updateState f) (current w1)
                (nextObj w1) (logOnly_nested f) _ _ _ Ehsc)
    as [Hk3 (mid & He3 & Hmid)].
  destruct (keeps_handleStateChange (updateState f) (current w1)
              (nextObj w1) (keeps_nested f) _ _ _ Ehsc Hs2)
    as [Hs3 Hkeep].
  set (w4 := set_emitted (emitted w3 ++ changeEvents p (current w1) (clock w3)) w3)
    in *.
  assert (Hs4 : is_Some (state w4)) by exact Hs3.
  destruct (stamp_and_end_spec w4 Hs4)
    as (w5 & E5 & Hs5 & Hc5 & He5 & _).
  rewrite Eend in E5. inversion E5; subst w5; clear E5.
  split; [|split].
  - exists mid. split; [|exact Hmid].
    rewrite He5. subst w4. simpl. rewrite He3. subst w2. simpl.
    rewrite He1, Hk3. simpl. rewrite Hk1, Hc1.
    rewrite <- !app_assoc. reflexivity.
  - intros k Hk. subst old. apply get_insert_ne. congruence.
  - intros k Hin Hout. rewrite Hc5.
    rewrite get_insert_ne
      by (intros <-; apply Hout; unfold transitionFields;
          apply list_elem_of_In; simpl; tauto).
    change (current w4) with (current w3).
    rewrite (Hkeep k Hout). subst w2. rewrite current_replaceState.
    apply get_assign_in. apply elem_of_keys. exact Hin.
Qed.

(** *** Updates that leave the selection alone *)

Lemma handleStateChange_same_selection (rec : list (string * Value) -> M Value)
    (old : gmap string Value) (s : nat) (w : Store) :
  get (objAt w s) "selectedNode" = get old "selectedNode" →
  handleStateChange rec old s w = handleOtherChanges old s w.
Proof.
  intros Hsel. unfold handleStateChange.
  unfold bind at 1. unfold readAt at 1. rewrite Hsel.
  unfold strict_ne. rewrite bool_decide_eq_false_2 by (intros Hne; apply Hne; reflexivity).
  reflexivity.
Qed.

Lemma frame_of_fields {A : Type} (m : M A) :
  (∀ w, frame w (m w).2) → preserves frame m.
Proof. intros Hm w r w' Heq. specialize (Hm w). rewrite Heq in Hm. exact Hm. Qed.


Lemma frame_emit (n : string) (d : Payload) : preserves frame (emit n d).
Proof. apply frame_of_fields. intros w. repeat split. Qed.


Lemma finalizeTransition_spec (w : Store) :
  is_Some (state w) →
  ∃ w', finalizeTransition w = (Ret tt, w')
      ∧ state w' = state w
      ∧ current w' = <["isTransitioning"%string := VBool false]> (current w)
      ∧ emitted w' = emitted w ++ [("transition:end"%string, PNone)]
      ∧ transitionTimeout w' = None.
Proof.
  intros Hs. unfold finalizeTransition.
  destruct (write_spec w "isTransitioning" (VBool false) Hs)
    as (w1 & E1 & Hs1 & Hc1 & He1 & _).
  eexists. split; [unfold bind; rewrite E1; reflexivity|].
  simpl. repeat split; try congruence.
  change (current (set_emitted _ (set_timeout None w1))) with (current w1).
  exact Hc1.
Qed.





(** *** Preloading *)

Lemma updateStateBody_same_selection (rec : list (string * Value) -> M Value)
    (p : list (string * Value)) (w : Store) :
  "selectedNode"%string ∉ p.*1 →
  updateStateBody (handleStateChange rec) p w
  = updateStateBody handleOtherChanges p w.
Proof.
  intros Hp. unfold updateStateBody, updateStateTry, tryCatch, bind.
  destruct (read "isDestroying" w) as [[d| |] w0]; try reflexivity.
  destruct (truthy d); [reflexivity|].
  destruct (startTransition w0) as [[[]| |] w1]; try reflexivity.
  unfold snapshot, replaceState, thisState. cbn [state set_state].
  rewrite handleStateChange_same_selection; [reflexivity|].
  unfold objAt. cbn [heap set_state set_heap]. rewrite lookup_insert_eq.
  apply get_assign_notin. exact Hp.
Qed.

Lemma quietCache_of_fields {A : Type} (m : M A) :
  (∀ w, calls (m w).2 = calls w ∧ loaded (m w).2 = loaded w) →
  preserves quietCache m.
Proof.
  intros Hm w r w' Heq. specialize (Hm w). rewrite Heq in Hm. simpl in Hm.
  destruct Hm as [Hc Hl]. split; [rewrite Hc; reflexivity | exact Hl].
Qed.

Lemma preloads_snoc (cs : list ExtCall) (c : ExtCall) :
  preloads (cs ++ [c])
  = preloads cs ++ match c with CPreload id => [id] | _ => [] end.
Proof. unfold preloads. rewrite flat_map_app. simpl. rewrite app_nil_r. reflexivity. Qed.

Lemma quietCache_call (c : ExtCall) (o : option Value) :
  match c with CPreload _ => False | _ => True end →
  preserves quietCache (call c o).
Proof.
  intros Hc w r w' Heq.
  assert (Hw : calls w' = calls w ++ [c] ∧ loaded w' = loaded w).
  { unfold call in Heq. destruct o; inversion Heq; split; reflexivity. }
  destruct Hw as [Hcalls Hl]. split; [|exact Hl].
  rewrite Hcalls, preloads_snoc. destruct c; try contradiction; apply app_nil_r.
Qed.

Lemma quietCache_writeAt (a : nat) (k : string) (v : Value) :
  preserves quietCache (writeAt a k v).
Proof. apply quietCache_of_fields. intros w; split; reflexivity. Qed.

Lemma quietCache_emit (n : string) (d : Payload) : preserves quietCache (emit n d).
Proof. apply quietCache_of_fields. intros w; split; reflexivity. Qed.

Lemma quietCache_setTimeout (d : Z) : preserves quietCache (setTimeout d).
Proof. apply quietCache_of_fields. intros w; split; reflexivity. Qed.

Lemma quietCache_clearTransitionTimeout : preserves quietCache clearTransitionTimeout.
Proof.
  apply quietCache_of_fields. intros w. unfold clearTransitionTimeout.
  destruct (transitionTimeout w); split; reflexivity.
Qed.

Lemma quietCache_setTransitionTimeout (t : option nat) :
  preserves quietCache (setTransitionTimeout t).
Proof. apply quietCache_of_fields. intros w; split; reflexivity. Qed.

Lemma quietCache_replaceState (p : list (string * Value)) :
  preserves quietCache (replaceState p).
Proof. apply quietCache_of_fields. intros w; split; reflexivity. Qed.

Ltac quietCache_prim :=
  first
    [ apply quietCache_writeAt | apply quietCache_emit
    | apply quietCache_call; exact I
    | apply quietCache_setTimeout | apply quietCache_clearTransitionTimeout
    | apply quietCache_setTransitionTimeout | apply quietCache_replaceState ].

Lemma quietCache_emitChanges (p : list (string * Value)) (old : gmap string Value) :
  preserves quietCache (emitChanges p old).
Proof. apply preserves_forEach; [tc|]. intros k _. pres quietCache_prim. Qed.

(** A nested [updateState({isTransitioning})] requests no preload. *)
Lemma quietCache_nested (fuel : nat) (b : bool) :
  preserves quietCache (updateState fuel [("isTransitioning"%string, VBool b)]).
Proof.
  destruct fuel as [|f].
  - apply quietCache_of_fields. intros w; split; reflexivity.
  - intros w r w' Heq. simpl in Heq.
    rewrite updateStateBody_same_selection in Heq
      by (simpl; intros Hin; apply list_elem_of_singleton in Hin; discriminate Hin).
    revert w r w' Heq.
    change (preserves quietCache
              (updateStateBody handleOtherChanges
                 [("isTransitioning"%string, VBool b)])).
    unfold updateStateBody, updateStateTry, startTransition, handleOtherChanges,
      handleTransitionError, endTransition, finalizeTransition.
    pres ltac:(first [ quietCache_prim | apply quietCache_emitChanges ]).
Qed.

(** The [try] block of the selection handler, with its [catch]. *)
Lemma preload_step (newNode oldNode : Value) (w : Store)
    (r : Result unit) (w' : Store) :
  tryCatch
    (when (truthy newNode)
       (has <- contentLoadedHas (idOf newNode) ;;
        when (negb has)
          (call (CPreload (idOf newNode)) (preload (idOf newNode)) ;;;
           contentLoadedAdd (idOf newNode))) ;;;
     call (CUpdateSelection newNode oldNode) (updateSelection newNode oldNode))
    (fun error => call (CHostError error) None) w = (r, w') →
  (preloads (calls w') = preloads (calls w) ∧ loaded w' = loaded w)
  ∨ (preloads (calls w') = preloads (calls w) ++ [idOf newNode]
     ∧ truthy newNode = true
     ∧ (idOf newNode ∉ loaded w)
     ∧ loaded w'
       = match preload (idOf newNode) with
         | None => loaded w ++ [idOf newNode]
         | Some _ => loaded w
         end).
Proof.
  set (id := idOf newNode).
  unfold tryCatch, bind, when, contentLoadedHas, contentLoadedAdd, read, bind,
    thisState, readAt, loadedHas, loadedAdd, call, throw, ret.
  destruct (truthy newNode) eqn:Htruthy.
  2:{ destruct (updateSelection newNode oldNode); intros [= <- <-]; left;
        simpl; rewrite ?preloads_snoc, ?app_nil_r; split; reflexivity. }
  destruct (state w) as [a|] eqn:Hst.
  2:{ intros [= <- <-]. left. simpl.
      rewrite ?preloads_snoc, ?app_nil_r; split; reflexivity. }
  destruct (bool_decide (get (objAt w a) "contentLoaded" = contentLoadedRef)) eqn:Hc.
  2:{ intros [= <- <-]. left. simpl.
      rewrite ?preloads_snoc, ?app_nil_r; split; reflexivity. }
  destruct (bool_decide (id ∈ loaded w)) eqn:Hin; cbn [negb].
  { destruct (updateSelection newNode oldNode); intros [= <- <-]; left;
      simpl; rewrite ?preloads_snoc, ?app_nil_r; split; reflexivity. }
  apply bool_decide_eq_false in Hin.
  destruct (preload id) as [e|] eqn:Hpre.
  { intros [= <- <-]. right. simpl.
    rewrite !preloads_snoc, ?app_nil_r. simpl. rewrite ?app_nil_r. auto. }
  cbn [state set_calls]. rewrite Hst.
  change (objAt (set_calls (calls w ++ [CPreload id]) w) a) with (objAt w a).
  rewrite Hc. cbn [loaded set_calls].
  rewrite (bool_decide_eq_false_2 _ Hin).
  destruct (updateSelection newNode oldNode); intros [= <- <-]; right; simpl;
    rewrite !preloads_snoc, ?app_nil_r; simpl; rewrite ?app_nil_r; auto.
Qed.

Lemma tryFinally_inv {A : Type} (m : M A) (f : M unit) (w : Store)
    (r : Result A) (w' : Store) :
  tryFinally m f w = (r, w') →
  (m w = (OutOfFuel, w'))
  ∨ ∃ r1 w1 r2, m w = (r1, w1) ∧ f w1 = (r2, w').
Proof.
  unfold tryFinally. destruct (m w) as [[a|e|] w1] eqn:E.
  - destruct (f w1) as [[[]|e'|] w2] eqn:E2; intros [= <- <-]; right; eauto.
  - destruct (f w1) as [[[]|e'|] w2] eqn:E2; intros [= <- <-]; right; eauto.
  - intros [= <- <-]. left. reflexivity.
Qed.

Lemma handleSelectionChange_preloads (fuel : nat) (newNode oldNode : Value)
    (w : Store) (r : Result unit) (w' : Store) :
  handleSelectionChange (updateState fuel) newNode oldNode w = (r, w') →
  (preloads (calls w') = preloads (calls w) ∧ loaded w' = loaded w)
  ∨ (preloads (calls w') = preloads (calls w) ++ [idOf newNode]
     ∧ truthy newNode = true
     ∧ (idOf newNode ∉ loaded w)
     ∧ loaded w'
       = match preload (idOf newNode) with
         | None => loaded w ++ [idOf newNode]
         | Some _ => loaded w
         end).
Proof.
  unfold handleSelectionChange. intros E.
  apply bind_inv in E as [(v1 & w1 & E1 & E)|[(e & E1 & _)|[E1 _]]].
  2:{ left. exact (quietCache_nested fuel true _ _ _ E1). }
  2:{ left. exact (quietCache_nested fuel true _ _ _ E1). }
  destruct (quietCache_nested fuel true _ _ _ E1) as [Hp1 Hl1].
  apply tryFinally_inv in E as [E2|(r2 & w2 & r3 & E2 & E3)].
  - apply preload_step in E2. rewrite Hp1, Hl1 in E2. exact E2.
  - apply preload_step in E2. rewrite Hp1, Hl1 in E2.
    assert (Hq : preloads (calls w') = preloads (calls w2)
                 ∧ loaded w' = loaded w2).
    { apply bind_inv in E3 as [(v3 & w3 & E3 & E4)|[(e & E3 & _)|[E3 _]]].
      - inversion E4; subst. exact (quietCache_nested fuel false _ _ _ E3).
      - exact (quietCache_nested fuel false _ _ _ E3).
      - exact (quietCache_nested fuel false _ _ _ E3). }
    destruct Hq as [Ha Hb]. rewrite Ha, Hb. exact E2.
Qed.

(** C5.  The selection handler requests no preload, and leaves the set of
    loaded ids as it is, when the id of the new node is already in the set;
    in every case it requests at most one preload, only for a new node
    that is not null and whose id is not in the set, and that id is added
    to the set once the preload has completed. *)
Theorem preload_idempotent (fuel : nat) (newNode oldNode : Value) (w : Store) :
  let w' := (handleSelectionChange (updateState fuel) newNode oldNode w).2 in
  let id := idOf newNode in
  (id ∈ loaded w →
     preloads (calls w') = preloads (calls w) ∧ loaded w' = loaded w)
  ∧ ((preloads (calls w') = preloads (calls w) ∧ loaded w' = loaded w)
     ∨ (preloads (calls w') = preloads (calls w) ++ [id]
        ∧ truthy newNode = true
        ∧ (id ∉ loaded w)
        ∧ loaded w'
          = match preload id with
            | None => loaded w ++ [id]
            | Some _ => loaded w
            end)).
Proof.
  intros w' id. subst w' id.
  destruct (handleSelectionChange (updateState fuel) newNode oldNode w)
    as [r w'] eqn:E.
  cbn [snd].
  pose proof (handleSelectionChange_preloads _ _ _ _ _ _ E) as Hmain.
  split; [|exact Hmain].
  intros Hin. destruct Hmain as [Hq|(_ & _ & Hnot & _)]; [exact Hq|contradiction].
Qed.

(** *** The recursion budget *)

Lemma terminates_ret {A : Type} (a : A) : terminates (ret a).
Proof. intros w. discriminate. Qed.

Lemma terminates_throw {A : Type} (e : Value) : terminates (@throw A e).
Proof. intros w. discriminate. Qed.

Lemma terminates_bind {A B : Type} (m : M A) (k : A -> M B) :
  terminates m → (∀ a, terminates (k a)) → terminates (bind m k).
Proof.
  intros Hm Hk w. unfold bind. specialize (Hm w).
  destruct (m w) as [[a|e|] w1]; simpl in *.
  - apply Hk.
  - discriminate.
  - contradiction.
Qed.

Lemma terminates_tryCatch {A : Type} (m : M A) (h : Value -> M A) :
  terminates m → (∀ e, terminates (h e)) → terminates (tryCatch m h).
Proof.
  intros Hm Hh w. unfold tryCatch. specialize (Hm w).
  destruct (m w) as [[a|e|] w1]; simpl in *.
  - discriminate.
  - apply Hh.
  - contradiction.
Qed.

Lemma terminates_tryFinally {A : Type} (m : M A) (f : M unit) :
  terminates m → terminates f → terminates (tryFinally m f).
Proof.
  intros Hm Hf w. unfold tryFinally. specialize (Hm w).
  destruct (m w) as [[a|e|] w1]; simpl in *; try contradiction;
    specialize (Hf w1); destruct (f w1) as [[[]|e'|] w2]; simpl in *;
    try discriminate; contradiction.
Qed.

Lemma terminates_when (b : bool) (m : M unit) :
  terminates m → terminates (when b m).
Proof. intros Hm. destruct b; [exact Hm | apply terminates_ret]. Qed.

Lemma terminates_forEach {A : Type} (f : A -> M unit) (xs : list A) :
  (∀ x, terminates (f x)) → terminates (forEach f xs).
Proof.
  intros Hf. induction xs as [|x xs IH]; simpl.
  - apply terminates_ret.
  - apply terminates_bind; [apply Hf | intros _; exact IH].
Qed.

Lemma terminates_thisState : terminates thisState.
Proof. intros w. unfold thisState. destruct (state w); discriminate. Qed.

Lemma terminates_call (c : ExtCall) (o : option Value) : terminates (call c o).
Proof. intros w. unfold call. destruct o; discriminate. Qed.

Lemma terminates_clearTransitionTimeout : terminates clearTransitionTimeout.
Proof.
  intros w. unfold clearTransitionTimeout.
  destruct (transitionTimeout w); discriminate.
Qed.

Ltac term_step :=
  first
    [ assumption
    | apply terminates_ret | apply terminates_throw | apply terminates_thisState
    | apply terminates_call | apply terminates_clearTransitionTimeout
    | apply terminates_when
    | apply terminates_forEach; intros ?
    | apply terminates_tryCatch; [| intros ?]
    | apply terminates_tryFinally
    | apply terminates_bind; [| intros ?]
    | match goal with
      | |- terminates (match ?x with _ => _ end) => destruct x
      end
    | solve [intros ?; discriminate] ].

Ltac term_with special := repeat first [ special | term_step ].

Ltac term := term_with fail.

Lemma terminates_handleSelectionChange
    (rec : list (string * Value) -> M Value) (newNode oldNode : Value) :
  (∀ b, terminates (rec [("isTransitioning"%string, VBool b)])) →
  terminates (handleSelectionChange rec newNode oldNode).
Proof.
  intros Hrec.
  unfold handleSelectionChange, contentLoadedHas, contentLoadedAdd, read.
  term_with ltac:(apply Hrec).
Qed.

Lemma terminates_updateStateBody (hsc : gmap string Value -> nat -> M unit)
    (p : list (string * Value)) :
  (∀ old s, terminates (hsc old s)) → terminates (updateStateBody hsc p).
Proof.
  intros Hh.
  unfold updateStateBody, updateStateTry, startTransition, emitChanges,
    handleTransitionError, endTransition, finalizeTransition, read, write.
  term_with ltac:(apply Hh).
Qed.

Lemma terminates_handleOtherChanges (old : gmap string Value) (s : nat) :
  terminates (handleOtherChanges old s).
Proof. unfold handleOtherChanges. term. Qed.

Lemma terminates_nested (fuel : nat) (b : bool) :
  terminates (updateState (S fuel) [("isTransitioning"%string, VBool b)]).
Proof.
  intros w. simpl.
  rewrite updateStateBody_same_selection
    by (simpl; intros Hin; apply list_elem_of_singleton in Hin; discriminate Hin).
  apply terminates_updateStateBody. apply terminates_handleOtherChanges.
Qed.

(** Two levels of calls are all that [updateState] ever needs: the call
    itself and the transition updates of the selection handler. *)
Lemma updateState_terminates (fuel : nat) (p : list (string * Value)) :
  terminates (updateState (S (S fuel)) p).
Proof.
  change (updateState (S (S fuel)) p)
    with (updateStateBody (handleStateChange (updateState (S fuel))) p).
  apply terminates_updateStateBody. intros old s.
  unfold handleStateChange.
  term_with ltac:(first [ apply terminates_handleOtherChanges
                        | apply terminates_handleSelectionChange; intros ?
                        | apply terminates_nested ]).
Qed.

(** More budget changes nothing. *)
Lemma nested_fuel_irrelevant (fuel : nat) (b : bool) (w : Store) :
  updateState (S fuel) [("isTransitioning"%string, VBool b)] w
  = updateState 1 [("isTransitioning"%string, VBool b)] w.
Proof.
  simpl.
  rewrite !updateStateBody_same_selection
    by (simpl; intros Hin; apply list_elem_of_singleton in Hin; discriminate Hin).
  reflexivity.
Qed.

Lemma updateState_fuel_irrelevant (fuel : nat) (p : list (string * Value))
    (w : Store) :
  updateState (S (S fuel)) p w = updateState 2 p w.
Proof.
  change (updateState (S (S fuel)) p)
    with (updateStateBody (handleStateChange (updateState (S fuel))) p).
  change (updateState 2 p)
    with (updateStateBody (handleStateChange (updateState 1)) p).
  assert (Hrec : ∀ old s w0,
            handleStateChange (updateState (S fuel)) old s w0
            = handleStateChange (updateState 1) old s w0).
  { intros old s w0. unfold handleStateChange, handleSelectionChange, bind.
    destruct (readAt s "selectedNode" w0) as [[sel| |] w1]; try reflexivity.
    destruct (strict_ne sel (get old "selectedNode")); [|reflexivity].
    cbn [when].
    destruct (when (truthy (get old "selectedNode"))
                (writeAt s "previousNode" (get old "selectedNode")) w1)
      as [[[]| |] w2]; try reflexivity.
    destruct (readAt s "selectedNode" w2) as [[sel'| |] w3]; try reflexivity.
    rewrite (nested_fuel_irrelevant fuel true w3).
    destruct (updateState 1 [("isTransitioning"%string, VBool true)] w3)
      as [[v| |] w4]; try reflexivity.
    unfold tryFinally.
    match goal with
    | |- context [tryCatch ?m ?h w4] => destruct (tryCatch m h w4) as [r5 w5]
    end.
    rewrite (nested_fuel_irrelevant fuel false w5). reflexivity. }
  unfold updateStateBody, updateStateTry, tryCatch, bind.
  destruct (read "isDestroying" w) as [[d| |] w0]; try reflexivity.
  destruct (truthy d); [reflexivity|].
  destruct (startTransition w0) as [[[]| |] w1]; try reflexivity.
  unfold snapshot, replaceState, thisState. cbn [state set_state].
  rewrite Hrec. reflexivity.
Qed.

End StoreProps.

(** ** The state store on concrete runs *)

Section StoreExamples.
Import JS StateManager StoreLogic.

(** C1, as stated, fails.  [updateState({isUpdating: true})] on a fresh
    manager returns [true] and changes [isTransitioning] from [false] to
    [true], yet emits no [isTransitioningChange]; and selecting node 2
    while node 1 is selected changes [previousNode] from [null] to node 1,
    yet emits no [previousNodeChange]. *)
Lemma changed_field_without_event :
  (@updateState asWritten 2 [("isUpdating"%string, VBool true)] exampleStore).1
    = Ret (VBool true)
  ∧ get (current exampleStore) "isTransitioning" = VBool false
  ∧ get (current
           (@updateState asWritten 2 [("isUpdating"%string, VBool true)]
              exampleStore).2) "isTransitioning" = VBool true
  ∧ Forall (fun ev => ev.1 ≠ "isTransitioningChange"%string)
      (emitted
         (@updateState asWritten 2 [("isUpdating"%string, VBool true)]
            exampleStore).2)
  ∧ (@updateState completed 2 [("selectedNode"%string, VRef 2)]
       storeWithSelection).1 = Ret (VBool true)
  ∧ get (current storeWithSelection) "previousNode" = VNull
  ∧ get (current
           (@updateState completed 2 [("selectedNode"%string, VRef 2)]
              storeWithSelection).2) "previousNode" = VRef 1
  ∧ Forall (fun ev => ev.1 ≠ "previousNodeChange"%string)
      (emitted
         (@updateState completed 2 [("selectedNode"%string, VRef 2)]
            storeWithSelection).2).
Proof.
  split; [vm_compute; reflexivity|].
  split; [vm_compute; reflexivity|].
  split; [vm_compute; reflexivity|].
  split; [vm_compute; repeat constructor; discriminate|].
  split; [vm_compute; reflexivity|].
  split; [vm_compute; reflexivity|].
  split; [vm_compute; reflexivity|].
  vm_compute; repeat constructor; discriminate.
Qed.

(** The amended C1 on [updateState({isUpdating: true})]. *)
Lemma updateState_change_events_example :
  ∃ mid,
    emitted
      (@updateState asWritten 2 [("isUpdating"%string, VBool true)] exampleStore).2
    = emitted exampleStore ++ [("transition:start"%string, PNone)] ++ mid
        ++ changeEvents [("isUpdating"%string, VBool true)]
             (<["isTransitioning"%string := VBool true]> (current exampleStore))
             (clock exampleStore)
    ∧ Forall transitionEvent mid.
Proof.
  refine (proj1 (@updateState_change_events asWritten 2
                   [("isUpdating"%string, VBool true)] exampleStore _)).
  vm_compute. reflexivity.
Defined.



(** C3 on the sources as they stand: a data change makes
    [handleStateChange] call a method the class does not have. *)
Lemma updateState_error_propagates_example :
  (@updateState asWritten 2 [("data"%string, VRef 9)] exampleStore).1
    = Throw notAFunction
  ∧ get (current (@updateState asWritten 2 [("data"%string, VRef 9)]
                    exampleStore).2) "error" = notAFunction
  ∧ get (current (@updateState asWritten 2 [("data"%string, VRef 9)]
                    exampleStore).2) "isError" = VBool true
  ∧ get (current (@updateState asWritten 2 [("data"%string, VRef 9)]
                    exampleStore).2) "isTransitioning" = VBool false
  ∧ last (emitted (@updateState asWritten 2 [("data"%string, VRef 9)]
                     exampleStore).2)
    = Some ("transition:error"%string, PError notAFunction).
Proof.
  apply (@updateState_error_propagates asWritten 1
           [("data"%string, VRef 9)] exampleStore notAFunction).
  - eexists. reflexivity.
  - vm_compute. reflexivity.
  - vm_compute. reflexivity.
Defined.

(** C5 on a manager that has already loaded the content of node 1:
    selecting node 1 again requests nothing. *)
Lemma preload_idempotent_example :
  preloads (calls (@handleSelectionChange completed (@updateState completed 2)
                     (VRef 1) VNull storeWithSelection).2)
    = preloads (calls storeWithSelection)
  ∧ loaded (@handleSelectionChange completed (@updateState completed 2)
              (VRef 1) VNull storeWithSelection).2
    = loaded storeWithSelection.
Proof.
  apply (proj1 (@preload_idempotent completed 2 (VRef 1) VNull storeWithSelection)).
  apply list_elem_of_In. vm_compute. left. reflexivity.
Defined.

(** Selecting node 1, then node 2, then node 1 again requests two preloads,
    whether the missing methods are supplied or not. *)
Lemma three_selections_two_preloads :
  preloads
    (calls
       (@updateState completed 2 [("selectedNode"%string, VRef 1)]
          (@updateState completed 2 [("selectedNode"%string, VRef 2)]
             storeWithSelection).2).2)
    = [VNum 1; VNum 2]
  ∧ preloads
      (calls
         (@updateState asWritten 2 [("selectedNode"%string, VRef 1)]
            (@updateState asWritten 2 [("selectedNode"%string, VRef 2)]
               (@updateState asWritten 2 [("selectedNode"%string, VRef 1)]
                  exampleStore).2).2).2)
    = [VNum 1; VNum 2].
Proof. split; vm_compute; reflexivity. Qed.

End StoreExamples.

(** ** The reconcilers *)

Section ReconcilerProps.
Import JS Scene.




(** The same for the path manager and the outer element manager. *)
Lemma back_to_back_updates_paths_outer :
  (∃ m1,
     PathManager.update_begin (Some exampleTree') PathManager.exampleManager
       = Some m1
     ∧ PathManager.update (Some exampleTree) true m1 = (VUndefined, m1)
     ∧ PathManager.started (PathManager.update (Some exampleTree) true m1).2
       = PathManager.started m1)
  ∧ (∃ t1 m1,
       OuterElementManager.update_begin (Some exampleTree')
         OuterElementManager.exampleManager = Some (t1, m1)
       ∧ OuterElementManager.update (Some exampleTree) true m1 = (VUndefined, m1)
       ∧ OuterElementManager.update (Some exampleTree) true
           (OuterElementManager.update_step true t1 m1).2
         = (VUndefined, (OuterElementManager.update_step true t1 m1).2)).
Proof.
  split.
  - eexists. split; [reflexivity|]. split; reflexivity.
  - eexists _, _. split; [reflexivity|]. split; reflexivity.
Qed.

End ReconcilerProps.

(** ** Tearing down *)

Section DestroyProps.
Import JS.

(** Whatever the outside methods do: once a [destroy] has run to its end,
    a second one throws, because the first dropped the state manager that
    the second starts by calling; and no [destroy] of the controller
    touches the element maps of the reconcilers. *)
Lemma destroy_not_idempotent
    `{StateManager.Collaborators} `{CircularNavManager.Absent}
    (c : CircularNavManager.Controller) :
  (CircularNavManager.destroy c).1 = StateManager.Ret tt →
  (CircularNavManager.destroy (CircularNavManager.destroy c).2).1
    = StateManager.Throw StateManager.nullAccess.
Proof.
  unfold CircularNavManager.destroy.
  destruct (CircularNavManager.state c) as [s|]; [|discriminate].
  destruct (StateManager.updateState 2 _ s) as [[v|e|] s1]; try discriminate.
  destruct CircularNavManager.removeAllListeners; [discriminate|].
  cbn [CircularNavManager.cache CircularNavManager.with_state
       CircularNavManager.with_classes CircularNavManager.display
       CircularNavManager.with_display CircularNavManager.viz
       CircularNavManager.vizDestroy
       CircularNavManager.settings CircularNavManager.controls].
  destruct (CircularNavManager.callOn _ CircularNavManager.cacheClear);
    [discriminate|].
  destruct (CircularNavManager.display c); [|discriminate].
  destruct (CircularNavManager.callOn (CircularNavManager.viz c) None);
    [discriminate|].
  destruct (CircularNavManager.callOn _ CircularNavManager.settingsDestroy);
    [discriminate|].
  destruct (CircularNavManager.callOn _ CircularNavManager.controlsDestroy);
    [discriminate|].
  intros _. reflexivity.
Qed.

Lemma destroy_keeps_element_maps
    `{StateManager.Collaborators} `{CircularNavManager.Absent}
    (c : CircularNavManager.Controller) :
  let c' := (CircularNavManager.destroy c).2 in
  NodeManager.nodeElements (CircularNavManager.nodes c')
    = NodeManager.nodeElements (CircularNavManager.nodes c)
  ∧ PathManager.pathElements (CircularNavManager.paths c')
    = PathManager.pathElements (CircularNavManager.paths c)
  ∧ OuterElementManager.indicatorElements (CircularNavManager.outer c')
    = OuterElementManager.indicatorElements (CircularNavManager.outer c)
  ∧ OuterElementManager.labelElements (CircularNavManager.outer c')
    = OuterElementManager.labelElements (CircularNavManager.outer c).
Proof.
  unfold CircularNavManager.destroy.
  repeat match goal with
         | |- context [match ?x with _ => _ end] => destruct x
         end; repeat split.
Qed.

(** C4 does not hold of the code.  On an initialized instance, with the
    sources as they stand the first [destroy] already throws (the state
    manager has no [removeAllListeners]); with that method supplied the
    first [destroy] completes and the second throws on the dropped state
    manager.  After the completed [destroy] the four element maps still
    hold their entries, and the node manager's own [destroy], unlike those
    of the path and outer element managers, does not clear its map. *)
Theorem destroy_twice_throws :
  (@CircularNavManager.destroy StateManager.asWritten CircularNavManager.asWritten
     CircularNavManager.exampleController).1
    = StateManager.Throw StateManager.notAFunction
  ∧ (@CircularNavManager.destroy StateManager.completed CircularNavManager.completed
       CircularNavManager.exampleController).1 = StateManager.Ret tt
  ∧ (@CircularNavManager.destroy StateManager.completed CircularNavManager.completed
       (@CircularNavManager.destroy StateManager.completed
          CircularNavManager.completed
          CircularNavManager.exampleController).2).1
    = StateManager.Throw StateManager.nullAccess
  ∧ (let c := (@CircularNavManager.destroy StateManager.completed
                 CircularNavManager.completed
                 CircularNavManager.exampleController).2 in
     dom (NodeManager.nodeElements (CircularNavManager.nodes c))
       = {["R"; "A1"; "A2"]}%string
     ∧ dom (PathManager.pathElements (CircularNavManager.paths c))
       = {["R-A1"; "R-A2"; "A1-B1"; "A1-B2"]}%string
     ∧ dom (OuterElementManager.indicatorElements (CircularNavManager.outer c))
       = {["B1"; "B2"]}%string
     ∧ dom (OuterElementManager.labelElements (CircularNavManager.outer c))
       = {["B1"; "B2"]}%string)
  ∧ NodeManager.nodeElements (NodeManager.destroy NodeManager.exampleManager)
    = NodeManager.nodeElements NodeManager.exampleManager
  ∧ PathManager.pathElements (PathManager.destroy PathManager.exampleManager) = ∅
  ∧ OuterElementManager.indicatorElements
      (OuterElementManager.destroy OuterElementManager.exampleManager) = ∅
  ∧ OuterElementManager.labelElements
      (OuterElementManager.destroy OuterElementManager.exampleManager) = ∅.
Proof.
  split; [vm_compute; reflexivity|].
  split; [vm_compute; reflexivity|].
  split; [vm_compute; reflexivity|].
  split; [cbv zeta; repeat split; vm_compute; reflexivity|].
  repeat split; reflexivity.
Qed.

End DestroyProps.

(* ===================================================================== *)
(** * Part II, continued: properties of the rest of the sources          *)
(* ===================================================================== *)

(** ** Numbers: arithmetic on doubles *)

Section DoublesProps.
Import Doubles.
Local Open Scope Q_scope.

Lemma exact_monotone : Monotone exact.
Proof.
  split; [|reflexivity].
  intros x y a b Hxy [= <-] [= <-]. exact Hxy.
Qed.

Lemma nearest_monotone (k : positive) : Monotone (nearest k).
Proof.
  split; [|reflexivity].
  intros x y a b Hxy [= <-] [= <-]. rewrite !Qred_correct.
  assert (Hf : (Qfloor (x * inject_Z (Z.pos k) + (1 # 2))
                <= Qfloor (y * inject_Z (Z.pos k) + (1 # 2)))%Z).
  { apply Qfloor_resp_le. apply Qplus_le_l.
    apply Qmult_le_compat_r; [exact Hxy|]. unfold Qle. simpl. lia. }
  unfold Qle. simpl. apply Z.mul_le_mono_nonneg_r; [lia|exact Hf].
Qed.

End DoublesProps.

(** ** PathManager: style calculations *)

Section PathStyleProps.
Import Hierarchy PathManager PathStyles.

(** X1.  In a tree whose nodes lie one level below their parents, an edge
    that [isActivePath] classifies as active is never hidden:
    [getPathOpacity] gives it opacity 1, whatever the selection. *)
Theorem active_link_opaque (h : Heap) (l : Link) (s : option nat) :
  levelled h →
  parent (h (target l)) = Some (source l) →
  isActivePath h (Some l) s = true →
  getPathOpacity h l s = 1%Q.
Proof.
  intros Hlev Hedge Hact.
  unfold getPathOpacity.
  destruct (Nat.eqb (depth (h (source l))) 1) eqn:Hs; [|reflexivity].
  destruct (Nat.eqb (depth (h (target l))) 2) eqn:Ht; [|reflexivity].
  apply Nat.eqb_eq in Hs, Ht. simpl andb. cbv iota.
  destruct s as [n|]; [|discriminate Hact].
  simpl in Hact.
  destruct (Nat.eqb (depth (h n)) 0) eqn:H0; [reflexivity|].
  destruct (Nat.eqb (depth (h n)) 1) eqn:H1.
  - apply Nat.eqb_eq in H1.
    apply orb_true_iff in Hact as [Hact|Hact].
    + apply andb_true_iff in Hact as [_ Hact]. apply Nat.eqb_eq in Hact.
      subst n. congruence.
    + rewrite Hact. reflexivity.
  - destruct (Nat.eqb (depth (h n)) 2) eqn:H2; [|discriminate Hact].
    apply Nat.eqb_eq in H2.
    rewrite !orb_true_iff, !andb_true_iff, !bool_decide_eq_true, !same_true,
      Nat.eqb_eq in Hact.
    destruct Hact as [[Hact|[Hsome Hact]]|[[_ Hg] Hp]].
    + subst n. rewrite Hedge. simpl. rewrite Nat.eqb_refl. reflexivity.
    + rewrite Hact. simpl. rewrite Nat.eqb_refl. reflexivity.
    + pose proof (Hlev _ _ Hp) as Hd. rewrite H2, Ht in Hd. lia.
Qed.

(** X1 on the example tree: the edge [A -> D] with [D] selected. *)
Lemma active_link_opaque_example :
  getPathOpacity exampleTree (mkLink 1 4) (Some 4%nat) = 1%Q.
Proof.
  apply (active_link_opaque exampleTree (mkLink 1 4) (Some 4%nat)).
  - intros n p Hp.
    destruct n as [|[|[|[|[|[|n]]]]]]; simpl in Hp; try discriminate;
      injection Hp as <-; reflexivity.
  - reflexivity.
  - reflexivity.
Defined.

(** X2.  With nothing selected every link gets the opacity it was created
    with: [getPathOpacity(link, null)] and [getInitialOpacity(link)]
    agree, so the links from depth 1 to depth 2 stay hidden. *)
Theorem unselected_opacity_is_initial (h : Heap) (l : Link) :
  getPathOpacity h l None = getInitialOpacity h l
  ∧ (depth (h (source l)) = 1%nat ∧ depth (h (target l)) = 2%nat ↔
       getPathOpacity h l None = 0%Q).
Proof.
  unfold getPathOpacity, getInitialOpacity.
  destruct (depth (h (source l))) as [|[|d]] eqn:Hs; simpl;
    destruct (depth (h (target l))) as [|[|[|d']]] eqn:Ht; simpl;
    (split; [reflexivity|]); split; intros H; try discriminate H;
    try (destruct H; discriminate); try (destruct H; lia); auto.
Qed.

(** X3.  When a node of depth 2 is selected, every link that leaves its
    parent is styled as active (active colour, one and a half times the
    link width), and those that lead to another child are dashed as
    sibling paths as well: the inactive colour is never used for them. *)
Theorem links_of_selected_parent_active
    (config : PathConfig) (h : Heap) (l : Link) (s p : nat) :
  depth (h s) = 2%nat →
  parent (h s) = Some p →
  source l = p →
  getPathColor config h l (Some s) = pathActive config
  ∧ getPathWidth config h l (Some s) = (linkWidth config * (15 # 10))%Q
  ∧ (target l ≠ s → strokeDasharray h l (Some s) = Some "5,5"%string).
Proof.
  intros Hd Hp Hs.
  assert (Hact : isActivePath h (Some l) (Some s) = true).
  { simpl. rewrite Hd. simpl. rewrite Hp, Hs. simpl.
    rewrite ?bool_decide_eq_true_2 by (eexists; reflexivity). rewrite Nat.eqb_refl.
    rewrite orb_true_r. reflexivity. }
  unfold getPathColor, getPathWidth, strokeDasharray. rewrite Hact.
  split; [reflexivity|]. split; [reflexivity|].
  intros Hne. simpl. rewrite Hd. simpl. rewrite Hp, Hs. simpl.
  rewrite ?bool_decide_eq_true_2 by (eexists; reflexivity). rewrite Nat.eqb_refl.
  apply Nat.eqb_neq in Hne. rewrite Hne. reflexivity.
Qed.

(** X3 on the example tree: [D] selected, the link [A -> C]. *)
Lemma links_of_selected_parent_active_example :
  getPathColor (mkPathConfig "red" "grey" "black" 2) exampleTree (mkLink 1 3)
    (Some 4%nat) = "red"%string
  ∧ getPathWidth (mkPathConfig "red" "grey" "black" 2) exampleTree (mkLink 1 3)
      (Some 4%nat) = (2 * (15 # 10))%Q
  ∧ (3%nat ≠ 4%nat →
     strokeDasharray exampleTree (mkLink 1 3) (Some 4%nat) = Some "5,5"%string).
Proof.
  apply (links_of_selected_parent_active
           (mkPathConfig "red" "grey" "black" 2) exampleTree (mkLink 1 3) 4 1);
    reflexivity.
Defined.

End PathStyleProps.

(** ** NodeManager: style calculations *)

Section NodeStyleProps.
Import Hierarchy NodeManager NodeStyles.

(** X4.  The colours of a node follow its active state alone: the text
    colour is the active one exactly on the nodes [isActiveNode] accepts
    (the root is always among them), a node below the root has the same
    fill and border colour, and a sibling of the selection is filled like
    any other inactive node. *)
Theorem node_colours_follow_active
    (config : NodeColors) (h : Heap) (n : nat) (s : option nat) :
  getNodeTextColor config h n s
    = (if isActiveNode h n s then textActive config else textDefault config)
  ∧ (depth (h n) = 0%nat → isActiveNode h n s = true)
  ∧ (depth (h n) ≠ 0%nat →
       getNodeBorderColor config h n s = getNodeColor config h n s
       ∧ getNodeColor config h n s
           = (if isActiveNode h n s then nodeActive config else nodeDefault config)).
Proof.
  unfold getNodeTextColor, getNodeBorderColor, getNodeColor.
  assert (Hroot : depth (h n) = 0%nat → isActiveNode h n s = true).
  { intros Hd. destruct s as [s|]; simpl; rewrite Hd; simpl;
      [apply orb_true_r|reflexivity]. }
  split; [|split; [exact Hroot|]].
  - destruct (Nat.eqb (depth (h n)) 0) eqn:Hd; [|reflexivity].
    apply Nat.eqb_eq in Hd. rewrite (Hroot Hd). reflexivity.
  - intros Hd. apply Nat.eqb_neq in Hd. rewrite Hd.
    destruct (isActiveNode h n s); [split; reflexivity|].
    destruct (isSiblingNode h n s); split; reflexivity.
Qed.

End NodeStyleProps.

(** ** OuterElementManager: indicator and label states *)

Section OuterStateProps.
Import Hierarchy OuterStates.

(** X5.  For an outer node (depth 2): an indicator that pulses is active,
    and a label that is active is not faded, so it is drawn at full
    opacity. *)
Theorem active_label_not_faded (h : Heap) (n : nat) (s : option nat) :
  depth (h n) = 2%nat →
  (shouldPulse h n s = true → isActiveIndicator h n s = true)
  ∧ (isActiveLabel h n s = true →
       isFadedLabel h n s = false ∧ getLabelOpacity h n s = 1%Q).
Proof.
  intros Hd. split.
  - destruct s as [s|]; simpl; [|discriminate].
    intros [Hn _]%andb_true_iff. rewrite Hn. reflexivity.
  - intros Hact.
    assert (Hf : isFadedLabel h n s = false).
    { destruct s as [s|]; [|reflexivity]. simpl in *.
      destruct (Nat.eqb (depth (h s)) 0) eqn:H0; [reflexivity|].
      apply orb_true_iff in Hact as [Hact|Hact].
      - apply Nat.eqb_eq in Hact. subst s. rewrite Hd. simpl.
        rewrite Nat.eqb_refl. reflexivity.
      - apply andb_true_iff in Hact as [H1 Hp]. rewrite H1, Hp. reflexivity. }
    split; [exact Hf|]. unfold getLabelOpacity. rewrite Hf. reflexivity.
Qed.

(** X5 on the example tree: the outer node [C] with its parent [A]
    selected. *)
Lemma active_label_not_faded_example :
  (shouldPulse exampleTree 3 (Some 1%nat) = true →
   isActiveIndicator exampleTree 3 (Some 1%nat) = true)
  ∧ (isActiveLabel exampleTree 3 (Some 1%nat) = true →
       isFadedLabel exampleTree 3 (Some 1%nat) = false
       ∧ getLabelOpacity exampleTree 3 (Some 1%nat) = 1%Q).
Proof.
  apply (active_label_not_faded exampleTree 3 (Some 1%nat)). reflexivity.
Defined.

End OuterStateProps.

(** ** OuterElementManager: keyboard navigation *)

Section OuterNavigationProps.
Import JS Scene OuterElementManager OuterNavigation.

Lemma indexOf_lookup (x : string) (xs : list string) (i : nat) :
  NoDup xs → xs !! i = Some x → indexOf x xs = Z.of_nat i.
Proof.
  revert i. induction xs as [|y ys IH]; intros i Hnd Hi; [discriminate|].
  apply NoDup_cons in Hnd as [Hy Hnd].
  destruct i as [|i]; simpl in *.
  - injection Hi as ->. rewrite bool_decide_eq_true_2 by reflexivity. reflexivity.
  - rewrite bool_decide_eq_false_2.
    2:{ intros ->. apply Hy. eapply list_elem_of_lookup_2. exact Hi. }
    rewrite (IH i Hnd Hi).
    destruct (Z.ltb_spec (Z.of_nat i) 0); lia.
Qed.

Lemma at_index_nat (xs : list string) (i : nat) :
  at_index xs (Some (Z.of_nat i)) = xs !! i.
Proof.
  unfold at_index. destruct (Z.ltb_spec (Z.of_nat i) 0); [lia|].
  rewrite Nat2Z.id. reflexivity.
Qed.

(** X6.  Among indicators bound to distinct ids, ArrowRight on the
    indicator at position [i] focuses the tracked element of the one at
    position [(i + 1) mod n], wrapping from the last to the first, and
    ArrowLeft from there leads back to the indicator it came from; both
    calls prevent the default action. *)
Theorem keyboard_navigation_round_trip
    (m : Manager) (ks : list string) (i : nat) (k : string) :
  indicators m = Some ks →
  NoDup ks →
  ks !! i = Some k →
  ∃ k', ks !! ((i + 1) mod length ks)%nat = Some k'
      ∧ handleKeyboardNavigation ArrowRight k m
          = Returned true (indicatorElements m !! k')
      ∧ handleKeyboardNavigation ArrowLeft k' m
          = Returned true (indicatorElements m !! k).
Proof.
  intros Hm Hnd Hi.
  pose proof (lookup_lt_Some _ _ _ Hi) as Hlt.
  set (n := length ks) in *.
  assert (Hj : ((i + 1) mod n < n)%nat) by (apply Nat.mod_upper_bound; lia).
  destruct (lookup_lt_is_Some_2 ks _ Hj) as [k' Hk'].
  exists k'. split; [exact Hk'|].
  unfold handleKeyboardNavigation. rewrite Hm. cbv zeta.
  rewrite (indexOf_lookup k ks i Hnd Hi).
  rewrite (indexOf_lookup k' ks _ Hnd Hk').
  fold n. unfold remainder.
  destruct (Z.eqb_spec (Z.of_nat n) 0); [lia|].
  assert (Hright : Z.rem (Z.of_nat i + 1) (Z.of_nat n)
                   = Z.of_nat ((i + 1) mod n)).
  { rewrite Z.rem_mod_nonneg by lia.
    rewrite Nat2Z.inj_mod. f_equal. lia. }
  assert (Hleft : Z.rem (Z.of_nat ((i + 1) mod n) - 1 + Z.of_nat n) (Z.of_nat n)
                  = Z.of_nat i).
  { destruct (decide (i + 1 = n)%nat) as [E|E].
    - rewrite E, Nat.Div0.mod_same. simpl Z.of_nat.
      rewrite Z.rem_small by lia. lia.
    - rewrite Nat.mod_small by lia.
      replace (Z.of_nat (i + 1) - 1 + Z.of_nat n)
        with (Z.of_nat i + 1 * Z.of_nat n) by lia.
      rewrite Z.rem_mod_nonneg by lia.
      rewrite Z.mod_add by lia. apply Z.mod_small. lia. }
  rewrite Hright, Hleft, !at_index_nat, Hk', Hi. split; reflexivity.
Qed.

(** X6 on the outer nodes of the example tree: from [B2], the last one,
    ArrowRight wraps to [B1] and ArrowLeft leads back. *)
Lemma keyboard_navigation_round_trip_example :
  ∃ k', outerKeys exampleTree !! ((1 + 1) mod length (outerKeys exampleTree))%nat
        = Some k'
      ∧ handleKeyboardNavigation ArrowRight "B2" exampleManager
          = Returned true (indicatorElements exampleManager !! k')
      ∧ handleKeyboardNavigation ArrowLeft k' exampleManager
          = Returned true (indicatorElements exampleManager !! "B2"%string).
Proof.
  apply (keyboard_navigation_round_trip exampleManager (outerKeys exampleTree)
           1 "B2"%string).
  - reflexivity.
  - apply (bool_decide_unpack _). vm_compute. reflexivity.
  - reflexivity.
Defined.

End OuterNavigationProps.

(** ** ZoomManager *)

Section ZoomProps.
Import ZoomManager.
Local Open Scope Q_scope.

Lemma depth_scale_ge_1 (d : nat) : 1 <= 1 + inject_Z (Z.of_nat d) * (5 # 10).
Proof.
  assert (0 <= inject_Z (Z.of_nat d)).
  { change 0 with (inject_Z 0). rewrite <- Zle_Qle. lia. }
  lra.
Qed.

(** X7.  The zoom scale of a node never exceeds [zoom.max]; when
    [zoom.min <= zoom.max] it is not below [zoom.min] either, and it is
    [1 + depth / 2] whenever that value lies within the limits; a deeper
    node never gets a smaller scale. *)
Theorem node_zoom_scale_clamped (config : ZoomConfig) (d : nat) :
  calculateNodeZoomScale config d <= zoomMax config
  ∧ (zoomMin config <= zoomMax config →
       zoomMin config <= calculateNodeZoomScale config d)
  ∧ (zoomMin config <= 1 + inject_Z (Z.of_nat d) * (5 # 10) <= zoomMax config →
       calculateNodeZoomScale config d == 1 + inject_Z (Z.of_nat d) * (5 # 10))
  ∧ (∀ d', (d <= d')%nat →
       calculateNodeZoomScale config d <= calculateNodeZoomScale config d').
Proof.
  unfold calculateNodeZoomScale.
  pose proof (depth_scale_ge_1 d) as H1.
  set (b := 1 + inject_Z (Z.of_nat d) * (5 # 10)) in *.
  destruct (Q.max_spec 1 b) as [[Hb1 Eb]|[Hb1 Eb]];
    destruct (Q.max_spec (Qmax 1 b) (zoomMin config)) as [[Hm1 Em]|[Hm1 Em]];
    destruct (Q.min_spec (Qmax (Qmax 1 b) (zoomMin config)) (zoomMax config))
      as [[Hn1 En]|[Hn1 En]];
    (split; [lra|]); (split; [intros; lra|]); (split; [intros; lra|]);
    intros d' Hd';
    pose proof (depth_scale_ge_1 d') as H1';
    assert (Hbb : b <= 1 + inject_Z (Z.of_nat d') * (5 # 10))
      by (unfold b; assert (inject_Z (Z.of_nat d) <= inject_Z (Z.of_nat d'))
            by (rewrite <- Zle_Qle; lia); lra);
    set (b' := 1 + inject_Z (Z.of_nat d') * (5 # 10)) in *;
    destruct (Q.max_spec 1 b') as [[Hb1' Eb']|[Hb1' Eb']];
    destruct (Q.max_spec (Qmax 1 b') (zoomMin config)) as [[Hm1' Em']|[Hm1' Em']];
    destruct (Q.min_spec (Qmax (Qmax 1 b') (zoomMin config)) (zoomMax config))
      as [[Hn1' En']|[Hn1' En']];
    lra.
Qed.

End ZoomProps.

(** ** DisplayManager: computed dimensions *)

Section DimensionProps.
Import DisplayManager.
Local Open Scope Q_scope.






End DimensionProps.

(** ** DisplayManager: text sizes *)

Section TypographyProps.
Import DisplayManager Doubles Typography.
Local Open Scope Q_scope.

Lemma Qmult_le_l_nonneg (k x y : Q) : 0 <= k → x <= y → k * x <= k * y.
Proof.
  intros Hk Hxy. rewrite !(Qmult_comm k). apply Qmult_le_compat_r; assumption.
Qed.

(** Without rounding the text size is the one of the exact calculation. *)
Lemma calculateFluidSize_exact (config : Config) (w minS maxS : Q) :
  ¬ large config - small config == 0 →
  @Typography.calculateFluidSize exact config w minS maxS
  = Some (DisplayManager.calculateFluidSize config w minS maxS).
Proof.
  intros Hne. unfold Typography.calculateFluidSize, sub, div, mul, add. simpl.
  destruct (Qeq_bool (large config - small config) 0) eqn:E.
  - apply Qeq_bool_iff in E. contradiction.
  - reflexivity.
Qed.

Context {R : Rounding} {M : Monotone R}.

Lemma fl_nonneg (x a : Q) : 0 <= x → fl x = Some a → 0 <= a.
Proof. intros Hx Ha. exact (fl_mono 0 x 0 a Hx fl_zero Ha). Qed.

Lemma fl_nonpos (x a : Q) : x <= 0 → fl x = Some a → a <= 0.
Proof. intros Hx Ha. exact (fl_mono x 0 a 0 Hx Ha fl_zero). Qed.

(** What a fluid size that is a finite number was computed from. *)
Lemma calculateFluidSize_inv (config : Config) (w minS maxS r : Q) :
  Typography.calculateFluidSize config w minS maxS = Some r →
  ∃ rise run slope over grown size,
    fl (maxS - minS) = Some rise
    ∧ fl (large config - small config) = Some run
    ∧ ¬ run == 0
    ∧ fl (rise / run) = Some slope
    ∧ fl (w - small config) = Some over
    ∧ fl (slope * over) = Some grown
    ∧ fl (minS + grown) = Some size
    ∧ r = Qmin maxS (Qmax minS size).
Proof.
  unfold Typography.calculateFluidSize, sub, div, mul, add. intros Hr.
  destruct (fl (maxS - minS)) as [rise|] eqn:E1; [|discriminate Hr].
  simpl in Hr.
  destruct (fl (large config - small config)) as [run|] eqn:E2; [|discriminate Hr].
  simpl in Hr.
  destruct (Qeq_bool run 0) eqn:Ez; [discriminate Hr|].
  destruct (fl (rise / run)) as [slope|] eqn:E3; [|discriminate Hr].
  simpl in Hr.
  destruct (fl (w - small config)) as [over|] eqn:E4; [|discriminate Hr].
  simpl in Hr.
  destruct (fl (slope * over)) as [grown|] eqn:E5; [|discriminate Hr].
  simpl in Hr.
  destruct (fl (minS + grown)) as [size|] eqn:E6; [|discriminate Hr].
  simpl in Hr. injection Hr as <-.
  exists rise, run, slope, over, grown, size.
  repeat split; try assumption.
  intros Hz. apply Qeq_bool_iff in Hz. congruence.
Qed.

(** X9.  In the arithmetic of doubles, whatever the rounding does beyond
    keeping the order: with [small < large], a profile size that is not
    above the large size, and a result that is a finite number, the fluid
    text size lies between the two sizes, is the profile size for a
    container no wider than the small breakpoint, and does not shrink when
    the container widens.  (At the large breakpoint the large size is
    reached only up to rounding.) *)
Theorem fluid_size_clamped (config : Config) (w w' minS maxS r r' : Q) :
  small config < large config →
  minS <= maxS →
  isDouble minS →
  Typography.calculateFluidSize config w minS maxS = Some r →
  (minS <= r <= maxS)
  ∧ (w <= small config → r == minS)
  ∧ (w <= w' → Typography.calculateFluidSize config w' minS maxS = Some r' →
     r <= r').
Proof.
  intros Hsl Hmm (m & Hm & Hmeq) Hr.
  apply calculateFluidSize_inv in Hr
    as (rise & run & slope & over & grown & size
        & E1 & E2 & Hrun & E3 & E4 & E5 & E6 & ->).
  assert (Hrise : 0 <= rise) by (apply (fl_nonneg (maxS - minS)); [lra|exact E1]).
  assert (Hrun0 : 0 <= run)
    by (apply (fl_nonneg (large config - small config)); [lra|exact E2]).
  assert (Hrunpos : 0 < run).
  { destruct (Qlt_le_dec 0 run) as [Hlt|Hle]; [exact Hlt|].
    exfalso. apply Hrun. lra. }
  assert (Hslope : 0 <= slope).
  { apply (fl_nonneg (rise / run)); [|exact E3].
    apply Qle_shift_div_l; [exact Hrunpos|lra]. }
  split; [|split].
  - pose proof (Q.min_spec maxS (Qmax minS size)) as Hmin.
    pose proof (Q.max_spec minS size) as Hmax.
    set (a := Qmax minS size) in *. set (b := Qmin maxS a) in *.
    clearbody a b. destruct Hmin as [[? ?]|[? ?]], Hmax as [[? ?]|[? ?]];
      split; lra.
  - intros Hw.
    assert (Hover : over <= 0)
      by (apply (fl_nonpos (w - small config)); [lra|exact E4]).
    assert (Hprod : slope * over <= 0).
    { rewrite <- (Qmult_0_r slope). apply Qmult_le_l_nonneg; assumption. }
    assert (Hgrown : grown <= 0) by (apply (fl_nonpos (slope * over)); assumption).
    assert (Hsize : size <= m).
    { apply (fl_mono (minS + grown) minS size m); [lra|exact E6|exact Hm]. }
    pose proof (Q.min_spec maxS (Qmax minS size)) as Hmin.
    pose proof (Q.max_spec minS size) as Hmax.
    set (a := Qmax minS size) in *. set (b := Qmin maxS a) in *.
    clearbody a b. destruct Hmin as [[? ?]|[? ?]], Hmax as [[? ?]|[? ?]]; lra.
  - intros Hw Hr'.
    apply calculateFluidSize_inv in Hr'
      as (rise' & run' & slope' & over' & grown' & size'
          & E1' & E2' & _ & E3' & E4' & E5' & E6' & ->).
    rewrite E1 in E1'. injection E1' as <-.
    rewrite E2 in E2'. injection E2' as <-.
    rewrite E3 in E3'. injection E3' as <-.
    assert (Hover : over <= over').
    { apply (fl_mono (w - small config) (w' - small config)); [lra|assumption..]. }
    assert (Hgrown : grown <= grown').
    { apply (fl_mono (slope * over) (slope * over')); [|assumption..].
      apply Qmult_le_l_nonneg; assumption. }
    assert (Hsize : size <= size').
    { apply (fl_mono (minS + grown) (minS + grown')); [lra|assumption..]. }
    pose proof (Q.min_spec maxS (Qmax minS size)) as Hmin.
    pose proof (Q.max_spec minS size) as Hmax.
    pose proof (Q.min_spec maxS (Qmax minS size')) as Hmin'.
    pose proof (Q.max_spec minS size') as Hmax'.
    set (a := Qmax minS size) in *. set (b := Qmin maxS a) in *.
    set (a' := Qmax minS size') in *. set (b' := Qmin maxS a') in *.
    clearbody a b a' b'.
    destruct Hmin as [[? ?]|[? ?]], Hmax as [[? ?]|[? ?]],
             Hmin' as [[? ?]|[? ?]], Hmax' as [[? ?]|[? ?]]; lra.
Qed.

End TypographyProps.

(** X9 on the example configuration, rounding to multiples of 1/1024: the
    secondary text of the mobile profile (8 up to 14) is 109/8 in a
    container as wide as the large breakpoint, 1440, where the exact
    calculation gives 14, and it is 14 in a container 1600 wide. *)
Lemma fluid_size_clamped_example :
  @Typography.calculateFluidSize (Doubles.nearest 1024)
    DisplayManager.exampleConfig 1440 8 14 = Some (109 # 8)%Q
  ∧ (8 <= 109 # 8 <= 14)%Q
  ∧ ((1440 <= DisplayManager.small DisplayManager.exampleConfig)%Q →
       (109 # 8 == 8)%Q)
  ∧ ((1440 <= 1600)%Q →
       @Typography.calculateFluidSize (Doubles.nearest 1024)
         DisplayManager.exampleConfig 1600 8 14 = Some 14%Q →
       (109 # 8 <= 14)%Q).
Proof.
  split; [reflexivity|].
  apply (@fluid_size_clamped (Doubles.nearest 1024) (nearest_monotone 1024)
           DisplayManager.exampleConfig 1440 1600 8 14 (109 # 8) 14).
  - reflexivity.
  - discriminate.
  - exists 8%Q. split; reflexivity.
  - reflexivity.
Defined.

(** ** DisplayManager: reacting to a resize *)

Section ResizeProps.
Import Qabs JS DisplayManager DisplayHandlers.
Local Open Scope Q_scope.

Lemma dimWidth_nonneg (config : Config) (host : Host) (d : Display) :
  0 <= width (rect host) → 0 <= innerWidth (window host) →
  0 <= dimWidth (calculateDimensions config (window host) (rect host) d).1.
Proof.
  intros Hr Hw. simpl. unfold calculateWidth.
  apply Q.min_glb; [|lra].
  eapply Qle_trans; [exact Hr|apply Q.le_max_l].
Qed.

Lemma dimHeight_nonneg (config : Config) (host : Host) (d : Display) :
  0 <= height (rect host) → 0 <= innerHeight (window host) →
  0 <= dimHeight (calculateDimensions config (window host) (rect host) d).1.
Proof.
  intros Hr Hw. simpl. unfold calculateHeight.
  apply Q.min_glb; [|lra].
  eapply Qle_trans; [exact Hr|apply Q.le_max_l].
Qed.

Lemma not_significant (x : Q) : 0 <= x →
  OuterElementManager.Qgtb (Qabs (x - x)) (x * (1 # 100)) = false.
Proof.
  intros Hx. unfold OuterElementManager.Qgtb.
  apply negb_false_iff, Qle_bool_iff.
  apply Qabs_Qle_condition. lra.
Qed.

(** X11.  A resize redraws only on a profile change.  [handleResize]
    stores the new dimensions before it compares them with the stored
    ones, so the comparison never finds a change: for a container and a
    window of non-negative size the call sends [profile:change] and one
    [viz.update(null, dimensions)] when the active profile differs from
    the current one, and nothing otherwise.  Either way it returns with
    [isResizing] false and the dimensions stored. *)
Theorem resize_redraws_only_on_profile_change
    (config : Config) (host : Host) (r : Resizer) :
  hasState host = true → hasViz host = true →
  0 <= width (rect host) → 0 <= height (rect host) →
  0 <= innerWidth (window host) → 0 <= innerHeight (window host) →
  let dims := (calculateDimensions config (window host) (rect host) (display r)).1 in
  let p := getActiveProfile config (window host) in
  let r' := (handleResize config host r).2 in
  (handleResize config host r).1 = None
  ∧ sent r' = sent r
        ++ (if bool_decide (Some p ≠ currentProfile (display r))
            then [ProfileChange p (Some dims); VizUpdate dims] else [])
  ∧ isResizing r' = Some false
  ∧ lastDimensions (display r') = Some dims
  ∧ currentProfile (display r')
      = (if bool_decide (Some p ≠ currentProfile (display r))
         then Some p else currentProfile (display r)).
Proof.
  intros Hs Hv Hrw Hrh Hww Hwh. cbv zeta.
  pose proof (dimWidth_nonneg config host (display r) Hrw Hww) as Hdw.
  pose proof (dimHeight_nonneg config host (display r) Hrh Hwh) as Hdh.
  unfold handleResize. rewrite Hs. cbn [negb truthy].
  unfold handleResizeTry. rewrite Hv.
  cbn [display isResizing pixelRatio classes sent].
  set (cd := calculateDimensions config (window host) (rect host) (display r)) in *.
  assert (Hcd : cd = (cd.1, mkDisplay (currentProfile (display r)) (Some cd.1)))
    by reflexivity.
  destruct cd as [dims d2]. cbn [fst] in *. injection Hcd as ->.
  cbn [display currentProfile].
  destruct (bool_decide (Some (getActiveProfile config (window host))
                         ≠ currentProfile (display r))) eqn:Hp;
    cbn [orb handleProfileChange display lastDimensions currentProfile sent
         isResizing pixelRatio classes].
  - unfold updateResponsiveClasses.
    cbn [display sent isResizing lastDimensions currentProfile fst snd].
    rewrite <- app_assoc. repeat split.
  - unfold hasSignificantChanges. cbn [lastDimensions].
    rewrite (not_significant _ Hdw), (not_significant _ Hdh).
    change (strict_ne VUndefined VUndefined) with false. cbn [orb].
    unfold updateResponsiveClasses.
    cbn [display sent isResizing lastDimensions currentProfile fst snd].
    rewrite app_nil_r. repeat split.
Qed.

(** X11 on an 800 x 600 container in a 1280 x 800 window, with the
    desktop profile current. *)
Lemma resize_redraws_only_on_profile_change_example :
  let dims := (calculateDimensions exampleConfig (window exampleHost)
                 (rect exampleHost) (display exampleResizer)).1 in
  let p := getActiveProfile exampleConfig (window exampleHost) in
  let r' := (handleResize exampleConfig exampleHost exampleResizer).2 in
  (handleResize exampleConfig exampleHost exampleResizer).1 = None
  ∧ sent r' = sent exampleResizer
        ++ (if bool_decide (Some p ≠ currentProfile (display exampleResizer))
            then [ProfileChange p (Some dims); VizUpdate dims] else [])
  ∧ isResizing r' = Some false
  ∧ lastDimensions (display r') = Some dims
  ∧ currentProfile (display r')
      = (if bool_decide (Some p ≠ currentProfile (display exampleResizer))
         then Some p else currentProfile (display exampleResizer)).
Proof.
  apply (resize_redraws_only_on_profile_change exampleConfig exampleHost
           exampleResizer); simpl; first [reflexivity | lra].
Defined.

Lemma elem_of_removeClass (c x : string) (cs : list string) :
  x ∈ Scene.removeClass c cs ↔ x ∈ cs ∧ x ≠ c.
Proof.
  unfold Scene.removeClass. rewrite !list_elem_of_In, filter_In, negb_true_iff,
    bool_decide_eq_false. reflexivity.
Qed.

Lemma elem_of_addClass (c x : string) (cs : list string) :
  x ∈ Scene.addClass c cs ↔ x ∈ cs ∨ x = c.
Proof.
  unfold Scene.addClass, Scene.memb. case_bool_decide as Hc.
  - split; [auto|]. intros [H| ->]; assumption.
  - rewrite elem_of_app, list_elem_of_singleton. reflexivity.
Qed.

Lemma elem_of_toggleClass (c x : string) (b : bool) (cs : list string) :
  x ≠ c → x ∈ toggleClass c b cs ↔ x ∈ cs.
Proof.
  intros Hx. unfold toggleClass. destruct b.
  - rewrite elem_of_addClass. tauto.
  - rewrite elem_of_removeClass. tauto.
Qed.

(** X12.  After [updateResponsiveClasses] the container carries exactly
    one of the three size classes: [size-small] below the small
    breakpoint, [size-medium] from there up to the medium breakpoint,
    [size-large] from the medium breakpoint on, judged by the width of
    the container; classes other than these and [high-dpi] are left as
    they were. *)
Theorem one_size_class (config : Config) (host : Host) (r : Resizer) (c : string) :
  let w := width (rect host) in
  let size :=
    if Qltb w (small config) then "size-small"%string
    else if Qltb w (medium config) then "size-medium"%string
    else "size-large"%string in
  let cs := classes (updateResponsiveClasses config host r) in
  (c ∈ ["size-small"; "size-medium"; "size-large"]%string → c ∈ cs ↔ c = size)
  ∧ (c ∉ ["size-small"; "size-medium"; "size-large"; "high-dpi"]%string →
       c ∈ cs ↔ c ∈ classes r).
Proof.
  cbv zeta. unfold updateResponsiveClasses. cbn [classes].
  split.
  - intros Hc.
    rewrite elem_of_toggleClass
      by (intros ->; apply (bool_decide_unpack _) in Hc || idtac;
          revert Hc; rewrite !elem_of_cons, elem_of_nil;
          intros [H|[H|[H|[]]]]; discriminate H).
    destruct (Qltb (width (rect host)) (small config));
      [|destruct (Qltb (width (rect host)) (medium config))];
      rewrite elem_of_addClass, !elem_of_removeClass;
      revert Hc; rewrite !elem_of_cons, elem_of_nil;
      intros [->|[->|[->|[]]]]; split; intros H; try reflexivity;
      try discriminate H; try (right; reflexivity);
      try (destruct H as [[[[_ H1] H2] H3]|H]; congruence).
  - intros Hc.
    assert (Hne : c ≠ "size-small"%string ∧ c ≠ "size-medium"%string
                  ∧ c ≠ "size-large"%string ∧ c ≠ "high-dpi"%string).
    { repeat split; intros ->; apply Hc;
        rewrite !elem_of_cons; auto 6. }
    destruct Hne as (H1 & H2 & H3 & H4).
    rewrite elem_of_toggleClass by exact H4.
    destruct (Qltb (width (rect host)) (small config));
      [|destruct (Qltb (width (rect host)) (medium config))];
      rewrite elem_of_addClass, !elem_of_removeClass; tauto.
Qed.

End ResizeProps.

(** ** Performance utilities *)

Section DebounceProps.
Import Debounce.

Context {Args : Type}.
Variable wait : Z.

(** At most one [later] callback is pending, and it is the one that
    [timeout] names. *)
Definition settled (s : @State Args) : Prop :=
  timers s = []
  ∨ ∃ due args, timers s = [(pred (nextTimer s), (due, args))]
                ∧ timeout s = Some (pred (nextTimer s))
                ∧ (0 < nextTimer s)%nat.

Lemma executedFunction_settled (a : Args) (s : @State Args) :
  settled s →
  executedFunction wait a s
  = mkState (Some (nextTimer s))
      [(nextTimer s, (clock s + Z.max 0 wait, a))]
      (S (nextTimer s)) (clock s) (invoked s).
Proof.
  intros [Ht|(due & args & Ht & Hto & Hn)]; unfold executedFunction; rewrite Ht.
  - destruct (timeout s); reflexivity.
  - rewrite Hto. simpl. rewrite Nat.eqb_refl. reflexivity.
Qed.

Lemma settled_call (a : Args) (s : @State Args) :
  settled s → settled (executedFunction wait a s).
Proof.
  intros Hs. rewrite (executedFunction_settled a s Hs).
  right. exists (clock s + Z.max 0 wait), a. simpl. repeat split. lia.
Qed.

Lemma elapse_idle (d : nat) (s : @State Args) :
  timers s = [] →
  elapse d s
  = mkState (timeout s) [] (nextTimer s) (clock s + Z.of_nat d) (invoked s).
Proof.
  intros Ht. unfold elapse. rewrite Ht. reflexivity.
Qed.

Lemma elapse_pending (d : nat) (s : @State Args) (i : nat) (due : Z) (a : Args) :
  timers s = [(i, (due, a))] → timeout s = Some i →
  elapse d s
  = if due <=? clock s + Z.of_nat d
    then mkState (timeout s) [] (nextTimer s) (clock s + Z.of_nat d)
           (invoked s ++ [a])
    else mkState (timeout s) (timers s) (nextTimer s) (clock s + Z.of_nat d)
           (invoked s).
Proof.
  intros Ht Hto. unfold elapse. rewrite Ht. simpl.
  destruct (due <=? clock s + Z.of_nat d); [|reflexivity].
  unfold later. simpl. rewrite Nat.eqb_refl. simpl.
  rewrite Hto. reflexivity.
Qed.

Lemma settled_elapse (d : nat) (s : @State Args) : settled s → settled (elapse d s).
Proof.
  intros [Ht|(due & args & Ht & Hto & Hn)].
  - rewrite (elapse_idle d s Ht). left. reflexivity.
  - rewrite (elapse_pending d s _ _ _ Ht Hto).
    destruct (due <=? clock s + Z.of_nat d).
    + left. reflexivity.
    + right. exists due, args. simpl. auto.
Qed.

Lemma settled_run (es : list Event) (s : @State Args) :
  settled s → settled (run wait es s).
Proof.
  revert s. induction es as [|e es IH]; intros s Hs; [exact Hs|].
  simpl. apply IH. destruct e; [apply settled_call|apply settled_elapse]; exact Hs.
Qed.

Lemma run_app (es es' : list Event) (s : @State Args) :
  run wait (es ++ es') s = run wait es' (run wait es s).
Proof. apply foldl_app. Qed.

Lemma last_cons {A : Type} (x : A) (l : list A) (d : A) :
  List.last (x :: l) d = List.last l x.
Proof.
  revert x d. induction l as [|y l IH]; intros x d; [reflexivity|].
  change (List.last (x :: y :: l) d) with (List.last (y :: l) d).
  rewrite (IH y d), (IH y x). reflexivity.
Qed.

(** The state in the middle of a burst: one callback pending, due a full
    [wait] after the latest call, holding that call's arguments. *)
Definition armed (s0 s : @State Args) (a : Args) : Prop :=
  timers s = [(pred (nextTimer s), (clock s + Z.max 0 wait, a))]
  ∧ timeout s = Some (pred (nextTimer s))
  ∧ invoked s = invoked s0.

Lemma armed_rest (s0 : @State Args) (rest : list (nat * Args))
    (s : @State Args) (a : Args) :
  Forall (fun x => Z.of_nat x.1 < wait) rest →
  armed s0 s a →
  armed s0 (foldl (step wait) s (flat_map (fun x => [Wait x.1; Call x.2]) rest))
    (List.last (map snd rest) a).
Proof.
  intros Hrest. revert s a.
  induction Hrest as [|[d b] rest Hd Hrest IH]; intros s a (Ht & Hto & Hi).
  - simpl. repeat split; assumption.
  - simpl in Hd.
    change (map snd ((d, b) :: rest)) with (b :: map snd rest).
    rewrite last_cons.
    cbn [flat_map app foldl]. apply IH.
    cbn [step fst snd].
    rewrite (elapse_pending d s _ _ _ Ht Hto).
    destruct (Z.leb_spec (clock s + Z.max 0 wait) (clock s + Z.of_nat d)); [lia|].
    unfold executedFunction, armed. cbn [timeout timers nextTimer clock invoked].
    rewrite Ht, Hto. simpl. rewrite Nat.eqb_refl. simpl. repeat split. exact Hi.
Qed.

Lemma burst_pending (rest : list (nat * Args)) (s : @State Args) (a : Args) :
  Forall (fun x => Z.of_nat x.1 < wait) rest →
  settled s →
  armed s (run wait (burst a rest) s) (List.last (map snd rest) a).
Proof.
  intros Hrest Hs. unfold burst, run. cbn [foldl step].
  apply armed_rest; [exact Hrest|].
  rewrite (executedFunction_settled a s Hs). repeat split.
Qed.

(** X13.  Whatever happened before, a burst of calls whose pauses are
    all shorter than [wait] makes the debounced function call [fn]
    exactly once, with the arguments of the last call of the burst, and
    not before a full [wait] (at least 0) has passed since that call. *)
Theorem debounce_burst
    (t0 : Z) (pre : list Event) (a : Args) (rest : list (nat * Args)) (d : nat) :
  Forall (fun x => Z.of_nat x.1 < wait) rest →
  let s := run wait pre (debounce t0) in
  invoked (run wait (burst a rest ++ [Wait d]) s)
  = invoked s
      ++ (if Z.of_nat d <? Z.max 0 wait then []
          else [List.last (map snd rest) a]).
Proof.
  intros Hrest s.
  assert (Hs : settled s) by (apply settled_run; left; reflexivity).
  destruct (burst_pending rest s a Hrest Hs) as (Ht & Hto & Hi).
  rewrite run_app. set (s' := run wait (burst a rest) s) in *.
  unfold run at 1. cbn [foldl step].
  rewrite (elapse_pending d s' _ _ _ Ht Hto).
  destruct (Z.leb_spec (clock s' + Z.max 0 wait) (clock s' + Z.of_nat d));
    destruct (Z.ltb_spec (Z.of_nat d) (Z.max 0 wait)); try lia; simpl;
    rewrite Hi; [reflexivity|rewrite app_nil_r; reflexivity].
Qed.

End DebounceProps.

(** X13 with [wait = 250]: calls with arguments 1, 2, 3, the pauses 100
    and 249 ms long, then 250 ms of quiet: [fn] is called once, with 3. *)
Lemma debounce_burst_example :
  let s := Debounce.run 250 [] (Debounce.debounce 0) in
  Debounce.invoked
    (Debounce.run 250
       (Debounce.burst 1%nat [(100%nat, 2%nat); (249%nat, 3%nat)]
          ++ [Debounce.Wait 250]) s)
  = Debounce.invoked s
      ++ (if Z.of_nat 250 <? Z.max 0 250 then []
          else [List.last (map snd [(100%nat, 2%nat); (249%nat, 3%nat)]) 1%nat]).
Proof.
  apply (debounce_burst 250 0 [] 1%nat [(100%nat, 2%nat); (249%nat, 3%nat)] 250).
  repeat constructor; simpl; lia.
Defined.

Section ThrottleProps.
Import JS Throttle.

Context {Args : Type}.
Variable fn : Args -> option Value.
Variable limit : Z.

Definition lastTime (s : @State Args) : option Z :=
  match List.rev (invoked s) with
  | x :: _ => Some x.1
  | [] => None
  end.

(** While throttled, exactly one reset is pending, due [limit] after the
    last call of [fn]; otherwise none is pending, and the clock is past
    that time. *)
Definition paced (s : @State Args) : Prop :=
  spaced (Z.max 0 limit) (map fst (invoked s))
  ∧ (∀ t, lastTime s = Some t → t ≤ clock s)
  ∧ if inThrottle s
    then ∃ t, lastTime s = Some t ∧ timers s = [t + Z.max 0 limit]
    else timers s = []
         ∧ ∀ t, lastTime s = Some t → t + Z.max 0 limit ≤ clock s.

Lemma spaced_snoc (g : Z) (ts : list Z) (t : Z) :
  spaced g ts →
  (∀ u, List.last ts t = u → ts ≠ [] → u + g ≤ t) →
  spaced g (ts ++ [t]).
Proof.
  induction ts as [|a ts IH]; intros Hs Hl; [exact I|].
  destruct ts as [|b ts].
  - simpl. split; [|exact I]. apply Hl; [reflexivity|discriminate].
  - destruct Hs as [Hab Hs]. split; [exact Hab|].
    apply IH; [exact Hs|]. intros u Hu _. apply Hl; [|discriminate].
    exact Hu.
Qed.

Lemma lastTime_last (s : @State Args) (t d : Z) :
  lastTime s = Some t → List.last (map fst (invoked s)) d = t.
Proof.
  unfold lastTime.
  destruct (invoked s) as [|x l] using rev_ind; [discriminate|].
  rewrite rev_app_distr. simpl. intros [= <-].
  rewrite map_app. simpl. apply last_last.
Qed.

Lemma lastTime_None (s : @State Args) : lastTime s = None → invoked s = [].
Proof.
  unfold lastTime.
  destruct (invoked s) as [|x l] using rev_ind; [reflexivity|].
  rewrite rev_app_distr. discriminate.
Qed.

Lemma lastTime_snoc (s : @State Args) (b : bool) (ts : list Z) (c : Z) (x : Z * Args) :
  lastTime (mkState b ts c (invoked s ++ [x])) = Some x.1.
Proof. unfold lastTime. simpl. rewrite rev_app_distr. reflexivity. Qed.

Hypothesis fn_returns : ∀ a, fn a = None.

Lemma paced_call (a : Args) (s : @State Args) :
  paced s → paced (executedFunction fn limit a s).2.
Proof.
  intros (Hsp & Hclk & Hth). unfold executedFunction.
  destruct (inThrottle s) eqn:E; simpl; [repeat split; try assumption; rewrite E; exact Hth|].
  rewrite fn_returns. simpl. destruct Hth as [Ht Hlast].
  unfold paced. cbn [invoked inThrottle timers clock].
  split; [|split].
  - rewrite map_app. simpl. apply spaced_snoc; [exact Hsp|].
    intros u Hu Hne.
    destruct (lastTime s) as [t|] eqn:El.
    + rewrite (lastTime_last s t _ El) in Hu. subst u. apply Hlast. reflexivity.
    + apply lastTime_None in El. rewrite El in Hne. contradiction.
  - intros t. rewrite lastTime_snoc. simpl. intros [= <-]. lia.
  - exists (clock s). rewrite lastTime_snoc, Ht. split; reflexivity.
Qed.

Lemma paced_elapse (d : nat) (s : @State Args) : paced s → paced (elapse d s).
Proof.
  intros (Hsp & Hclk & Hth). unfold elapse, paced. simpl.
  change (lastTime (mkState _ _ _ (invoked s))) with (lastTime s).
  split; [exact Hsp|]. split; [intros t Ht; specialize (Hclk t Ht); lia|].
  destruct (inThrottle s).
  - destruct Hth as (t & Hl & Ht). rewrite Ht. simpl.
    destruct (Z.leb_spec (t + Z.max 0 limit) (clock s + Z.of_nat d)); simpl.
    + split; [reflexivity|]. intros t' Ht'. rewrite Hl in Ht'.
      injection Ht' as <-. assumption.
    + exists t. split; [exact Hl|reflexivity].
  - destruct Hth as [Ht Hl]. rewrite Ht. simpl. split; [reflexivity|].
    intros t Hlt. specialize (Hl t Hlt). lia.
Qed.

Lemma paced_run (es : list Event) (s : @State Args) :
  paced s → paced (run fn limit es s).
Proof.
  revert s. induction es as [|e es IH]; intros s Hs; [exact Hs|].
  simpl. apply IH. destruct e; [apply paced_call|apply paced_elapse]; exact Hs.
Qed.

Lemma invoked_sublist (es : list Event) (s : @State Args) :
  ∃ l, invoked (run fn limit es s) = invoked s ++ l
     ∧ sublist l (calls (clock s) es).
Proof.
  revert s. induction es as [|e es IH]; intros s.
  - exists []. rewrite app_nil_r. split; [reflexivity|constructor].
  - simpl. destruct (IH (step fn limit s e)) as (l & Hl & Hs).
    rewrite Hl. destruct e as [a|d]; simpl in *.
    + unfold executedFunction in *.
      destruct (inThrottle s); simpl in *.
      * exists l. split; [reflexivity|]. apply sublist_cons. exact Hs.
      * rewrite fn_returns in *. simpl in *.
        exists ((clock s, a) :: l). rewrite <- app_assoc. split; [reflexivity|].
        apply sublist_skip. exact Hs.
    + exists l. split; [reflexivity|exact Hs].
Qed.

End ThrottleProps.

(** X14.  A throttled function whose [fn] does not throw calls [fn]
    only at the moment of one of its own calls and with that call's
    arguments (a call made while throttled is dropped, never replayed),
    the first call of a history always goes through, and two successive
    calls of [fn] are at least [limit] milliseconds apart. *)
Theorem throttle_rate_limit {Args : Type}
    (fn : Args → option JS.Value) (limit : Z) (t0 : Z)
    (es : list (@Throttle.Event Args)) :
  (∀ a, fn a = None) →
  let s := Throttle.run fn limit es (Throttle.throttle t0) in
  Throttle.spaced (Z.max 0 limit) (map fst (Throttle.invoked s))
  ∧ sublist (Throttle.invoked s) (Throttle.calls t0 es)
  ∧ (∀ a es', es = Throttle.Call a :: es' →
       ∃ l, Throttle.invoked s = (t0, a) :: l).
Proof.
  intros Hfn s. split; [|split].
  - apply (paced_run fn limit Hfn es (Throttle.throttle t0)).
    repeat split; simpl; [intros t Ht; discriminate|intros t Ht; discriminate].
  - destruct (invoked_sublist fn limit Hfn es (Throttle.throttle t0))
      as (l & Hl & Hs).
    subst s. rewrite Hl. exact Hs.
  - intros a es' ->. subst s. simpl.
    unfold Throttle.executedFunction. simpl. rewrite Hfn. simpl.
    destruct (invoked_sublist fn limit Hfn es'
                (Throttle.mkState true [t0 + Z.max 0 limit] t0 [(t0, a)]))
      as (l & Hl & _).
    exists l. exact Hl.
Qed.

(** X14 with [limit = 100]: calls 1, 2 at once, 3 after 60 ms, 4 after
    another 60 ms. *)
Lemma throttle_rate_limit_example :
  let es := [Throttle.Call 1%nat; Throttle.Call 2%nat; Throttle.Wait 60;
             Throttle.Call 3%nat; Throttle.Wait 60; Throttle.Call 4%nat] in
  let s := Throttle.run (fun _ => None) 100 es (Throttle.throttle 0) in
  Throttle.spaced (Z.max 0 100) (map fst (Throttle.invoked s))
  ∧ sublist (Throttle.invoked s) (Throttle.calls 0 es)
  ∧ (∀ a es', es = Throttle.Call a :: es' →
       ∃ l, Throttle.invoked s = (0, a) :: l).
Proof.
  apply (throttle_rate_limit (fun _ : nat => None) 100 0). reflexivity.
Defined.

Section RafThrottleProps.
Import JS RafThrottle.

Context {Args : Type}.
Variable fn : Args -> option Value.

(** No request is pending unless [rafId] is set, and at most one is. *)
Definition tidy (s : @State Args) : Prop :=
  frames s = [] ∨ (is_Some (rafId s) ∧ ∃ cb, frames s = [cb]).

Lemma tidy_call (a : Args) (s : @State Args) : tidy s → tidy (executedFunction a s).
Proof.
  intros Hs. unfold executedFunction.
  destruct (rafId s) eqn:E; [exact Hs|].
  destruct Hs as [Hf|[[x Hx] _]]; [|congruence].
  right. simpl. rewrite Hf. split; [eauto|]. eexists. reflexivity.
Qed.

Lemma frames_callbacks (cbs : list (nat * Args)) (s : @State Args) :
  frames (foldl (fun acc cb => callback fn cb.2 acc) s cbs) = frames s.
Proof.
  revert s. induction cbs as [|cb cbs IH]; intros s; [reflexivity|].
  simpl. rewrite IH. reflexivity.
Qed.

Lemma tidy_frame (s : @State Args) : tidy (frame fn s).
Proof. left. unfold frame. rewrite frames_callbacks. reflexivity. Qed.

Lemma tidy_run (es : list Event) (s : @State Args) : tidy s → tidy (run fn es s).
Proof.
  revert s. induction es as [|e es IH]; intros s Hs; [exact Hs|].
  simpl. apply IH. destruct e; [apply tidy_call; exact Hs|apply tidy_frame].
Qed.

Lemma calls_ignored (rest : list Args) (s : @State Args) :
  is_Some (rafId s) → run fn (map Call rest) s = s.
Proof.
  intros [i Hi]. induction rest as [|a rest IH]; [reflexivity|].
  simpl. unfold executedFunction. rewrite Hi. exact IH.
Qed.

(** The wrapper after [fn] has thrown in a frame: [rafId] still holds the
    id of the request that ran, and nothing is pending. *)
Definition stuck (s : @State Args) : Prop := is_Some (rafId s) ∧ frames s = [].

Lemma stuck_step (e : Event) (s : @State Args) : stuck s → step fn s e = s.
Proof.
  intros [[i Hi] Hf]. destruct e as [a|]; simpl.
  - unfold executedFunction. rewrite Hi. reflexivity.
  - unfold frame. rewrite Hf. simpl. destruct s; simpl in *. subst. reflexivity.
Qed.

Lemma stuck_run (es : list Event) (s : @State Args) : stuck s → run fn es s = s.
Proof.
  intros Hs. induction es as [|e es IH]; [reflexivity|].
  simpl. rewrite (stuck_step e s Hs). exact IH.
Qed.

End RafThrottleProps.

(** X15.  Of the calls made between two animation frames the
    frame-throttled function keeps the first: whatever happened before,
    if no request is pending, a call followed by any further calls and a
    frame makes exactly one call of [fn], with the arguments of the first
    call; and if that call of [fn] returns, the wrapper is ready for the
    next request. *)
Theorem raf_first_call_wins {Args : Type}
    (fn : Args → option JS.Value) (pre : list (@RafThrottle.Event Args))
    (a : Args) (rest : list Args) :
  let s := RafThrottle.run fn pre RafThrottle.rafThrottle in
  RafThrottle.rafId s = None →
  let s' :=
    RafThrottle.run fn
      (RafThrottle.Call a :: map RafThrottle.Call rest ++ [RafThrottle.Frame]) s in
  RafThrottle.invoked s' = RafThrottle.invoked s ++ [a]
  ∧ (fn a = None → RafThrottle.rafId s' = None).
Proof.
  intros s Hid s'.
  assert (Hs : tidy s) by (apply tidy_run; left; reflexivity).
  destruct Hs as [Hf|[[x Hx] _]]; [|congruence].
  assert (E : s' = RafThrottle.callback fn a
                     (RafThrottle.mkState (Some (RafThrottle.nextFrame s)) []
                        (S (RafThrottle.nextFrame s)) (RafThrottle.invoked s))).
  { subst s'. unfold RafThrottle.run. cbn [foldl RafThrottle.step].
    rewrite foldl_app. cbn [foldl RafThrottle.step].
    assert (E1 : RafThrottle.executedFunction a s
                 = RafThrottle.mkState (Some (RafThrottle.nextFrame s))
                     [(RafThrottle.nextFrame s, a)]
                     (S (RafThrottle.nextFrame s)) (RafThrottle.invoked s)).
    { unfold RafThrottle.executedFunction. rewrite Hid, Hf. reflexivity. }
    rewrite E1.
    set (s1 := RafThrottle.mkState _ _ _ _).
    change (foldl (RafThrottle.step fn) s1 (map RafThrottle.Call rest))
      with (RafThrottle.run fn (map RafThrottle.Call rest) s1).
    rewrite (calls_ignored fn rest s1) by (subst s1; simpl; eauto).
    reflexivity. }
  rewrite E. unfold RafThrottle.callback. simpl.
  split; [reflexivity|]. intros ->. reflexivity.
Qed.

(** X15 on three calls in one frame. *)
Lemma raf_first_call_wins_example :
  let s := RafThrottle.run (fun _ : nat => None) [] RafThrottle.rafThrottle in
  let s' :=
    RafThrottle.run (fun _ : nat => None)
      (RafThrottle.Call 1%nat
         :: map RafThrottle.Call [2%nat; 3%nat] ++ [RafThrottle.Frame]) s in
  RafThrottle.invoked s' = RafThrottle.invoked s ++ [1%nat]
  ∧ ((fun _ : nat => @None JS.Value) 1%nat = None → RafThrottle.rafId s' = None).
Proof.
  apply (raf_first_call_wins (fun _ : nat => None) [] 1%nat [2%nat; 3%nat]).
  reflexivity.
Defined.

(** X16.  If [fn] throws when the frame-throttled function calls it,
    [rafId] is never cleared: from then on every call of the wrapper is
    ignored and [fn] is never called again, whatever calls and frames
    follow. *)
Theorem raf_dead_after_throw {Args : Type}
    (fn : Args → option JS.Value) (pre : list (@RafThrottle.Event Args))
    (a : Args) (e : JS.Value) (es : list (@RafThrottle.Event Args)) :
  let s := RafThrottle.run fn pre RafThrottle.rafThrottle in
  RafThrottle.rafId s = None →
  fn a = Some e →
  RafThrottle.invoked
    (RafThrottle.run fn (RafThrottle.Call a :: RafThrottle.Frame :: es) s)
  = RafThrottle.invoked s ++ [a].
Proof.
  intros s Hid Hfn.
  assert (Hs : tidy s) by (apply tidy_run; left; reflexivity).
  destruct Hs as [Hf|[[x Hx] _]]; [|congruence].
  unfold RafThrottle.run. cbn [foldl RafThrottle.step].
  assert (E1 : RafThrottle.frame fn (RafThrottle.executedFunction a s)
               = RafThrottle.mkState (Some (RafThrottle.nextFrame s)) []
                   (S (RafThrottle.nextFrame s)) (RafThrottle.invoked s ++ [a])).
  { unfold RafThrottle.executedFunction. rewrite Hid, Hf.
    unfold RafThrottle.frame, RafThrottle.callback. simpl. rewrite Hfn.
    reflexivity. }
  rewrite E1.
  set (s1 := RafThrottle.mkState _ _ _ _).
  change (foldl (RafThrottle.step fn) s1 es) with (RafThrottle.run fn es s1).
  rewrite (stuck_run fn es s1); [reflexivity|].
  split; [subst s1; simpl; eauto|reflexivity].
Qed.

(** X16 on a function that throws on 0: after the failing call, two more
    calls and two more frames call nothing. *)
Lemma raf_dead_after_throw_example :
  let fn := fun n : nat =>
    match n with O => Some (JS.VStr "boom") | _ => None end in
  let s := RafThrottle.run fn [] RafThrottle.rafThrottle in
  RafThrottle.invoked
    (RafThrottle.run fn
       (RafThrottle.Call 0%nat :: RafThrottle.Frame
          :: [RafThrottle.Call 1%nat; RafThrottle.Frame;
              RafThrottle.Call 2%nat; RafThrottle.Frame]) s)
  = RafThrottle.invoked s ++ [0%nat].
Proof.
  apply (raf_dead_after_throw
           (fun n : nat => match n with O => Some (JS.VStr "boom") | _ => None end)
           [] 0%nat (JS.VStr "boom")); reflexivity.
Defined.

(** ** PerformanceMonitor *)

Section MonitorProps.
Import PerformanceMonitor.

Lemma pushCapped_lastN {A : Type} (n : nat) (x : A) (l : list A) :
  (0 < n)%nat → pushCapped n x (lastN n l) = lastN n (l ++ [x]).
Proof.
  intros Hn. unfold pushCapped, lastN.
  rewrite !length_app, length_drop. simpl length.
  set (k := (length l - n)%nat).
  destruct (Nat.ltb_spec n (length l - k + 1)) as [H|H].
  - assert (Hr : drop (S k) l = tail (drop k l)).
    { replace (S k) with (k + 1)%nat by lia. rewrite <- drop_drop.
      destruct (drop k l); reflexivity. }
    replace (length l + 1 - n)%nat with (S k) by lia.
    rewrite drop_app_le by lia. rewrite Hr.
    destruct (drop k l) as [|y r] eqn:E; [|reflexivity].
    apply (f_equal length) in E. rewrite length_drop in E. simpl in E. lia.
  - replace k with 0%nat by lia.
    replace (length l + 1 - n)%nat with 0%nat by lia. reflexivity.
Qed.

Lemma lastN_nil {A : Type} (n : nat) : lastN n (@nil A) = [].
Proof. reflexivity. Qed.

Lemma lastN_length {A : Type} (n : nat) (l : list A) :
  length (lastN n l) = Nat.min n (length l).
Proof. unfold lastN. rewrite length_drop. lia. Qed.

(** What [marks] and [events] hold after the entries [es] have been
    delivered to a new monitor. *)
Definition marksOf (es : list Entry) (n : string) : option (list Timing) :=
  match timingsOf "measure" n es with
  | [] => None
  | l => Some (lastN 100 (map (fun e => mkTiming (startTime e) (entryDuration e)) l))
  end.

Definition eventsOf (es : list Entry) (n : string) : option (list EventTiming) :=
  match timingsOf "event" n es with
  | [] => None
  | l =>
      Some (lastN 100
              (map (fun e => mkEventTiming (startTime e) (entryDuration e) (name e)) l))
  end.

Lemma timingsOf_snoc (ty n : string) (es : list Entry) (e : Entry) :
  timingsOf ty n (es ++ [e])
  = timingsOf ty n es
      ++ (if String.eqb (entryType e) ty && String.eqb (name e) n then [e] else []).
Proof.
  unfold timingsOf. rewrite List.filter_app. simpl.
  destruct (String.eqb (entryType e) ty && String.eqb (name e) n); reflexivity.
Qed.

Lemma observe_snoc (es : list Entry) (e : Entry) (m : Monitor) :
  observe (es ++ [e]) m
  = let acc := observe es m in
    if String.eqb (entryType e) "measure" then recordMeasure e acc
    else if String.eqb (entryType e) "event" then recordEvent e acc
    else acc.
Proof. unfold observe. rewrite foldl_app. reflexivity. Qed.

Lemma observe_app (es es' : list Entry) (m : Monitor) :
  observe (es ++ es') m = observe es' (observe es m).
Proof. unfold observe. apply foldl_app. Qed.

Lemma observed (t0 : Z) (es : list Entry) (n : string) :
  marks (observe es (constructor t0)) !! n = marksOf es n
  ∧ events (observe es (constructor t0)) !! n = eventsOf es n.
Proof.
  induction es as [|e es IH] using rev_ind.
  - split; apply lookup_empty.
  - destruct IH as [IHm IHe].
    rewrite observe_snoc. cbv zeta.
    unfold marksOf, eventsOf. rewrite !timingsOf_snoc.
    destruct (String.eqb_spec (entryType e) "measure") as [Ety|Ety].
    + rewrite Ety. simpl String.eqb. cbn [andb].
      rewrite app_nil_r. fold (eventsOf es n). split; [|exact IHe].
      unfold recordMeasure. cbn [marks].
      destruct (String.eqb_spec (name e) n) as [En|En].
      * subst n. rewrite lookup_insert_eq, IHm. unfold marksOf.
        destruct (timingsOf "measure" (name e) es) as [|x l] eqn:El.
        -- reflexivity.
        -- cbn [from_option]. unfold id. rewrite pushCapped_lastN by lia.
           change ((x :: l) ++ [e]) with (x :: (l ++ [e])). cbv iota.
           change (x :: (l ++ [e])) with ((x :: l) ++ [e]).
           rewrite map_app. reflexivity.
      * rewrite lookup_insert_ne by exact En. rewrite app_nil_r.
        exact IHm.
    + destruct (String.eqb_spec (entryType e) "event") as [Ety'|Ety'].
      * cbn [andb].
        rewrite app_nil_r. fold (marksOf es n). split; [exact IHm|].
        unfold recordEvent. cbn [events].
        destruct (String.eqb_spec (name e) n) as [En|En].
        -- subst n. rewrite lookup_insert_eq, IHe. unfold eventsOf.
           destruct (timingsOf "event" (name e) es) as [|x l] eqn:El.
           ++ reflexivity.
           ++ cbn [from_option]. unfold id. rewrite pushCapped_lastN by lia.
              change ((x :: l) ++ [e]) with (x :: (l ++ [e])). cbv iota.
              change (x :: (l ++ [e])) with ((x :: l) ++ [e]).
              rewrite map_app. reflexivity.
        -- rewrite lookup_insert_ne by exact En. rewrite app_nil_r.
           exact IHe.
      * cbn [andb]. rewrite !app_nil_r.
        split; [exact IHm|exact IHe].
Qed.

(** X17.  The observer's callback keeps, for every name, the last 100
    measures and the last 100 event timings delivered under that name, in
    order of arrival, and nothing else: a name that was never delivered
    has no entry, and entries of other types are ignored. *)
Theorem observer_keeps_last_100 (t0 : Z) (es : list Entry) (n : string) :
  let m := observe es (constructor t0) in
  marks m !! n
  = (match timingsOf "measure" n es with
     | [] => None
     | l => Some (lastN 100
                    (map (fun e => mkTiming (startTime e) (entryDuration e)) l))
     end)
  ∧ events m !! n
    = (match timingsOf "event" n es with
       | [] => None
       | l => Some (lastN 100
                      (map (fun e => mkEventTiming (startTime e) (entryDuration e)
                                       (name e)) l))
       end).
Proof. exact (observed t0 es n). Qed.

Lemma foldl_Qmax_ge (ds : list Q) (d x : Q) :
  ((x <= d)%Q ∨ x ∈ ds) → (x <= foldl Qmax d ds)%Q.
Proof.
  revert d. induction ds as [|y ds IH]; intros d [Hx|Hx].
  - exact Hx.
  - inversion Hx.
  - cbn [foldl]. apply IH. left.
    eapply Qle_trans; [exact Hx|apply Q.le_max_l].
  - cbn [foldl]. apply elem_of_cons in Hx as [->|Hx].
    + apply IH. left. apply Q.le_max_r.
    + apply IH. right. exact Hx.
Qed.

Lemma foldl_Qmin_le (ds : list Q) (d x : Q) :
  ((d <= x)%Q ∨ x ∈ ds) → (foldl Qmin d ds <= x)%Q.
Proof.
  revert d. induction ds as [|y ds IH]; intros d [Hx|Hx].
  - exact Hx.
  - inversion Hx.
  - cbn [foldl]. apply IH. left.
    eapply Qle_trans; [apply Q.le_min_l|exact Hx].
  - cbn [foldl]. apply elem_of_cons in Hx as [->|Hx].
    + apply IH. left. apply Q.le_min_r.
    + apply IH. right. exact Hx.
Qed.

Lemma foldl_Qmax_In (ds : list Q) (d : Q) : foldl Qmax d ds ∈ d :: ds.
Proof.
  revert d. induction ds as [|y ds IH]; intros d.
  - left.
  - cbn [foldl]. specialize (IH (Qmax d y)).
    apply elem_of_cons in IH as [IH|IH].
    + rewrite IH. unfold Qmax, GenericMinMax.gmax.
      destruct (d ?= y)%Q; [left|right; left|left].
    + right. right. exact IH.
Qed.

Lemma foldl_Qmin_In (ds : list Q) (d : Q) : foldl Qmin d ds ∈ d :: ds.
Proof.
  revert d. induction ds as [|y ds IH]; intros d.
  - left.
  - cbn [foldl]. specialize (IH (Qmin d y)).
    apply elem_of_cons in IH as [IH|IH].
    + rewrite IH. unfold Qmin, GenericMinMax.gmin.
      destruct (d ?= y)%Q; [left|left|right; left].
    + right. right. exact IH.
Qed.

Lemma lastN_map {A B : Type} (f : A → B) (n : nat) (l : list A) :
  lastN n (map f l) = map f (lastN n l).
Proof.
  unfold lastN. rewrite length_map. generalize (length l - n)%nat. intros k.
  revert l. induction k as [|k IH]; intros [|x l]; simpl; auto.
Qed.

Lemma summarize_extremes `{Doubles.Rounding} (evs : list EventTiming) :
  evs ≠ [] →
  ∃ s, summarize evs = Some s
     ∧ count s = length evs
     ∧ minDuration s ∈ map eventDuration evs
     ∧ maxDuration s ∈ map eventDuration evs
     ∧ Forall (fun d => minDuration s <= d <= maxDuration s)%Q
         (map eventDuration evs).
Proof.
  intros Hne. unfold summarize.
  destruct evs as [|e evs]; [contradiction|]. clear Hne.
  cbn [map]. eexists. split; [reflexivity|]. cbn [count averageDuration
    maxDuration minDuration]. split; [reflexivity|].
  set (d := eventDuration e). set (ds := map eventDuration evs).
  split; [apply foldl_Qmin_In|]. split; [apply foldl_Qmax_In|].
  apply Forall_forall. intros x Hx. apply elem_of_cons in Hx.
  split; [apply foldl_Qmin_le|apply foldl_Qmax_ge];
    (destruct Hx as [->|Hx]; [left; apply Qle_refl|right; exact Hx]).
Qed.

(** X18.  After any notifications delivered to a new monitor,
    [getEventMetrics] reports every event type that was delivered (and
    no other).  Its count is the number of the latest timings kept, between
    1 and 100, so that the average is never a division by zero; and the
    reported minimum and maximum are durations of kept timings, with every
    kept duration between them.  (Nothing is said of the average itself:
    its sum and quotient are rounded.) *)
Theorem event_metrics_well_formed `{Doubles.Rounding}
    (t0 : Z) (es : list Entry) (ty : string) :
  let m := observe es (constructor t0) in
  let kept := lastN 100 (map entryDuration (timingsOf "event" ty es)) in
  (timingsOf "event" ty es = [] → getEventMetrics m !! ty = None)
  ∧ (timingsOf "event" ty es ≠ [] →
       ∃ s, getEventMetrics m !! ty = Some (Some s)
          ∧ count s = Nat.min 100 (length (timingsOf "event" ty es))
          ∧ (1 <= count s <= 100)%nat
          ∧ minDuration s ∈ kept
          ∧ maxDuration s ∈ kept
          ∧ Forall (fun d => minDuration s <= d <= maxDuration s)%Q kept).
Proof.
  cbv zeta. unfold getEventMetrics. rewrite lookup_fmap.
  destruct (observed t0 es ty) as [_ He]. rewrite He. unfold eventsOf.
  destruct (timingsOf "event" ty es) as [|x l] eqn:El.
  - split; [reflexivity|]. intros Hne. contradiction.
  - split; [discriminate|]. intros _. cbn [fmap option_fmap option_map].
    set (kept := lastN 100 (map _ (x :: l))).
    assert (Hlen : length kept = Nat.min 100 (length (x :: l)))
      by (subst kept; rewrite lastN_length, length_map; reflexivity).
    assert (Hd : map eventDuration kept = lastN 100 (map entryDuration (x :: l))).
    { subst kept. rewrite <- lastN_map, map_map. reflexivity. }
    destruct (summarize_extremes kept) as (s & Hs & Hc & Hmin & Hmax & Hall).
    { intros E. rewrite E in Hlen. simpl in Hlen. lia. }
    exists s. rewrite Hs, Hc, Hlen. rewrite Hd in Hmin, Hmax, Hall.
    split; [reflexivity|]. split; [reflexivity|].
    split; [simpl length; lia|]. auto.
Qed.

Lemma measureFPS_length (t : Z) (m : Monitor) :
  (length (fps m) <= 60)%nat → (length (fps (measureFPS t m)) <= 60)%nat.
Proof.
  intros H. unfold measureFPS.
  destruct (isMonitoring m); [|exact H]. cbn [negb].
  destruct (1000 <=? t - lastFrameTime m)%Z; [|exact H].
  cbn [fps]. unfold pushCapped. rewrite length_app. simpl length.
  destruct (Nat.ltb_spec 60 (length (fps m) + 1)).
  - destruct (fps m ++ _) eqn:E; simpl; [lia|].
    apply (f_equal length) in E. rewrite length_app in E. simpl in E. lia.
  - rewrite length_app. simpl. lia.
Qed.

Lemma round_Z (z : Z) : round (inject_Z z) = z.
Proof.
  unfold round. apply Z.le_antisymm.
  - apply Z.lt_succ_r. rewrite Zlt_Qlt.
    eapply Qle_lt_trans; [apply Qfloor_le|].
    rewrite <- Z.add_1_r, inject_Z_plus. change (inject_Z 1) with 1%Q. lra.
  - rewrite <- (Qfloor_Z z) at 1. apply Qfloor_resp_le. lra.
Qed.

Lemma round_mono (p q : Q) : (p <= q)%Q → (round p <= round q)%Z.
Proof. intros H. apply Qfloor_resp_le. lra. Qed.

Lemma foldl_Zplus_bounds (lo hi : Z) (l : list FpsSample) (acc : Z) :
  Forall (fun s => lo ≤ fpsValue s ≤ hi)%Z l →
  (acc + Z.of_nat (length l) * lo
     ≤ foldl (fun a c => a + fpsValue c) acc l
     ≤ acc + Z.of_nat (length l) * hi)%Z.
Proof.
  intros H. revert acc. induction H as [|s l Hs _ IH]; intros acc.
  - simpl. lia.
  - cbn [foldl]. specialize (IH (acc + fpsValue s)%Z).
    simpl length. lia.
Qed.

(** X19.  The FPS history never holds more than 60 samples, however
    many frames are measured; the reported average is 0 while there is
    no sample and otherwise lies between any two integers that bound the
    stored samples. *)
Theorem average_fps_within_samples
    (observers : bool) (t0 t1 : Z) (times : list Z) (lo hi : Z) :
  let m :=
    foldl (fun acc t => measureFPS t acc)
      (start observers t1 (constructor t0)) times in
  (length (fps m) <= 60)%nat
  ∧ (fps m = [] → getAverageFPS m = 0%Z)
  ∧ (fps m ≠ [] → Forall (fun s => lo ≤ fpsValue s ≤ hi)%Z (fps m) →
       (lo ≤ getAverageFPS m ≤ hi)%Z).
Proof.
  cbv zeta. set (m0 := start observers t1 (constructor t0)).
  assert (H0 : (length (fps m0) <= 60)%nat).
  { subst m0. unfold start. cbn [isMonitoring constructor].
    destruct observers; cbn [fps]; apply measureFPS_length; simpl; lia. }
  clearbody m0. split; [|split].
  - revert m0 H0. induction times as [|t ts IH]; intros m0 H0; [exact H0|].
    simpl. apply IH. apply measureFPS_length. exact H0.
  - intros E. unfold getAverageFPS. rewrite E. reflexivity.
  - generalize (foldl (λ acc t, measureFPS t acc) m0 times). intros m Hne Hall.
    unfold getAverageFPS.
    destruct (fps m) as [|s l] eqn:E; [contradiction|].
    change (Nat.eqb (length (s :: l)) 0) with false. cbv iota.
    pose proof (foldl_Zplus_bounds lo hi (s :: l) 0 Hall) as [H1 H2].
    set (sum := foldl _ 0%Z (s :: l)) in *.
    set (n := Z.of_nat (length (s :: l))) in *.
    assert (Hn : (0 < n)%Z) by (subst n; simpl; lia).
    assert (Hq : (0 < inject_Z n)%Q)
      by (change 0%Q with (inject_Z 0); rewrite <- Zlt_Qlt; exact Hn).
    split.
    + rewrite <- (round_Z lo). apply round_mono.
      apply Qle_shift_div_l; [exact Hq|].
      rewrite <- inject_Z_mult, <- Zle_Qle. lia.
    + rewrite <- (round_Z hi). apply round_mono.
      apply Qle_shift_div_r; [exact Hq|].
      rewrite <- inject_Z_mult, <- Zle_Qle. lia.
Qed.

End MonitorProps.

(** ** CircularNavigation: the registry *)

Section RegistryProps.
Import JS CircularNavigation.

Context {Config : Type}.
Context `{StateManager.Collaborators} `{Doubles.Rounding}.

(** X20.  [createInstance] either registers the new manager under its
    id together with a running monitor, leaving every other id alone, or
    fails and registers nothing: for an id that is taken it throws
    without touching anything, and when the constructor throws, the
    monitor that was just registered is removed again, [instances] is
    left as it was and the error is reported once. *)
Theorem createInstance_registers_or_rolls_back
    (new : string → string → Config → CircularNavManager.Controller + Value)
    (observers : bool) (id postType : string) (config : Config) (now : Z)
    (r : Registry) :
  let result := createInstance new observers id postType config now r in
  (is_Some (instances r !! id) →
     result = (Failed (AlreadyExists id), r))
  ∧ (instances r !! id = None →
     match new id postType config with
     | inl manager =>
         result.1 = Returned manager
         ∧ getInstance id result.2 = Some manager
         ∧ (PerformanceMonitor.isMonitoring <$> performanceMonitors result.2 !! id)
           = Some true
         ∧ reported result.2 = reported r
         ∧ ∀ other, other ≠ id →
             instances result.2 !! other = instances r !! other
             ∧ performanceMonitors result.2 !! other
               = performanceMonitors r !! other
     | inr error =>
         result.1 = Failed (Raised error)
         ∧ instances result.2 = instances r
         ∧ performanceMonitors result.2 !! id = None
         ∧ reported result.2 = reported r ++ [(id, error)]
         ∧ ∀ other, other ≠ id →
             performanceMonitors result.2 !! other
             = performanceMonitors r !! other
     end).
Proof.
  cbv zeta. unfold createInstance. split.
  - intros Hin. rewrite bool_decide_eq_true_2 by exact Hin. reflexivity.
  - intros Hnone.
    rewrite bool_decide_eq_false_2 by (rewrite Hnone; intros [x Hx]; discriminate).
    destruct (new id postType config) as [manager|error]; cbn [fst snd].
    + split; [reflexivity|]. unfold getInstance. cbn [instances performanceMonitors
        reported].
      rewrite !lookup_insert_eq. split; [reflexivity|].
      split.
      { cbn [fmap option_fmap option_map]. unfold PerformanceMonitor.start.
        cbn [PerformanceMonitor.isMonitoring PerformanceMonitor.constructor].
        unfold PerformanceMonitor.measureFPS.
        cbn [PerformanceMonitor.isMonitoring negb].
        destruct observers;
          destruct (1000 <=? now - _)%Z; reflexivity. }
      split; [reflexivity|].
      intros other Hne. rewrite !lookup_insert_ne by congruence. split; reflexivity.
    + cbn [instances performanceMonitors reported].
      split; [reflexivity|]. split; [reflexivity|].
      rewrite lookup_delete_eq. split; [reflexivity|]. split; [reflexivity|].
      intros other Hne.
      rewrite lookup_delete_ne by congruence.
      rewrite lookup_insert_ne by congruence. reflexivity.
Qed.

(** X21.  [destroyInstance] returns [false] for an id that is not
    registered and changes nothing.  For a registered id the monitor is
    removed first, whatever follows: if the manager's [destroy] returns,
    the id is removed from [instances] too and the call returns [true];
    if it throws, the call throws the same error and the id stays
    registered without a monitor, so [getInstanceMetrics] gives [null].
    Other ids are never touched. *)
Theorem destroyInstance_outcomes `{CircularNavManager.Absent}
    (id : string) (r : Registry) :
  let result := destroyInstance id r in
  (instances r !! id = None → result = (Returned false, r))
  ∧ (∀ data, instances r !! id = Some data →
       performanceMonitors result.2 !! id = None
       ∧ getInstanceMetrics id result.2 = None
       ∧ match CircularNavManager.destroy (instance data) with
         | (StateManager.Ret _, _) =>
             result.1 = Returned true ∧ instances result.2 !! id = None
         | (StateManager.Throw e, manager) =>
             result.1 = Failed (Raised e)
             ∧ instances result.2 !! id
               = Some (mkInstanceData manager (created data))
         | (StateManager.OutOfFuel, _) => result.1 = Unfinished
         end)
  ∧ (∀ other, other ≠ id →
       instances result.2 !! other = instances r !! other
       ∧ performanceMonitors result.2 !! other = performanceMonitors r !! other).
Proof.
  cbv zeta. unfold destroyInstance, getInstanceMetrics.
  destruct (instances r !! id) as [data|] eqn:Hid.
  - split; [discriminate|].
    set (r1 := match performanceMonitors r !! id with
               | Some _ => _ | None => r end).
    assert (Hr1 : performanceMonitors r1 !! id = None
                  ∧ instances r1 = instances r
                  ∧ ∀ other, other ≠ id →
                      performanceMonitors r1 !! other
                      = performanceMonitors r !! other).
    { subst r1. destruct (performanceMonitors r !! id) eqn:Hm; cbn.
      - rewrite lookup_delete_eq. repeat split.
        intros other Hne. apply lookup_delete_ne. congruence.
      - repeat split. exact Hm. }
    clearbody r1. destruct Hr1 as (Hm1 & Hi1 & Ho1).
    split.
    + intros data' [= <-].
      destruct (CircularNavManager.destroy (instance data)) as [[[]|e|] manager];
        cbn [fst snd instances performanceMonitors]; rewrite Hm1;
        (split; [reflexivity|]); (split; [reflexivity|]).
      * split; [reflexivity|]. apply lookup_delete_eq.
      * split; [reflexivity|]. apply lookup_insert_eq.
      * reflexivity.
    + intros other Hne.
      destruct (CircularNavManager.destroy (instance data)) as [[[]|e|] manager];
        cbn [fst snd instances performanceMonitors]; rewrite Ho1 by exact Hne;
        (split; [|reflexivity]).
      * rewrite lookup_delete_ne by congruence. rewrite Hi1. reflexivity.
      * rewrite lookup_insert_ne by congruence. rewrite Hi1. reflexivity.
      * rewrite lookup_insert_ne by congruence. rewrite Hi1. reflexivity.
  - split; [reflexivity|]. split; [discriminate|].
    intros other Hne. split; reflexivity.
Qed.

(** The manager's [destroy] does not return while the state manager has
    no [removeAllListeners]: it throws. *)
Lemma destroy_as_written_throws (c : CircularNavManager.Controller) :
  ∃ e c', @CircularNavManager.destroy _ CircularNavManager.asWritten c
          = (StateManager.Throw e, c').
Proof.
  unfold CircularNavManager.destroy.
  destruct (CircularNavManager.state c) as [s|]; [|eauto].
  pose proof (updateState_terminates 0 [("isDestroying"%string, VBool true)] s)
    as Hterm.
  destruct (StateManager.updateState 2 _ s) as [[v|e|] s1]; cbn [fst] in Hterm.
  - cbn [CircularNavManager.removeAllListeners CircularNavManager.asWritten].
    eauto.
  - eauto.
  - contradiction.
Qed.

(** X22.  As the sources stand, an instance cannot be unregistered:
    [destroyInstance] of a registered id always throws, because the
    manager's [destroy] calls a method the state manager does not have;
    the id stays in [instances] while its monitor is gone, and a later
    [createInstance] for the same id fails with "already exists". *)
Theorem destroyInstance_as_written
    (new : string → string → Config → CircularNavManager.Controller + Value)
    (observers : bool) (id postType : string) (config : Config) (now : Z)
    (r : Registry) :
  is_Some (instances r !! id) →
  let result := @destroyInstance _ CircularNavManager.asWritten id r in
  (∃ e, result.1 = Failed (Raised e))
  ∧ is_Some (instances result.2 !! id)
  ∧ performanceMonitors result.2 !! id = None
  ∧ (createInstance new observers id postType config now result.2).1
    = Failed (AlreadyExists id).
Proof.
  intros [data Hid]. cbv zeta.
  assert (Hres : ∃ e manager,
            (@destroyInstance _ CircularNavManager.asWritten id r).1
              = Failed (Raised e)
            ∧ instances (@destroyInstance _ CircularNavManager.asWritten id r).2 !! id
              = Some (mkInstanceData manager (created data))
            ∧ performanceMonitors
                (@destroyInstance _ CircularNavManager.asWritten id r).2 !! id = None).
  { unfold destroyInstance. rewrite Hid.
    destruct (destroy_as_written_throws (instance data)) as (e & c' & Hd).
    rewrite Hd. exists e, c'. cbn [fst snd instances performanceMonitors].
    split; [reflexivity|]. split; [apply lookup_insert_eq|].
    destruct (performanceMonitors r !! id) eqn:Hm; cbn.
    - apply lookup_delete_eq.
    - exact Hm. }
  destruct Hres as (e & manager & H1 & H2 & H3).
  split; [eauto|]. split; [rewrite H2; eauto|]. split; [exact H3|].
  unfold createInstance. rewrite bool_decide_eq_true_2 by (rewrite H2; eauto).
  reflexivity.
Qed.

End RegistryProps.

(** X22 on a registry that holds the example instance under the id
    "nav". *)
Lemma destroyInstance_as_written_example :
  let r :=
    CircularNavigation.mkRegistry
      {[ "nav"%string :=
           CircularNavigation.mkInstanceData
             CircularNavManager.exampleController 1000 ]}
      {[ "nav"%string := PerformanceMonitor.constructor 1000 ]} [] in
  let result :=
    @CircularNavigation.destroyInstance StateManager.asWritten
      CircularNavManager.asWritten "nav" r in
  (∃ e, result.1 = CircularNavigation.Failed (CircularNavigation.Raised e))
  ∧ is_Some (CircularNavigation.instances result.2 !! "nav"%string)
  ∧ CircularNavigation.performanceMonitors result.2 !! "nav"%string = None
  ∧ (@CircularNavigation.createInstance unit
       (fun _ _ _ => inl CircularNavManager.exampleController) true
       "nav" "page" tt 2000 result.2).1
    = CircularNavigation.Failed (CircularNavigation.AlreadyExists "nav").
Proof.
  apply (@destroyInstance_as_written unit StateManager.asWritten
           (fun _ _ _ => inl CircularNavManager.exampleController) true
           "nav" "page" tt 2000).
  cbn [CircularNavigation.instances]. rewrite lookup_singleton_eq. eauto.
Defined.

(** ** StateManager: destroying, listeners *)

Section StoreExtraProps.
Import JS StateManager StoreLogic Listeners Lifecycle.
Context `{Collaborators}.

Lemma destroying_updateState (fuel : nat) (p : list (string * Value)) (w : Store) :
  destroying w → updateState (S fuel) p w = (Ret (VBool false), w).
Proof.
  intros [Hs Hval]. cbn [updateState]. unfold updateStateBody, bind.
  rewrite (read_spec w "isDestroying" Hs), Hval. reflexivity.
Qed.

Lemma destroying_update (fuel : nat) (p : list (string * Value)) (w : Store) :
  destroying w → (updateState fuel p w).2 = w.
Proof.
  intros Hd. destruct fuel as [|f]; [reflexivity|].
  rewrite destroying_updateState by exact Hd. reflexivity.
Qed.

Lemma destroying_fire (w : Store) : destroying w → destroying (fire w).
Proof.
  intros [Hs Hval]. unfold fire.
  destruct (finalizeTransition_spec w Hs) as (w' & E & Hs' & Hc & _).
  rewrite E. cbn [snd]. split; [rewrite Hs'; exact Hs|].
  rewrite Hc, get_insert_ne by discriminate. exact Hval.
Qed.

Lemma destroying_fired {A : Type} (due : list A) (w : Store) :
  destroying w → destroying (foldl (fun acc _ => fire acc) w due).
Proof.
  revert w. induction due as [|t due IH]; intros w Hd; [exact Hd|].
  cbn [foldl]. apply IH. apply destroying_fire. exact Hd.
Qed.

Lemma destroying_advance (d : Z) (w : Store) : destroying w → destroying (advance d w).
Proof.
  intros Hd. unfold advance.
  exact (destroying_fired
           (List.filter (fun x => x.2 <=? clock w + d) (timers w))
           (set_timers (nextTimer w)
              (List.filter (fun x => negb (x.2 <=? clock w + d)) (timers w)) w)
           Hd).
Qed.

Lemma destroying_register (r : Registration) (w : Store) :
  destroying w → destroying (register w r).
Proof.
  intros Hd. destruct r as [e c|e c]; cbn [register].
  - exact Hd.
  - unfold off. destruct (listeners w !! e); exact Hd.
Qed.

Lemma destroying_later (ls : list Later) (w : Store) :
  destroying w → destroying (foldl later w ls).
Proof.
  revert w. induction ls as [|l ls IH]; intros w Hd; [exact Hd|].
  cbn [foldl]. apply IH. destruct l as [fuel p|d|r]; cbn [later].
  - rewrite destroying_update by exact Hd. exact Hd.
  - apply destroying_advance. exact Hd.
  - apply destroying_register. exact Hd.
Qed.

(** A successful [updateState({isDestroying: true})] leaves the manager
    destroying. *)
Lemma destroying_begins (fuel : nat) (w : Store) :
  (updateState fuel [("isDestroying"%string, VBool true)] w).1 = Ret (VBool true) →
  destroying (updateState fuel [("isDestroying"%string, VBool true)] w).2.
Proof.
  intros Hret.
  destruct fuel as [|f]; [discriminate Hret|].
  change (updateState (S f) [("isDestroying"%string, VBool true)])
    with (updateStateBody (handleStateChange (updateState f))
            [("isDestroying"%string, VBool true)]) in *.
  destruct (updateStateBody (handleStateChange (updateState f))
              [("isDestroying"%string, VBool true)] w) as [r w'] eqn:E.
  simpl in Hret. subst r. cbn [snd].
  apply updateStateBody_true_inv in E
    as (Hs & Hd & w1 & w3 & E1 & Ehsc & Eend).
  destruct (startTransition_spec w Hs) as (w1' & E1' & Hs1 & _).
  rewrite E1 in E1'. inversion E1'; subst w1'; clear E1'.
  set (w2 := (replaceState [("isDestroying"%string, VBool true)] w1).2) in *.
  assert (Hs2 : is_Some (state w2)) by (simpl; eauto).
  destruct (keeps_handleStateChange (updateState f) (current w1)
              (nextObj w1) (keeps_nested f) _ _ _ Ehsc Hs2)
    as [Hs3 Hkeep].
  set (w4 := set_emitted _ w3) in *.
  assert (Hs4 : is_Some (state w4)) by exact Hs3.
  destruct (stamp_and_end_spec w4 Hs4) as (w5 & E5 & Hs5 & Hc5 & _).
  rewrite Eend in E5. inversion E5; subst w5; clear E5.
  split; [rewrite Hs5; exact Hs4|].
  rewrite Hc5. rewrite get_insert_ne by discriminate.
  change (current w4) with (current w3).
  rewrite (Hkeep "isDestroying"%string).
  - subst w2. rewrite current_replaceState. unfold assign. simpl.
    apply get_insert_eq.
  - unfold transitionFields. intros Hin. apply list_elem_of_In in Hin.
    simpl in Hin. repeat destruct Hin as [Hin|Hin]; try discriminate Hin.
    exact Hin.
Qed.

(** X23.  Destroying is final while the manager is kept.  Once
    [updateState({isDestroying: true})] has returned [true], then after
    whatever further [updateState] calls, registrations and passing of
    time (with the pending timers running), an [updateState] returns
    [false] and leaves the manager exactly as it is: no field changes, no
    event is emitted, no timer is set; in particular
    [updateState({isDestroying: false})] cannot undo it.  Once [destroy()]
    has dropped the state object, [updateState] throws a [TypeError]
    instead. *)
Theorem destroying_is_final (fuel fuel' : nat) (p : list (string * Value))
    (w : Store) (ls : list Later) :
  (updateState fuel [("isDestroying"%string, VBool true)] w).1 = Ret (VBool true) →
  let w' :=
    foldl later
      (updateState fuel [("isDestroying"%string, VBool true)] w).2 ls in
  updateState (S fuel') p w' = (Ret (VBool false), w')
  ∧ updateState (S fuel') p (destroy w').2 = (Throw nullAccess, (destroy w').2).
Proof.
  intros Hret w'. split.
  - apply destroying_updateState. subst w'. apply destroying_later.
    apply destroying_begins. exact Hret.
  - reflexivity.
Qed.

End StoreExtraProps.

(** X23 on a new manager, with the methods missing from the class
    supplied: after the destroying call, an ignored update, a registration
    and 150 ms in which the pending timer runs, the flag cannot be taken
    back. *)
Lemma destroying_is_final_example :
  let w' :=
    foldl (@Lifecycle.later StateManager.completed)
      (@StateManager.updateState StateManager.completed 2
         [("isDestroying"%string, JS.VBool true)] StateManager.exampleStore).2
      [Lifecycle.Update 2 [("selectedNode"%string, JS.VRef 1)];
       Lifecycle.Register (Listeners.On "transition:end" 7);
       Lifecycle.Elapse 150] in
  @StateManager.updateState StateManager.completed 1
    [("isDestroying"%string, JS.VBool false)] w'
  = (StateManager.Ret (JS.VBool false), w')
  ∧ @StateManager.updateState StateManager.completed 1
      [("isDestroying"%string, JS.VBool false)] (StateManager.destroy w').2
    = (StateManager.Throw StateManager.nullAccess, (StateManager.destroy w').2).
Proof.
  apply (@destroying_is_final StateManager.completed 2 0
           [("isDestroying"%string, JS.VBool false)] StateManager.exampleStore
           [Lifecycle.Update 2 [("selectedNode"%string, JS.VRef 1)];
            Lifecycle.Register (Listeners.On "transition:end" 7);
            Lifecycle.Elapse 150]).
  vm_compute. reflexivity.
Defined.

Section ListenerProps.
Import JS StateManager Listeners.






End ListenerProps.

(** ** The reconcilers: what an update tracks *)

Section TrackingProps.
Import JS Scene.


















(** X27.  Inside [update(data)] of the path manager and of the outer
    element manager the refresh of the selection state is dropped by its
    own guard, because [isUpdating] is still set when it is called: the
    update ends the same whether or not a node is selected.  The node
    manager, whose refresh has no guard, does start its state
    transitions. *)
Theorem nested_selection_refresh_is_dropped
    (data : option Tree) (p : PathManager.Manager)
    (o : OuterElementManager.Manager) (n : NodeManager.Manager) :
  PathManager.update data true p = PathManager.update data false p
  ∧ OuterElementManager.update data true o = OuterElementManager.update data false o
  ∧ (∀ tree, data = Some tree → NodeManager.isUpdating n = false →
       NodeManager.started (NodeManager.update data true n).2
       = NodeManager.started (NodeManager.update data false n).2
           ++ map (Anim "state")
                (entering (NodeManager.layer n) (NodeManager.nodeKeys tree)
                 ++ updating (NodeManager.layer n) (NodeManager.nodeKeys tree))).
Proof.
  split; [|split].
  - unfold PathManager.update, PathManager.update_begin.
    destruct data as [tree|]; [|reflexivity].
    destruct (PathManager.isUpdating p); reflexivity.
  - unfold OuterElementManager.update, OuterElementManager.update_begin.
    destruct data as [tree|]; [|reflexivity].
    destruct (OuterElementManager.isUpdating o); reflexivity.
  - intros tree -> Hn.
    unfold NodeManager.update, NodeManager.update_begin. rewrite Hn.
    reflexivity.
Qed.

End TrackingProps.

(** ** CircularNavManager: a click on a node *)

Section NodeClickProps.
Import JS StateManager NodeClick.
Context `{Collaborators}.

(** X28.  The controller's [handleNodeClick] never changes the
    selection.  Its guard reads [this.state.isTransitioning], which on
    the state manager is the method of that name and not the flag, so
    the guard holds for every event and the handler returns without
    calling [updateState]: the controller is left exactly as it was, and
    the only other way the handler can end is the [TypeError] on a
    dropped state manager. *)
Theorem handleNodeClick_never_updates
    (node : Value) (c : CircularNavManager.Controller) :
  (handleNodeClick node c).2 = c
  ∧ ((handleNodeClick node c).1 = Ret tt
     ∨ ((handleNodeClick node c).1 = Throw nullAccess
        ∧ truthy node = true ∧ CircularNavManager.state c = None)).
Proof.
  unfold handleNodeClick.
  destruct (truthy node) eqn:Hn; cbn [negb]; [|split; [reflexivity|left; reflexivity]].
  destruct (CircularNavManager.state c) as [s|] eqn:Hs.
  - change (memberTruthy "isTransitioning" s) with true. cbv iota.
    split; [reflexivity|left; reflexivity].
  - split; [reflexivity|right; auto].
Qed.

End NodeClickProps.

(** ** OuterElementManager: presence of the elements *)

Section OuterValidationProps.
Import JS Scene OuterElementManager OuterValidation.




End OuterValidationProps.

(** ** Where nodes, link ends and indicators are placed *)

Section PlacementProps.
Import Reals Placement.
Local Open Scope R_scope.

(** X30.  A link ends where the node manager puts its target (for a
    target below the root), but not where the outer element manager puts
    the target's indicator: the indicator position is computed without
    the quarter-turn offset, so the link end is the indicator position
    turned by a quarter turn about the centre, [(ix, iy)] against
    [(iy, -ix)].  Both lie at the node's radius from the centre, and they
    coincide only at radius 0. *)
Theorem indicator_a_quarter_turn_from_link_end (node : Placed) :
  (depth node ≠ 0%nat → calculateNodePosition node = calculateEndPoint node)
  ∧ calculateEndPoint node
    = ((calculateIndicatorPosition node).2, - (calculateIndicatorPosition node).1)
  ∧ (calculateEndPoint node).1 * (calculateEndPoint node).1
      + (calculateEndPoint node).2 * (calculateEndPoint node).2
    = y node * y node
  ∧ (calculateEndPoint node = calculateIndicatorPosition node → y node = 0).
Proof.
  assert (Hc : cos (x node - PI / 2) = sin (x node)).
  { replace (x node - PI / 2) with (- (PI / 2 - x node)) by ring.
    rewrite cos_neg. apply cos_shift. }
  assert (Hs : sin (x node - PI / 2) = - cos (x node)).
  { replace (x node - PI / 2) with (- (PI / 2 - x node)) by ring.
    rewrite sin_neg, sin_shift. reflexivity. }
  pose proof (sin2_cos2 (x node)) as Hsc. unfold Rsqr in Hsc.
  split; [|split; [|split]].
  - intros Hd. unfold calculateNodePosition.
    apply Nat.eqb_neq in Hd. rewrite Hd. reflexivity.
  - unfold calculateEndPoint, calculateIndicatorPosition. cbn [fst snd].
    rewrite Hc, Hs. f_equal. ring.
  - unfold calculateEndPoint. cbn [fst snd]. rewrite Hc, Hs.
    replace (y node * sin (x node) * (y node * sin (x node))
             + y node * - cos (x node) * (y node * - cos (x node)))
      with (y node * y node
            * (sin (x node) * sin (x node) + cos (x node) * cos (x node)))
      by ring.
    rewrite Hsc. ring.
  - unfold calculateEndPoint, calculateIndicatorPosition. rewrite Hc, Hs.
    intros [= H1 H2].
    assert (H2' : - (y node * cos (x node)) = y node * sin (x node))
      by (rewrite <- H2; ring).
    assert (Hsin : y node * sin (x node) = 0).
    { set (a := y node * sin (x node)) in *. set (b := y node * cos (x node)) in *.
      Lra.lra. }
    assert (Hcos : y node * cos (x node) = 0) by (rewrite <- H1; exact Hsin).
    assert (Hy : y node * y node = 0).
    { replace (y node * y node)
        with (y node * y node
              * (sin (x node) * sin (x node) + cos (x node) * cos (x node)))
        by (rewrite Hsc; ring).
      replace (y node * y node
               * (sin (x node) * sin (x node) + cos (x node) * cos (x node)))
        with (y node * sin (x node) * (y node * sin (x node))
              + y node * cos (x node) * (y node * cos (x node))) by ring.
      rewrite Hsin, Hcos. ring. }
    apply Rmult_integral in Hy. destruct Hy; assumption.
Qed.

End PlacementProps.
